(** * BTHome v2 service-data decoder and Shelly manufacturer-data decoder

    A shallow embedding of [src/BTHomeSpec.ts], [src/BTHomeDecoder.ts] and
    [src/BTHomeShellyMdDecoder.ts] of matterbridge-bthome, with the
    properties of the two decoders proved over it.

    Modelling conventions.
    - A Node [Buffer] is a [list byte]; offsets are [nat] (the code only
      ever uses non-negative integer offsets), decoded integers are [Z].
    - A thrown JavaScript exception is the [Throw] branch of [outcome].
    - A JavaScript number is the rational it denotes ([Q]).  A numeric
      literal, a product and a quotient are rounded to binary64 (nearest,
      ties to even) by [binary64]; every number of the decoder lies in
      the normal range, so neither infinities nor subnormal numbers are
      modelled.  [Math.log10] is taken exact, and the number [parseFloat]
      reads from the output of [toFixed] is kept as that decimal, which
      is also how JavaScript prints it.
    - A JavaScript object used as a dictionary is a [gmap string value];
      the [in] operator is own-property lookup (no name of the table is a
      property of [Object.prototype]).
    - A JavaScript string is a Rocq [string]; text decoded from a buffer is
      kept in its UTF-8 encoding. *)

From Stdlib Require Import ZArith QArith Qabs Qround Qpower Lqa Strings.String Strings.Ascii Strings.Byte List Lia.
From stdpp Require Import gmap strings list.

Open Scope string_scope.
Open Scope Z_scope.

(** ** Outcomes of JavaScript code that may throw *)

Inductive js_error :=
| RangeError_bounds                   (* a Buffer read outside the buffer *)
| RangeError_toFixed                  (* toFixed() digits outside 0..100 *)
| RangeError_date                     (* toISOString() of an invalid Date *)
| Error_missing_bytes (name : string) (* `BTHome spec for ${name} is missing 'bytes'` *)
| Loop_fuel_exhausted.                (* artefact of the model, never produced *)

Inductive outcome (A : Type) :=
| Ok (a : A)
| Throw (e : js_error).
Arguments Ok {A} a.
Arguments Throw {A} e.

#[global] Instance outcome_ret : MRet outcome := @Ok.
#[global] Instance outcome_bind : MBind outcome := fun A B f m =>
  match m with
  | Ok a => f a
  | Throw e => Throw e
  end.

#[global] Instance outcome_fmap : FMap outcome := fun A B f m =>
  match m with
  | Ok a => Ok (f a)
  | Throw e => Throw e
  end.

Definition returns {A} (m : outcome A) : Prop := exists a, m = Ok a.

(** ** Node Buffer primitives *)

Abbreviation Buffer := (list byte).

Definition u8 (b : byte) : Z := Z.of_N (Byte.to_N b).

Definition byte_of_Z (z : Z) : byte :=
  match Byte.of_N (Z.to_N (z mod 256)) with
  | Some b => b
  | None => x00
  end.

(** [Buffer.from(array)]: every element is taken modulo 256. *)
Definition Buffer_from (l : list Z) : Buffer := map byte_of_Z l.

(** [buf.slice(start, end)] and [buf.slice(start)] for [0 <= start <= end];
    both clamp to the buffer and never throw. *)
Definition slice (buf : Buffer) (start stop : nat) : Buffer :=
  take (stop - start) (drop start buf).
Definition slice_from (buf : Buffer) (start : nat) : Buffer := drop start buf.

(** Little-endian value of a byte sequence. *)
Fixpoint le_value (bs : Buffer) : Z :=
  match bs with
  | [] => 0
  | b :: rest => u8 b + 256 * le_value rest
  end.

Definition readUInt8 (buf : Buffer) (offset : nat) : outcome Z :=
  match buf !! offset with
  | Some b => Ok (u8 b)
  | None => Throw RangeError_bounds
  end.

Definition readUIntLE (buf : Buffer) (offset byteLength : nat) : outcome Z :=
  if decide (1 <= byteLength <= 6)%nat then
    if decide (offset + byteLength <= length buf)%nat
    then Ok (le_value (slice buf offset (offset + byteLength)))
    else Throw RangeError_bounds
  else Throw RangeError_bounds.

Definition readIntLE (buf : Buffer) (offset byteLength : nat) : outcome Z :=
  raw ← readUIntLE buf offset byteLength;
  let width := 8 * Z.of_nat byteLength in
  mret (if Z.testbit raw (width - 1) then raw - 2 ^ width else raw).

Definition readUInt16LE (buf : Buffer) (offset : nat) : outcome Z :=
  readUIntLE buf offset 2.
Definition readUInt32LE (buf : Buffer) (offset : nat) : outcome Z :=
  readUIntLE buf offset 4.

(** ** Number and byte rendering *)

Definition digit_char (d : Z) : ascii :=
  match String.get (Z.to_nat d) "0123456789abcdef" with
  | Some c => c
  | None => "?"%char
  end.

Fixpoint to_radix_go (fuel : nat) (radix n : Z) (acc : string) : string :=
  match fuel with
  | O => acc
  | S fuel' =>
      let acc' := String (digit_char (n mod radix)) acc in
      if n / radix =? 0 then acc' else to_radix_go fuel' radix (n / radix) acc'
  end.

(** [n.toString(radix)] for an integer [n]. *)
Definition toString_radix (radix n : Z) : string :=
  let digits := to_radix_go (S (Z.to_nat (Z.log2 (Z.abs n)))) radix (Z.abs n) "" in
  if n <? 0 then "-" ++ digits else digits.

(** Template-literal rendering [`${n}`] of an integer. *)
Definition show (n : Z) : string := toString_radix 10 n.

(** [`${x}`] of an array element that may be [undefined]. *)
Definition show_elem (x : option byte) : string :=
  match x with
  | Some b => show (u8 b)
  | None => "undefined"
  end.

Definition pad_left (width : nat) (s : string) : string :=
  String.concat "" (replicate (width - String.length s) "0") ++ s.

Definition hex2 (b : byte) : string := pad_left 2 (toString_radix 16 (u8 b)).

(** [buf.toString('hex')] *)
Definition toString_hex (buf : Buffer) : string := String.concat "" (map hex2 buf).

(** [buf.toString('utf8')]: well-formed sequences are kept, every maximal
    ill-formed subsequence becomes U+FFFD (bytes EF BF BD). *)
Definition U_FFFD : list byte := [xef; xbf; xbd].

Record utf8_state := {
  needed : nat;          (* continuation bytes still expected *)
  lower : Z; upper : Z;  (* admissible range of the next continuation byte *)
  pending : list byte    (* bytes of the sequence read so far *)
}.

Definition utf8_idle : utf8_state :=
  {| needed := 0; lower := 0x80; upper := 0xbf; pending := [] |}.

Definition utf8_lead (b : byte) : list byte * utf8_state :=
  let c := u8 b in
  if c <? 0x80 then ([b], utf8_idle)
  else if (0xc2 <=? c) && (c <=? 0xdf) then
    ([], {| needed := 1; lower := 0x80; upper := 0xbf; pending := [b] |})
  else if (0xe0 <=? c) && (c <=? 0xef) then
    ([], {| needed := 2;
            lower := if c =? 0xe0 then 0xa0 else 0x80;
            upper := if c =? 0xed then 0x9f else 0xbf;
            pending := [b] |})
  else if (0xf0 <=? c) && (c <=? 0xf4) then
    ([], {| needed := 3;
            lower := if c =? 0xf0 then 0x90 else 0x80;
            upper := if c =? 0xf4 then 0x8f else 0xbf;
            pending := [b] |})
  else (U_FFFD, utf8_idle).

Fixpoint utf8_go (bs : list byte) (st : utf8_state) : list byte :=
  match bs with
  | [] => match needed st with O => [] | S _ => U_FFFD end
  | b :: rest =>
      match needed st with
      | O => let '(out, st') := utf8_lead b in out ++ utf8_go rest st'
      | S n =>
          if (lower st <=? u8 b) && (u8 b <=? upper st) then
            match n with
            | O => pending st ++ [b] ++ utf8_go rest utf8_idle
            | S _ => utf8_go rest {| needed := n; lower := 0x80; upper := 0xbf;
                                     pending := pending st ++ [b] |}
            end
          else
            let '(out, st') := utf8_lead b in U_FFFD ++ out ++ utf8_go rest st'
      end
  end.

Definition toString_utf8 (buf : Buffer) : string :=
  string_of_list_byte (utf8_go buf utf8_idle).

(** ** JavaScript numbers *)

(** The integer nearest to [x], the even one on a tie. *)
Definition round_half_even (x : Q) : Z :=
  let n := Qfloor x in
  match (x - inject_Z n ?= 1 # 2)%Q with
  | Lt => n
  | Gt => n + 1
  | Eq => if Z.even n then n else n + 1
  end.

(** The binary exponent of [x > 0]: the [e] with [2^e <= x < 2^(e+1)].
    The difference of the two logarithms is that [e] or one more. *)
Definition exponent (x : Q) : Z :=
  let e := Z.log2 (Qnum x) - Z.log2 (Z.pos (Qden x)) in
  if Qle_bool (2 ^ e) x then e else e - 1.

(** The binary64 number nearest to [x], the one with the even significand
    on a tie: [|x|] is scaled to a significand in [2^52, 2^53), rounded
    to an integer and scaled back.  This is the value of a numeric
    literal and the result of [*] and [/] on the exact product or
    quotient, for [|x|] in the normal range [2^-1022, 2^1024). *)
Definition binary64 (x : Q) : Q :=
  if Qnum x =? 0 then 0%Q
  else
    let e := exponent (Qabs x) in
    let m := round_half_even (Qabs x * 2 ^ (52 - e)) in
    let y := Qred (inject_Z m * 2 ^ (e - 52)) in
    if Qnum x <? 0 then (- y)%Q else y.

(** [ToIntegerOrInfinity(Math.log10(x))] for a rational [x >= 1]: the
    largest [k] with [10^k <= x]. *)
Fixpoint ilog10_go (fuel : nat) (n : Z) : Z :=
  match fuel with
  | O => 0
  | S fuel' => if n <? 10 then 0 else 1 + ilog10_go fuel' (n / 10)
  end.
Definition ilog10 (n : Z) : Z := ilog10_go (Z.to_nat (Z.log2 n)) n.

(** The fraction-digits argument [Math.log10(1 / factor)] after the
    truncation [toFixed] applies to it; [None] stands for an infinite
    argument ([factor = 0]).  A negative [factor] gives NaN, truncated
    to 0.  The quotient [1 / factor] is rounded to binary64. *)
Definition fraction_digits (factor : Q) : option Z :=
  match Qnum factor with
  | 0 => None
  | Z.neg _ => Some 0
  | Z.pos _ =>
      if Qle_bool factor 1
      then Some (ilog10 (Qfloor (binary64 (Qinv factor))))
      else Some (- ilog10 (Qfloor factor))
  end.

(** The decimal numeral written by [toFixed]: sign, integer [n] and the
    number [f] of fraction digits; it denotes [n / 10^f]. *)
Record numeral := { negative : bool; mantissa : Z; decimals : Z }.

(** [x.toFixed(digits)] for [|x| < 10^21]: [n] is the integer nearest
    [|x| * 10^f], the larger one on a tie. *)
Definition toFixed (x : Q) (digits : option Z) : outcome numeral :=
  match digits with
  | None => Throw RangeError_toFixed
  | Some f =>
      if (f <? 0) || (100 <? f) then Throw RangeError_toFixed
      else
        let ax := Qabs x in
        let n := Qfloor (ax * inject_Z (10 ^ f) + (1 # 2))%Q in
        Ok {| negative := Qnum x <? 0; mantissa := n; decimals := f |}
  end.

Definition parseFloat (s : numeral) : Q :=
  let m := if negative s then - mantissa s else mantissa s in
  Qred (m # Z.to_pos (10 ^ decimals s)).

(** [new Date(ms).toISOString()] *)
Definition civil_from_days (days : Z) : Z * Z * Z :=
  let z := days + 719468 in
  let era := z / 146097 in
  let doe := z - era * 146097 in
  let yoe := (doe - doe / 1460 + doe / 36524 - doe / 146096) / 365 in
  let doy := doe - (365 * yoe + yoe / 4 - yoe / 100) in
  let mp := (5 * doy + 2) / 153 in
  let d := doy - (153 * mp + 2) / 5 + 1 in
  let m := if mp <? 10 then mp + 3 else mp - 9 in
  let y := yoe + era * 400 + (if m <=? 2 then 1 else 0) in
  (y, m, d).

Definition show_pad (width : nat) (n : Z) : string := pad_left width (show n).

Definition toISOString (ms : Z) : outcome string :=
  if 8640000000000000 <? Z.abs ms then Throw RangeError_date
  else
    let '(y, m, d) := civil_from_days (ms / 86400000) in
    let t := ms mod 86400000 in
    let year :=
      if (0 <=? y) && (y <=? 9999) then show_pad 4 y
      else (if y <? 0 then "-" else "+") ++ show_pad 6 (Z.abs y) in
    Ok (year ++ "-" ++ show_pad 2 m ++ "-" ++ show_pad 2 d ++ "T"
        ++ show_pad 2 (t / 3600000) ++ ":" ++ show_pad 2 (t / 60000 mod 60) ++ ":"
        ++ show_pad 2 (t / 1000 mod 60) ++ "." ++ show_pad 3 (t mod 1000) ++ "Z").

(** ** Decoded values *)

#[local] Set Warnings "-register-all".
Inductive value :=
| VBool (b : bool)
| VNum (q : Q)
| VStr (s : string)
| VObj (props : list (string * value)).

(** ** The field specification table ([BTHomeSpec.ts]) *)

Record BTHomeSpecEntry := {
  name : string;                                   (* human-readable name of the field *)
  bytes : option nat;                              (* [None]: length-prefixed *)
  signed : option bool;
  factor : option Q;
  parser : option (Buffer -> nat -> outcome value) (* custom parser, [(buf, offset)] *)
}.

Definition numeric (name : string) (bytes : nat) (signed : bool) (factor : Q) : BTHomeSpecEntry :=
  {| name := name; bytes := Some bytes; signed := Some signed; factor := Some factor;
     parser := None |}.

(** [buf[off]] as the end of a slice: [off + 1 + undefined] is NaN, which
    [slice] reads as 0. *)
Definition prefixed_end (buf : Buffer) (off : nat) : nat :=
  match buf !! off with
  | Some len => off + 1 + Z.to_nat (u8 len)
  | None => 0
  end.

Definition parse_text (buf : Buffer) (off : nat) : outcome value :=
  Ok (VStr (toString_utf8 (slice buf (off + 1) (prefixed_end buf off)))).

Definition parse_raw (buf : Buffer) (off : nat) : outcome value :=
  Ok (VStr (toString_hex (slice buf (off + 1) (prefixed_end buf off)))).

Definition EVENT_MAP (code : Z) : option string :=
  match code with
  | 0x00 => Some "none"
  | 0x01 => Some "single_press"
  | 0x02 => Some "double_press"
  | 0x03 => Some "triple_press"
  | 0x04 => Some "long_press"
  | 0x05 => Some "long_double_press"
  | 0x06 => Some "long_triple_press"
  | 0x80 => Some "hold_press"
  | 0xfe => Some "hold_press"
  | _ => None
  end.

Definition parse_button (buf : Buffer) (off : nat) : outcome value :=
  code ← readUInt8 buf off;
  mret (VStr (default "unknown" (EVENT_MAP code))).

Definition dimmer_map (evt : Z) : option string :=
  match evt with
  | 0x00 => Some "none"
  | 0x01 => Some "rotateLeft"
  | 0x02 => Some "rotateRight"
  | _ => None
  end.

Definition parse_dimmer (buf : Buffer) (off : nat) : outcome value :=
  evt ← readUInt8 buf off;
  steps ← readUInt8 buf (off + 1);
  mret (VObj [("event", VStr (default ("evt0x" ++ toString_radix 16 evt) (dimmer_map evt)));
              ("steps", VNum (inject_Z steps))]).

Definition parse_timestamp (buf : Buffer) (off : nat) : outcome value :=
  seconds ← readUInt32LE buf off;
  iso ← toISOString (seconds * 1000);
  mret (VStr iso).

(** [const [rc, patch, minor, major] = buf.slice(off, off + 4)] *)
Definition parse_firmwareVersion (buf : Buffer) (off : nat) : outcome value :=
  let s := slice buf off (off + 4) in
  let rc := s !! 0%nat in
  let patch := s !! 1%nat in
  let minor := s !! 2%nat in
  let major := s !! 3%nat in
  Ok (VStr (show_elem major ++ "." ++ show_elem minor ++ "." ++ show_elem patch
            ++ "." ++ show_elem rc)).

(** [const [minor, patch, major] = buf.slice(off, off + 3)] *)
Definition parse_firmwareVersionShort (buf : Buffer) (off : nat) : outcome value :=
  let s := slice buf off (off + 3) in
  let minor := s !! 0%nat in
  let patch := s !! 1%nat in
  let major := s !! 2%nat in
  Ok (VStr (show_elem major ++ "." ++ show_elem minor ++ "." ++ show_elem patch)).

Definition custom (name : string) (bytes : option nat) (p : Buffer -> nat -> outcome value)
  : BTHomeSpecEntry :=
  {| name := name; bytes := bytes;
     signed := match bytes with Some _ => Some false | None => None end;
     factor := match bytes with Some _ => Some 1%Q | None => None end;
     parser := Some p |}.

Definition BTHOME_SPEC_entries : list (Z * BTHomeSpecEntry) := [
  (0x00, numeric "packetId" 1 false 1);
  (0x01, numeric "battery" 1 false 1);
  (0x02, numeric "temperature" 2 true (1 # 100));
  (0x03, numeric "humidity" 2 false (1 # 100));
  (0x04, numeric "pressure" 3 false (1 # 100));
  (0x05, numeric "illuminance" 3 false (1 # 100));
  (0x06, numeric "massKilograms" 2 false (1 # 100));
  (0x07, numeric "massPounds" 2 false (1 # 100));
  (0x08, numeric "dewPoint" 2 true (1 # 100));
  (0x09, numeric "countSmall" 1 false 1);
  (0x0a, numeric "energy_kWh" 3 false (1 # 1000));
  (0x0b, numeric "power_W" 3 false (1 # 100));
  (0x0c, numeric "voltage_V" 2 false (1 # 1000));
  (0x0d, numeric "pm2_5_ugm3" 2 false 1);
  (0x0e, numeric "pm10_ugm3" 2 false 1);
  (0x13, numeric "tvoc_ugm3" 2 false 1);
  (0x14, numeric "moisture" 2 false (1 # 100));
  (0x2e, numeric "humidity" 1 false 1);
  (0x2f, numeric "moisture" 1 false 1);
  (0x40, numeric "distance_mm" 2 false 1);
  (0x41, numeric "distance_m" 2 false (1 # 10));
  (0x42, numeric "duration_s" 3 false (1 # 1000));
  (0x43, numeric "current_A" 2 false (1 # 1000));
  (0x44, numeric "speed_ms" 2 false (1 # 100));
  (0x45, numeric "temperature" 2 true (1 # 10));
  (0x46, numeric "uvIndex" 1 false (1 # 10));
  (0x47, numeric "volume_L" 2 false (1 # 10));
  (0x48, numeric "volume_mL" 2 false 1);
  (0x49, numeric "flowRate_m3ph" 2 false (1 # 1000));
  (0x4a, numeric "voltage_alt_V" 2 false (1 # 10));
  (0x4b, numeric "gas_m3" 3 false (1 # 1000));
  (0x4c, numeric "gas_alt_m3" 4 false (1 # 1000));
  (0x4d, numeric "energy_alt_kWh" 4 false (1 # 1000));
  (0x4e, numeric "volume_alt_L" 4 false (1 # 1000));
  (0x4f, numeric "water_L" 4 false (1 # 1000));
  (0x52, numeric "gyroscope_dps" 2 false (1 # 1000));
  (0x53, custom "text" None parse_text);
  (0x54, custom "raw" None parse_raw);
  (0x55, numeric "volumeStorage_L" 4 false (1 # 1000));
  (0x57, numeric "temperature" 1 true 1);
  (0x58, numeric "temperature" 1 true (35 # 100));
  (0x59, numeric "count8" 1 true 1);
  (0x5a, numeric "count16" 2 true 1);
  (0x5b, numeric "count32" 4 true 1);
  (0x5c, numeric "power_alt_W" 4 true (1 # 100));
  (0x5d, numeric "current_alt_A" 2 true (1 # 1000));
  (0x5e, numeric "direction_deg" 2 false (1 # 100));
  (0x5f, numeric "precipitation_mm" 2 false 1);
  (0x0f, numeric "genericBoolean" 1 false 1);
  (0x10, numeric "powerState" 1 false 1);
  (0x11, numeric "openingState" 1 false 1);
  (0x15, numeric "batteryState" 1 false 1);
  (0x16, numeric "batteryChargingState" 1 false 1);
  (0x17, numeric "carbonMonoxideState" 1 false 1);
  (0x18, numeric "coldState" 1 false 1);
  (0x19, numeric "connectivityState" 1 false 1);
  (0x1a, numeric "doorState" 1 false 1);
  (0x1b, numeric "garageDoorState" 1 false 1);
  (0x1c, numeric "gasState" 1 false 1);
  (0x1d, numeric "heatState" 1 false 1);
  (0x1e, numeric "lightState" 1 false 1);
  (0x1f, numeric "lockState" 1 false 1);
  (0x20, numeric "moistureState" 1 false 1);
  (0x21, numeric "motionState" 1 false 1);
  (0x22, numeric "movingState" 1 false 1);
  (0x23, numeric "occupancyState" 1 false 1);
  (0x24, numeric "plugState" 1 false 1);
  (0x25, numeric "presenceState" 1 false 1);
  (0x26, numeric "problemState" 1 false 1);
  (0x27, numeric "runningState" 1 false 1);
  (0x28, numeric "safetyState" 1 false 1);
  (0x29, numeric "smokeState" 1 false 1);
  (0x2a, numeric "soundState" 1 false 1);
  (0x2b, numeric "tamperState" 1 false 1);
  (0x2c, numeric "vibrationState" 1 false 1);
  (0x2d, numeric "windowState" 1 false 1);
  (0x3a, custom "button" (Some 1%nat) parse_button);
  (0x3c, custom "dimmerEvent" (Some 2%nat) parse_dimmer);
  (0x3f, numeric "rotation_deg" 2 true (1 # 10));
  (0x50, custom "timestamp" (Some 4%nat) parse_timestamp);
  (0xf0, numeric "deviceTypeId" 2 false 1);
  (0xf1, custom "firmwareVersion" (Some 4%nat) parse_firmwareVersion);
  (0xf2, custom "firmwareVersionShort" (Some 3%nat) parse_firmwareVersionShort)
].

Fixpoint table_lookup (entries : list (Z * BTHomeSpecEntry)) (id : Z) : option BTHomeSpecEntry :=
  match entries with
  | [] => None
  | (k, e) :: rest => if k =? id then Some e else table_lookup rest id
  end.

(** [BTHOME_SPEC[id]] *)
Definition BTHOME_SPEC (id : Z) : option BTHomeSpecEntry :=
  table_lookup BTHOME_SPEC_entries id.

(** ** The primary decoder ([BTHomeDecoder.ts]) *)

Record DecodedBTHome := {
  version : Z;
  encrypted : bool;
  trigger : bool;
  readings : gmap string value;
  unknown : list string
}.

(** The local variables of the decoding loop. *)
Module Loop.
Record state := {
  offset : nat;
  ids : list Z;
  readings : gmap string value;
  unknown : list string
}.
End Loop.

(** [Boolean(n)] of an integer *)
Definition Boolean (n : Z) : bool := negb (n =? 0).

(** The value of the field at [offset] and the offset after it: custom
    parser first, generic numeric decoding otherwise.  The factor is the
    literal of the table read as a binary64 number, and [raw * factor] is
    rounded to binary64 ([raw] is an integer below [2^48] in magnitude,
    which binary64 holds exactly). *)
Definition decode_value (spec : BTHomeSpecEntry) (buf : Buffer) (offset : nat)
  : outcome (value * nat) :=
  match parser spec with
  | Some parse =>
      v ← parse buf offset;
      match bytes spec with
      | Some n => mret (v, (offset + n)%nat)
      | None =>
          len ← readUInt8 buf offset;
          mret (v, (offset + (1 + Z.to_nat len))%nat)
      end
  | None =>
      match bytes spec with
      | None => Throw (Error_missing_bytes (name spec))
      | Some n =>
          let factor := binary64 (default 1%Q (factor spec)) in
          raw ← (if default false (signed spec)
                 then readIntLE buf offset n else readUIntLE buf offset n);
          s ← toFixed (binary64 (inject_Z raw * factor)) (fraction_digits factor);
          mret (VNum (parseFloat s), (offset + n)%nat)
      end
  end.

(** [ids.filter((existingId) => existingId === id).length] *)
Definition occurrences (id : Z) (ids : list Z) : nat :=
  length (filter (fun existingId => existingId = id) ids).

(** Lines 102-114: the key under which the value is stored. *)
Definition store (spec : BTHomeSpecEntry) (id : Z) (ids : list Z)
    (readings : gmap string value) (v : value) : gmap string value :=
  let count := occurrences id ids in
  if decide (1 < count)%nat then
    let readings' :=
      match readings !! name spec with
      | Some first => delete (name spec) (<[name spec ++ ":1" := first]> readings)
      | None => readings
      end in
    <[name spec ++ ":" ++ show (Z.of_nat count) := v]> readings'
  else <[name spec := v]> readings.

Definition unknown_entry (id : Z) (tail : Buffer) : string :=
  "0x" ++ toString_radix 16 id ++ " → 0x" ++ toString_hex tail.

(** One pass through the body of [while (offset < buf.length)]; the
    boolean is [false] when the body leaves the loop by [break]. *)
Definition iteration (buf : Buffer) (st : Loop.state) : outcome (bool * Loop.state) :=
  id ← readUInt8 buf (Loop.offset st);
  let offset := S (Loop.offset st) in
  let ids := (Loop.ids st ++ [id])%list in
  match BTHOME_SPEC id with
  | None =>
      mret (false,
            {| Loop.offset := offset; Loop.ids := ids;
               Loop.readings := Loop.readings st;
               Loop.unknown := (Loop.unknown st
                                ++ [unknown_entry id (slice_from buf (offset - 1))])%list |})
  | Some spec =>
      '(v, offset') ← decode_value spec buf offset;
      mret (true,
            {| Loop.offset := offset'; Loop.ids := ids;
               Loop.readings := store spec id ids (Loop.readings st) v;
               Loop.unknown := Loop.unknown st |})
  end.

Fixpoint decode_loop (fuel : nat) (buf : Buffer) (st : Loop.state) : outcome Loop.state :=
  if decide (Loop.offset st < length buf)%nat then
    match fuel with
    | O => Throw Loop_fuel_exhausted
    | S fuel' =>
        '(continue, st') ← iteration buf st;
        if continue : bool then decode_loop fuel' buf st' else mret st'
    end
  else mret st.

Definition decodeBTHome (buf : Buffer) : outcome DecodedBTHome :=
  info ← readUInt8 buf 0;
  let version := Z.land (Z.shiftr info 5) 7 in
  let encrypted := Boolean (Z.land info 1) in
  let trigger := Boolean (Z.land info 4) in
  st ← decode_loop (length buf) buf
         {| Loop.offset := 1; Loop.ids := []; Loop.readings := ∅; Loop.unknown := [] |};
  mret {| version := version; encrypted := encrypted; trigger := trigger;
          readings := Loop.readings st; unknown := Loop.unknown st |}.

(** ** The Shelly manufacturer-data decoder ([BTHomeShellyMdDecoder.ts]) *)

Definition SHELLY_MODEL_LONG_NAMES (id : Z) : option string :=
  match id with
  | 0x0001 => Some "Shelly BLU Button1"
  | 0x0002 => Some "Shelly BLU DoorWindow"
  | 0x0003 => Some "Shelly BLU HT"
  | 0x0005 => Some "Shelly BLU Motion"
  | 0x0006 => Some "Shelly BLU Wall Switch 4"
  | 0x0007 => Some "Shelly BLU RC Button 4"
  | 0x0008 => Some "Shelly BLU TRV"
  | _ => None
  end.

Definition SHELLY_MODEL_SHORT_NAMES (id : Z) : option string :=
  match id with
  | 0x0001 => Some "SBBT-002C"
  | 0x0002 => Some "SBDW-002C"
  | 0x0003 => Some "SBHT-003C"
  | 0x0005 => Some "SBMO-003Z"
  | 0x0006 => Some "SBBT-004CEU"
  | 0x0007 => Some "SBBT-004CUS"
  | 0x0008 => Some "SBTR-001AEU"
  | _ => None
  end.

Definition getShellyBluLongName (id : Z) : option string := SHELLY_MODEL_LONG_NAMES id.
Definition getShellyBluShortName (id : Z) : option string := SHELLY_MODEL_SHORT_NAMES id.

Record ShellyFlags := {
  discoverable : bool;
  authEnabled : bool;
  rpcEnabled : bool;
  buzzerEnabled : bool;
  inPairingMode : bool
}.

(** Optional properties are [None] while undefined. *)
Record ShellyManufacturerData := {
  companyId : Z;
  flags : option ShellyFlags;
  modelId : option Z;
  modelIdShortName : option string;
  modelIdLongName : option string;
  mac : option string
}.

(** The argument [input: Buffer | string].  A string is read one
    character per UTF-16 code unit (code units below 256). *)
Inductive ShellyInput :=
| InputBuffer (buf : Buffer)
| InputString (s : string).

Definition input_length (input : ShellyInput) : nat :=
  match input with
  | InputBuffer buf => length buf
  | InputString s => String.length s
  end.

(** [\s] on code units below 256 *)
Definition is_whitespace (c : ascii) : bool :=
  let n := nat_of_ascii c in
  ((9 <=? n) && (n <=? 13) || (n =? 32) || (n =? 160))%nat.

(** [input.replace(/\s+/g, '')] *)
Fixpoint strip_whitespace (s : string) : string :=
  match s with
  | EmptyString => EmptyString
  | String c rest =>
      if is_whitespace c then strip_whitespace rest else String c (strip_whitespace rest)
  end.

Definition unhex (c : ascii) : option Z :=
  let n := Z.of_nat (nat_of_ascii c) in
  if (48 <=? n) && (n <=? 57) then Some (n - 48)
  else if (97 <=? n) && (n <=? 102) then Some (n - 87)
  else if (65 <=? n) && (n <=? 70) then Some (n - 55)
  else None.

(** [Buffer.from(s, 'hex')]: pairs of hex digits, cut at the first pair
    that is not one; an odd trailing character is dropped. *)
Fixpoint Buffer_from_hex (s : string) : Buffer :=
  match s with
  | String a (String b rest) =>
      match unhex a, unhex b with
      | Some hi, Some lo => byte_of_Z (16 * hi + lo) :: Buffer_from_hex rest
      | _, _ => []
      end
  | _ => []
  end.

(** [s.match(/.{2}/g)]: the list of consecutive two-character pieces, or
    [null] when there is none. *)
Fixpoint pairs_of (s : string) : list string :=
  match s with
  | String a (String b rest) => String a (String b EmptyString) :: pairs_of rest
  | _ => []
  end.
Definition match_pairs (s : string) : option (list string) :=
  match pairs_of s with
  | [] => None
  | l => Some l
  end.

Definition decode_flags (flagsRaw : Z) : ShellyFlags :=
  {| discoverable := Boolean (Z.land flagsRaw (Z.shiftl 1 0));
     authEnabled := Boolean (Z.land flagsRaw (Z.shiftl 1 1));
     rpcEnabled := Boolean (Z.land flagsRaw (Z.shiftl 1 2));
     buzzerEnabled := Boolean (Z.land flagsRaw (Z.shiftl 1 3));
     inPairingMode := Boolean (Z.land flagsRaw (Z.shiftl 1 4)) |}.

Definition set_flags (r : ShellyManufacturerData) (f : ShellyFlags) : ShellyManufacturerData :=
  {| companyId := companyId r; flags := Some f; modelId := modelId r;
     modelIdShortName := modelIdShortName r; modelIdLongName := modelIdLongName r;
     mac := mac r |}.

Definition set_model (r : ShellyManufacturerData) (id : Z) : ShellyManufacturerData :=
  {| companyId := companyId r; flags := flags r; modelId := Some id;
     modelIdShortName := getShellyBluShortName id;
     modelIdLongName := getShellyBluLongName id;
     mac := mac r |}.

Definition set_mac (r : ShellyManufacturerData) (m : option string) : ShellyManufacturerData :=
  {| companyId := companyId r; flags := flags r; modelId := modelId r;
     modelIdShortName := modelIdShortName r; modelIdLongName := modelIdLongName r;
     mac := m |}.

(** One pass through the body of the loop over the TLV blocks: the new
    offset and the updated result. *)
Definition parse_block (buf : Buffer) (offset : nat) (result : ShellyManufacturerData)
  : outcome (nat * ShellyManufacturerData) :=
  blockType ← readUInt8 buf offset;
  let offset := S offset in
  match blockType with
  | 0x01 =>
      flagsRaw ← readUInt16LE buf offset;
      mret ((offset + 2)%nat, set_flags result (decode_flags flagsRaw))
  | 0x0b =>
      modelId ← readUInt16LE buf offset;
      mret ((offset + 2)%nat, set_model result modelId)
  | 0x0a =>
      let macBytes := slice buf offset (offset + 6) in
      mret ((offset + 6)%nat,
            set_mac result (String.concat ":" <$> match_pairs (toString_hex macBytes)))
  | _ => mret (length buf, result)
  end.

Fixpoint parse_blocks (fuel : nat) (buf : Buffer) (offset : nat)
    (result : ShellyManufacturerData) : outcome ShellyManufacturerData :=
  if decide (offset < length buf)%nat then
    match fuel with
    | O => Throw Loop_fuel_exhausted
    | S fuel' =>
        '(offset', result') ← parse_block buf offset result;
        parse_blocks fuel' buf offset' result'
    end
  else mret result.

Definition decodeShellyManufacturerData (input : ShellyInput)
  : outcome (option ShellyManufacturerData) :=
  if decide (input_length input < 10)%nat then mret None
  else
    let buf := match input with
               | InputBuffer buf => buf
               | InputString s => Buffer_from_hex (strip_whitespace s)
               end in
    companyId ← readUInt16LE buf 0;
    if negb (companyId =? 0x0ba9) then mret None
    else
      result ← parse_blocks (length buf) buf 2
                 {| companyId := companyId; flags := None; modelId := None;
                    modelIdShortName := None; modelIdLongName := None; mac := None |};
      mret (Some result).

(** ** Command-line parameters ([BTHome.ts]) *)

(** [args.indexOf(x)]: the first index at which [x] occurs, or -1. *)
Fixpoint indexOf (args : list string) (x : string) : Z :=
  match args with
  | [] => -1
  | a :: rest =>
      if String.eqb a x then 0
      else let i := indexOf rest x in if i <? 0 then -1 else 1 + i
  end.

(** [a || b] on numbers: [a] unless it is 0. *)
Definition or_number (a b : Z) : Z := if a =? 0 then b else a.

(** [s.startsWith(prefix)] *)
Definition startsWith (s prefix : string) : bool := String.prefix prefix s.

(** The [for] loop of [getStringArrayParameter] from its first index on:
    the arguments up to the first one that starts with a dash. *)
Fixpoint values_from (args : list string) : list string :=
  match args with
  | [] => []
  | a :: rest => if startsWith a "-" then [] else a :: values_from rest
  end.

(** [getStringArrayParameter(name)], with [process.argv] as an argument. *)
Definition getStringArrayParameter (argv : list string) (name : string) : list string :=
  let args := drop 2 argv in
  let idx := or_number (indexOf args ("--" ++ name)) (indexOf args ("-" ++ name)) in
  if idx <? 0 then []
  else values_from (drop (Z.to_nat (idx + 1)) args).

(** ** Reading keys in the platform ([module.ts]) *)

(** [property.split(':')] *)
Fixpoint split_colon (s : string) : list string :=
  match s with
  | EmptyString => [EmptyString]
  | String c rest =>
      if Ascii.eqb c ":" then EmptyString :: split_colon rest
      else match split_colon rest with
           | piece :: pieces => String c piece :: pieces
           | [] => [String c EmptyString]
           end
  end.

(** [const [name, index] = property.split(':')]; [index] is [None] when
    undefined. *)
Definition name_and_index (property : string) : string * option string :=
  let pieces := split_colon property in
  (default EmptyString (pieces !! 0%nat), pieces !! 1%nat).

(** The value of a digit in [radix], for [parseInt]. *)
Definition digit_value (radix : Z) (c : ascii) : option Z :=
  let n := Z.of_nat (nat_of_ascii c) in
  let d := if (48 <=? n) && (n <=? 57) then n - 48
           else if (97 <=? n) && (n <=? 122) then n - 87
           else if (65 <=? n) && (n <=? 90) then n - 55
           else radix in
  if d <? radix then Some d else None.

(** The longest prefix of digits, read in [radix]; [acc] is [None] while
    no digit has been read. *)
Fixpoint parse_digits (radix : Z) (s : string) (acc : option Z) : option Z :=
  match s with
  | EmptyString => acc
  | String c rest =>
      match digit_value radix c with
      | Some d => parse_digits radix rest (Some (radix * default 0 acc + d))
      | None => acc
      end
  end.

Fixpoint skip_whitespace (s : string) : string :=
  match s with
  | String c rest => if is_whitespace c then skip_whitespace rest else s
  | EmptyString => EmptyString
  end.

(** [parseInt(s)] without a radix; [None] is NaN.  The result is the
    integer the digits denote.  That is the number JavaScript returns
    while it is below [2^53] in magnitude; a larger one JavaScript rounds
    to binary64, which is left out here. *)
Definition parseInt (s : string) : option Z :=
  let s1 := skip_whitespace s in
  let '(negative, s2) :=
    match s1 with
    | String "-" rest => (true, rest)
    | String "+" rest => (false, rest)
    | _ => (false, s1)
    end in
  let '(radix, s3) :=
    match s2 with
    | String "0" (String "x" rest) => (16, rest)
    | String "0" (String "X" rest) => (16, rest)
    | _ => (10, s2)
    end in
  (fun v => if negative : bool then - v else v) <$> parse_digits radix s3 None.

Module Platform.

Inductive DeviceTypeDefinition :=
| powerSource
| temperatureSensor
| humiditySensor
| pressureSensor
| occupancySensor
| lightSensor
| contactSensor
| genericSwitch.

Record Converter := {
  reading : string;
  deviceType : option DeviceTypeDefinition;
  cluster : option string;
  attribute : option string;
  property : option string;
  type : option string;
  factor : option Z
}.

Definition measured (reading : string) (dt : DeviceTypeDefinition) (cluster : string)
    (type : option string) (factor : option Z) : Converter :=
  {| reading := reading; deviceType := Some dt; cluster := Some cluster;
     attribute := Some "measuredValue"; property := None; type := type; factor := factor |}.

Definition occupancy (reading : string) : Converter :=
  {| reading := reading; deviceType := Some occupancySensor; cluster := Some "OccupancySensing";
     attribute := Some "occupancy"; property := Some "occupied"; type := Some "boolean";
     factor := None |}.

Definition contact (reading : string) : Converter :=
  {| reading := reading; deviceType := Some contactSensor; cluster := Some "BooleanState";
     attribute := Some "stateValue"; property := None; type := Some "boolean_inverted";
     factor := None |}.

Definition plain (reading : string) : Converter :=
  {| reading := reading; deviceType := None; cluster := None; attribute := None;
     property := None; type := None; factor := None |}.

Definition converter : list Converter := [
  {| reading := "battery"; deviceType := Some powerSource; cluster := Some "PowerSource";
     attribute := Some "batPercentRemaining"; property := None; type := None;
     factor := Some 2 |};
  measured "temperature" temperatureSensor "TemperatureMeasurement" None (Some 100);
  measured "humidity" humiditySensor "RelativeHumidityMeasurement" None (Some 100);
  measured "pressure" pressureSensor "PressureMeasurement" None (Some 100);
  occupancy "motionState";
  occupancy "movingState";
  occupancy "occupancyState";
  measured "illuminance" lightSensor "IlluminanceMeasurement" (Some "lux") None;
  contact "doorState";
  contact "garageDoorState";
  contact "windowState";
  {| reading := "button"; deviceType := Some genericSwitch; cluster := Some "Switch";
     attribute := None; property := None; type := None; factor := None |};
  plain "rotation_deg";
  plain "packetId";
  plain "deviceTypeId";
  plain "firmwareVersion";
  plain "firmwareVersionShort";
  plain "text";
  plain "raw"
].

(** [this.converter.find((converter) => converter.reading === name)] *)
Definition find_converter (name : string) : option Converter :=
  snd <$> list_find (fun c => reading c = name) converter.

(** What [addDevice] does for one property of [device.data]: a child
    endpoint (with the label of the select entity, the endpoint name,
    the device type, the number tag when there is an index, and whether
    the battery cluster is created), nothing, or a warning. *)
Inductive entity :=
| Child (label name : string) (dt : DeviceTypeDefinition) (tag : option (option Z))
    (battery : bool)
| NoEndpoint
| NoConverter (name : string).

(** The body of the [for (const property in device.data)] loop of
    [addDevice]; an empty index string is falsy. *)
Definition addDevice_property (prop : string) : entity :=
  let '(name, index) := name_and_index prop in
  let index := match index with
               | Some EmptyString => None
               | other => other
               end in
  match find_converter name with
  | Some c =>
      match deviceType c with
      | Some dt =>
          Child (name ++ match index with Some i => " n. " ++ i | None => "" end)
            prop dt (parseInt <$> index)
            (bool_decide (cluster c = Some "PowerSource"))
      | None => NoEndpoint
      end
  | None => NoConverter name
  end.

End Platform.

(** ** Well-formed streams

    A field is an object id followed by its payload; it is complete when
    the payload has the width the table declares for the id (for a
    length-prefixed id: a length byte and that many bytes). *)

Record field := { fid : byte; payload : Buffer }.

Definition encode (f : field) : Buffer := fid f :: payload f.

Definition encode_all (fs : list field) : Buffer := concat (map encode fs).

Definition complete (spec : BTHomeSpecEntry) (payload : Buffer) : Prop :=
  match bytes spec with
  | Some n => length payload = n
  | None =>
      match payload with
      | len :: data => length data = Z.to_nat (u8 len)
      | [] => False
      end
  end.

Definition well_formed (f : field) : Prop :=
  match BTHOME_SPEC (u8 (fid f)) with
  | Some spec => complete spec (payload f)
  | None => False
  end.

Definition field_name (f : field) : option string :=
  name <$> BTHOME_SPEC (u8 (fid f)).

(** The value of a field decoded on its own bytes alone. *)
Definition field_value (f : field) : option value :=
  match BTHOME_SPEC (u8 (fid f)) with
  | Some spec =>
      match decode_value spec (payload f) 0 with
      | Ok (v, _) => Some v
      | Throw _ => None
      end
  | None => None
  end.

(** One iteration of the loop on a complete field, as a function of the
    field alone. *)
Definition step_field (st : Loop.state) (f : field) : Loop.state :=
  match BTHOME_SPEC (u8 (fid f)), field_value f with
  | Some spec, Some v =>
      let ids := (Loop.ids st ++ [u8 (fid f)])%list in
      {| Loop.offset := Loop.offset st + S (length (payload f));
         Loop.ids := ids;
         Loop.readings := store spec (u8 (fid f)) ids (Loop.readings st) v;
         Loop.unknown := Loop.unknown st |}
  | _, _ => st
  end.

(** A block of the manufacturer data: type byte and payload. *)
Record block := { btype : byte; bdata : Buffer }.

Definition encode_block (b : block) : Buffer := btype b :: bdata b.

Definition known_block_type (t : Z) : Prop := t = 0x01 \/ t = 0x0b \/ t = 0x0a.

Definition complete_block (b : block) : Prop :=
  (u8 (btype b) = 0x01 /\ length (bdata b) = 2%nat) \/
  (u8 (btype b) = 0x0b /\ length (bdata b) = 2%nat) \/
  (u8 (btype b) = 0x0a /\ length (bdata b) = 6%nat).

Definition encode_blocks (bs : list block) : Buffer := concat (map encode_block bs).

Definition shelly_init : ShellyManufacturerData :=
  {| companyId := 0x0ba9; flags := None; modelId := None;
     modelIdShortName := None; modelIdLongName := None; mac := None |}.

Open Scope list_scope.

(** ** Notions used in the statements *)

(** The custom parsers of the table, each with the width its entry declares. *)
Inductive table_parser : (Buffer -> nat -> outcome value) -> option nat -> Prop :=
| tp_text : table_parser parse_text None
| tp_raw : table_parser parse_raw None
| tp_button : table_parser parse_button (Some 1%nat)
| tp_dimmer : table_parser parse_dimmer (Some 2%nat)
| tp_timestamp : table_parser parse_timestamp (Some 4%nat)
| tp_firmwareVersion : table_parser parse_firmwareVersion (Some 4%nat)
| tp_firmwareVersionShort : table_parser parse_firmwareVersionShort (Some 3%nat).

(** The two kinds of entry of the table: numeric ones, whose scale gives
    [toFixed] a number of digits it accepts, and the ones with a custom
    parser. *)
Inductive shape : BTHomeSpecEntry -> Prop :=
| shape_numeric nm w sg f d :
    (1 <= w <= 6)%nat -> fraction_digits (binary64 f) = Some d -> 0 <= d <= 100 ->
    shape (numeric nm w sg f)
| shape_custom nm w p :
    table_parser p w -> shape (custom nm w p).

(** A decoded value with its end offset moved by [off]. *)
Definition shift (off : nat) (r : value * nat) : value * nat := (fst r, (off + snd r)%nat).

(** The state after the loop has gone through a list of complete fields. *)
Definition loop_init : Loop.state :=
  {| Loop.offset := 1; Loop.ids := []; Loop.readings := ∅; Loop.unknown := [] |}.

(** The loop state after a list of complete fields. *)
Definition run_fields (st : Loop.state) (fs : list field) : Loop.state :=
  foldl step_field st fs.

(** The result record for header byte [h], as lines 53-55 compute it. *)
Definition header_result (h : byte) (rd : gmap string value) (unk : list string)
  : DecodedBTHome :=
  {| version := Z.land (Z.shiftr (u8 h) 5) 7;
     encrypted := Boolean (Z.land (u8 h) 1);
     trigger := Boolean (Z.land (u8 h) 4);
     readings := rd; unknown := unk |}.

(** Bits 5 to 7 of the header byte, as a number. *)
Definition bits_5_7 (h : byte) : Z :=
  Z.b2z (Z.testbit (u8 h) 5) + 2 * Z.b2z (Z.testbit (u8 h) 6)
  + 4 * Z.b2z (Z.testbit (u8 h) 7).

(** The string has no colon. *)
Fixpoint colon_free (s : string) : bool :=
  match s with
  | EmptyString => true
  | String c rest => negb (Ascii.eqb c ":") && colon_free rest
  end.

(** The object ids of the fields of [fs] whose descriptor is named [nm],
    in the order of the fields. *)
Definition ids_named (nm : string) (fs : list field) : list byte :=
  fid <$> filter (fun g => field_name g = Some nm) fs.

(** [key] is one of the keys a field named [nm] is stored under. *)
Definition own_key (nm key : string) : Prop :=
  key = nm \/ exists s, key = (nm ++ ":" ++ s)%string.

(** The payload read as a little-endian integer, two's complement when
    the descriptor is signed. *)
Definition raw_integer (signed : bool) (payload : Buffer) : Z :=
  let u := le_value payload in
  let width := 8 * Z.of_nat (length payload) in
  if signed && (2 ^ (width - 1) <=? u) then u - 2 ^ width else u.


(** The fields a complete block adds to the result, from the block alone. *)
Definition apply_block (result : ShellyManufacturerData) (b : block) : ShellyManufacturerData :=
  match parse_block (encode_block b) 0 result with
  | Ok (_, result') => result'
  | Throw _ => result
  end.

(** The result after a list of complete blocks. *)
Definition run_blocks (result : ShellyManufacturerData) (bs : list block)
  : ShellyManufacturerData :=
  foldl apply_block result bs.

(** The keys a descriptor called [nm] is stored under: the name, or the
    name with [:] and a count of 1 or more. *)
Definition key_of (nm key : string) : Prop :=
  key = nm \/ exists n : nat, (1 <= n)%nat /\ key = (nm ++ ":" ++ show (Z.of_nat n))%string.

(** What holds of every entry of the readings while the loop runs on
    [buf]: the value is not a boolean, and the key is a key of the
    descriptor of some id byte of the buffer after the header. *)
Definition readings_from (buf : Buffer) (rd : gmap string value) : Prop :=
  forall key v, rd !! key = Some v ->
    (forall b, v <> VBool b)
    /\ exists k id spec,
         (1 <= k)%nat /\ buf !! k = Some id /\ BTHOME_SPEC (u8 id) = Some spec
         /\ key_of (name spec) key.

(** What every result of the manufacturer-data loop satisfies: the
    company id is the constant, and the two model names are the table
    lookups of the model id that the result holds. *)
Definition consistent (r : ShellyManufacturerData) : Prop :=
  companyId r = 0x0ba9
  /\ modelIdShortName r = modelId r ≫= getShellyBluShortName
  /\ modelIdLongName r = modelId r ≫= getShellyBluLongName.

(** The string is made of decimal digits only. *)
Fixpoint all_digits (s : string) : bool :=
  match s with
  | EmptyString => true
  | String c rest =>
      (48 <=? Z.of_nat (nat_of_ascii c)) && (Z.of_nat (nat_of_ascii c) <=? 57)
      && all_digits rest
  end.

(** * Properties *)

#[global] Arguments toFixed : simpl never.
#[global] Arguments parseFloat : simpl never.
#[global] Arguments fraction_digits : simpl never.
#[global] Arguments binary64 : simpl never.
#[global] Arguments toISOString : simpl never.
#[global] Arguments toString_radix : simpl never.
#[global] Arguments toString_hex : simpl never.
#[global] Arguments toString_utf8 : simpl never.
#[global] Arguments show : simpl never.
#[global] Arguments show_elem : simpl never.
#[global] Arguments le_value : simpl never.

(** ** Buffer reads *)

Lemma u8_range b : 0 <= u8 b < 256.
Proof.
  unfold u8. pose proof (Byte.to_N_bounded b). lia.
Qed.

Lemma readUInt8_drop buf off k :
  readUInt8 buf (off + k) = readUInt8 (drop off buf) k.
Proof. unfold readUInt8. by rewrite lookup_drop. Qed.

Lemma slice_drop buf off a b :
  slice buf (off + a) (off + b) = slice (drop off buf) a b.
Proof.
  unfold slice. rewrite drop_drop. f_equal. lia.
Qed.

Lemma readUIntLE_drop buf off k n :
  readUIntLE buf (off + k) n = readUIntLE (drop off buf) k n.
Proof.
  unfold readUIntLE. destruct (decide (1 <= n <= 6)%nat); [|done].
  rewrite length_drop.
  replace (off + k + n)%nat with (off + (k + n))%nat by lia.
  rewrite slice_drop.
  destruct (decide (off + (k + n) <= length buf)%nat),
           (decide (k + n <= length buf - off)%nat); try done; lia.
Qed.

Lemma readIntLE_drop buf off k n :
  readIntLE buf (off + k) n = readIntLE (drop off buf) k n.
Proof. unfold readIntLE. by rewrite readUIntLE_drop. Qed.

Lemma prefixed_slice_drop buf off :
  slice buf (off + 1) (prefixed_end buf off)
  = slice (drop off buf) 1 (prefixed_end (drop off buf) 0).
Proof.
  unfold prefixed_end. rewrite lookup_drop, Nat.add_0_r.
  destruct (buf !! off) as [len|].
  - replace (off + 1 + Z.to_nat (u8 len))%nat with (off + (1 + Z.to_nat (u8 len)))%nat by lia.
    by rewrite slice_drop.
  - unfold slice. by rewrite !Nat.sub_0_l.
Qed.

(** ** The entries of the table *)

Lemma table_lookup_Forall (P : BTHomeSpecEntry -> Prop) entries :
  Forall (fun p => P (snd p)) entries ->
  forall id spec, table_lookup entries id = Some spec -> P spec.
Proof.
  induction 1 as [|[k e] rest HP _ IH]; intros id spec; simpl; [done|].
  destruct (k =? id); [|by apply IH].
  intros [= <-]. exact HP.
Qed.

Lemma BTHOME_SPEC_shape id spec : BTHOME_SPEC id = Some spec -> shape spec.
Proof.
  apply table_lookup_Forall.
  repeat (apply Forall_cons; split;
          [ first [ eapply shape_numeric; [simpl; lia | vm_compute; reflexivity | lia]
                  | apply shape_custom; constructor ] | ]).
  constructor.
Qed.

(** Every entry without a custom parser declares a width, so the throw
    of line 90 of the decoder is never reached. *)
Lemma BTHOME_SPEC_bytes id spec :
  BTHOME_SPEC id = Some spec -> parser spec = None -> is_Some (bytes spec).
Proof.
  intros H%BTHOME_SPEC_shape Hp. destruct H; simpl in *; [eauto | done].
Qed.

(** ** Locality of the value decoding *)

Lemma readUInt8_drop0 buf off : readUInt8 buf off = readUInt8 (drop off buf) 0.
Proof. by rewrite <- readUInt8_drop, Nat.add_0_r. Qed.

Lemma readUIntLE_drop0 buf off n : readUIntLE buf off n = readUIntLE (drop off buf) 0 n.
Proof. by rewrite <- readUIntLE_drop, Nat.add_0_r. Qed.

Lemma readIntLE_drop0 buf off n : readIntLE buf off n = readIntLE (drop off buf) 0 n.
Proof. by rewrite <- readIntLE_drop, Nat.add_0_r. Qed.

Lemma slice_drop0 buf off n : slice buf off (off + n) = slice (drop off buf) 0 n.
Proof. by rewrite <- slice_drop, Nat.add_0_r. Qed.

Lemma decode_value_drop spec buf off :
  shape spec ->
  decode_value spec buf off = shift off <$> decode_value spec (drop off buf) 0.
Proof.
  intros Hs. destruct Hs as [nm w sg f d Hw Hd Hr | nm w p Hp].
  - unfold decode_value; simpl.
    rewrite (readIntLE_drop0 buf), (readUIntLE_drop0 buf).
    destruct (if sg then _ else _) as [raw|e]; simpl; [|done].
    destruct (toFixed _ _); simpl; [|done].
    done.
  - destruct Hp; unfold decode_value; simpl.
    + unfold parse_text; simpl.
      rewrite (readUInt8_drop0 buf), prefixed_slice_drop.
      by destruct (readUInt8 _ _).
    + unfold parse_raw; simpl.
      rewrite (readUInt8_drop0 buf), prefixed_slice_drop.
      by destruct (readUInt8 _ _).
    + unfold parse_button.
      rewrite (readUInt8_drop0 buf).
      by destruct (readUInt8 _ _).
    + unfold parse_dimmer.
      rewrite (readUInt8_drop0 buf off), readUInt8_drop.
      destruct (readUInt8 _ 0); [|done]; simpl.
      by destruct (readUInt8 _ _).
    + unfold parse_timestamp, readUInt32LE.
      rewrite (readUIntLE_drop0 buf).
      destruct (readUIntLE _ _ _); [|done]; simpl.
      by destruct (toISOString _).
    + unfold parse_firmwareVersion. by rewrite !slice_drop0.
    + unfold parse_firmwareVersionShort. by rewrite !slice_drop0.
Qed.

Lemma le_value_range bs : 0 <= le_value bs < 256 ^ Z.of_nat (length bs).
Proof.
  induction bs as [|b bs IH]; [unfold le_value; simpl; lia|].
  change (le_value (b :: bs)) with (u8 b + 256 * le_value bs).
  cbn [length]. rewrite Nat2Z.inj_succ, Z.pow_succ_r by lia.
  pose proof (u8_range b). lia.
Qed.

Lemma readUInt8_throws buf off e : readUInt8 buf off = Throw e -> e = RangeError_bounds.
Proof. unfold readUInt8. destruct (buf !! off); congruence. Qed.

Lemma readUIntLE_throws buf off n e : readUIntLE buf off n = Throw e -> e = RangeError_bounds.
Proof. unfold readUIntLE. repeat case_decide; congruence. Qed.

Lemma readIntLE_throws buf off n e : readIntLE buf off n = Throw e -> e = RangeError_bounds.
Proof.
  unfold readIntLE. destruct (readUIntLE buf off n) eqn:H; simpl; [done|].
  intros [= <-]. by apply readUIntLE_throws in H.
Qed.

Lemma readUIntLE_range buf off n raw :
  readUIntLE buf off n = Ok raw -> 0 <= raw < 256 ^ Z.of_nat n.
Proof.
  unfold readUIntLE. repeat case_decide; try done. intros [= <-].
  pose proof (le_value_range (slice buf off (off + n))) as Hr.
  replace (length (slice buf off (off + n))) with n in Hr; [done|].
  unfold slice. rewrite length_take, length_drop. lia.
Qed.

Lemma readUIntLE_app payload suf :
  (1 <= length payload <= 6)%nat ->
  readUIntLE (payload ++ suf) 0 (length payload) = Ok (le_value payload).
Proof.
  intros Hw. unfold readUIntLE.
  rewrite decide_True by done.
  rewrite decide_True by (rewrite length_app; lia).
  unfold slice. by rewrite Nat.add_0_l, Nat.sub_0_r, drop_0, take_app_length.
Qed.

Lemma toFixed_returns x d :
  0 <= d <= 100 -> exists s, toFixed x (Some d) = Ok s.
Proof.
  intros Hd. unfold toFixed.
  replace ((d <? 0) || (100 <? d)) with false by (symmetry; apply orb_false_iff; lia).
  eauto.
Qed.

Lemma toISOString_returns seconds :
  0 <= seconds < 256 ^ 4 -> exists s, toISOString (seconds * 1000) = Ok s.
Proof.
  intros Hs. unfold toISOString.
  replace (8640000000000000 <? Z.abs (seconds * 1000)) with false by (symmetry; lia).
  destruct (civil_from_days _) as [[y m] d]. eauto.
Qed.

(** Whatever the buffer, decoding a value only ever throws the
    RangeError of a Buffer read. *)
Lemma decode_value_throws spec buf off e :
  shape spec -> decode_value spec buf off = Throw e -> e = RangeError_bounds.
Proof.
  intros Hs. destruct Hs as [nm w sg f d Hw Hd Hr | nm w p Hp].
  - unfold decode_value; simpl.
    destruct (if sg then _ else _) as [raw|e'] eqn:Hraw; simpl.
    + rewrite Hd. destruct (toFixed_returns (binary64 (inject_Z raw * binary64 f)) d Hr) as [s ->].
      done.
    + intros [= <-]. destruct sg; eauto using readIntLE_throws, readUIntLE_throws.
  - destruct Hp; unfold decode_value; simpl.
    + destruct (readUInt8 buf off) eqn:H; simpl; [done|].
      intros [= <-]. eauto using readUInt8_throws.
    + destruct (readUInt8 buf off) eqn:H; simpl; [done|].
      intros [= <-]. eauto using readUInt8_throws.
    + unfold parse_button. destruct (readUInt8 buf off) eqn:H; simpl; [done|].
      intros [= <-]. eauto using readUInt8_throws.
    + unfold parse_dimmer. destruct (readUInt8 buf off) eqn:H; simpl.
      * destruct (readUInt8 buf (off + 1)) eqn:H'; simpl; [done|].
        intros [= <-]. eauto using readUInt8_throws.
      * intros [= <-]. eauto using readUInt8_throws.
    + unfold parse_timestamp, readUInt32LE.
      destruct (readUIntLE buf off 4) as [seconds|e'] eqn:H; simpl.
      * apply readUIntLE_range in H.
        destruct (toISOString_returns seconds H) as [s ->]. done.
      * intros [= <-]. eauto using readUIntLE_throws.
    + done.
    + done.
Qed.

(** The offset never moves backwards. *)
Lemma decode_value_progress spec buf off v off' :
  shape spec -> decode_value spec buf off = Ok (v, off') -> (off <= off')%nat.
Proof.
  intros Hs. rewrite (decode_value_drop _ _ _ Hs).
  destruct (decode_value spec (drop off buf) 0) as [[v0 o]|]; simpl; [|done].
  unfold shift; simpl. intros [= _ <-]. lia.
Qed.

(** On a complete payload the value is decoded from the payload alone,
    whatever follows it, and the offset advances to its end. *)
Lemma decode_value_complete spec payload suf :
  shape spec -> complete spec payload ->
  exists v, decode_value spec payload 0 = Ok (v, length payload)
            /\ decode_value spec (payload ++ suf) 0 = Ok (v, length payload).
Proof.
  intros Hs. destruct Hs as [nm w sg f d Hw Hd Hr | nm w p Hp]; unfold complete; simpl.
  - intros <-. unfold decode_value; simpl. unfold readIntLE.
    rewrite (readUIntLE_app payload suf Hw).
    pose proof (readUIntLE_app payload [] Hw) as H0. rewrite app_nil_r in H0.
    rewrite H0, Hd.
    destruct sg; simpl;
      match goal with |- context [toFixed ?x (Some d)] =>
        destruct (toFixed_returns x d Hr) as [s ->] end; simpl; eauto.
  - destruct Hp; simpl.
    + destruct payload as [|len data]; [done|]. intros Hlen.
      unfold decode_value, parse_text, prefixed_end, slice; simpl.
      rewrite Nat.sub_0_r, !drop_0, <- Hlen, take_app_length, firstn_all. eauto.
    + destruct payload as [|len data]; [done|]. intros Hlen.
      unfold decode_value, parse_raw, prefixed_end, slice; simpl.
      rewrite Nat.sub_0_r, !drop_0, <- Hlen, take_app_length, firstn_all. eauto.
    + destruct payload as [|a [|]]; try done. intros _.
      unfold decode_value; simpl. eauto.
    + destruct payload as [|a [|b [|]]]; try done. intros _.
      unfold decode_value; simpl. eauto.
    + destruct payload as [|a [|b [|c [|d [|]]]]]; try done. intros _.
      unfold decode_value; cbn [custom parser bytes].
      unfold parse_timestamp, readUInt32LE.
      pose proof (readUIntLE_app [a; b; c; d] suf) as H1.
      pose proof (readUIntLE_app [a; b; c; d] []) as H0.
      rewrite app_nil_r in H0. cbn [length] in H0, H1. rewrite H0, H1 by lia. simpl.
      destruct (toISOString_returns (le_value [a; b; c; d])) as [s Hs].
      { apply (le_value_range [a; b; c; d]). }
      rewrite Hs. simpl. eauto.
    + destruct payload as [|a [|b [|c [|d [|]]]]]; try done. intros _.
      unfold decode_value; simpl. eauto.
    + destruct payload as [|a [|b [|c [|]]]]; try done. intros _.
      unfold decode_value; simpl. eauto.
Qed.

(** ** The decoding loop *)

Lemma iteration_progress buf st c st' :
  iteration buf st = Ok (c, st') -> (Loop.offset st < Loop.offset st')%nat.
Proof.
  unfold iteration. destruct (readUInt8 buf (Loop.offset st)) as [id|]; simpl; [|done].
  destruct (BTHOME_SPEC id) as [spec|] eqn:Hspec.
  - destruct (decode_value spec buf (S (Loop.offset st))) as [[v off']|] eqn:Hv; simpl; [|done].
    intros [= _ <-]; simpl.
    apply decode_value_progress in Hv; [lia | eauto using BTHOME_SPEC_shape].
  - intros [= _ <-]; simpl. lia.
Qed.

Lemma iteration_throws buf st e :
  iteration buf st = Throw e -> e = RangeError_bounds.
Proof.
  unfold iteration. destruct (readUInt8 buf (Loop.offset st)) as [id|] eqn:Hid; simpl.
  - destruct (BTHOME_SPEC id) as [spec|] eqn:Hspec; [|done].
    destruct (decode_value spec buf (S (Loop.offset st))) as [[v off']|] eqn:Hv; simpl; [done|].
    intros [= <-]. eauto using decode_value_throws, BTHOME_SPEC_shape.
  - intros [= <-]. eauto using readUInt8_throws.
Qed.

(** The fuel [length buf] is never used up. *)
Lemma decode_loop_fuel fuel fuel' buf st :
  (length buf - Loop.offset st <= fuel)%nat ->
  (length buf - Loop.offset st <= fuel')%nat ->
  decode_loop fuel buf st = decode_loop fuel' buf st.
Proof.
  revert fuel' st. induction fuel as [|fuel IH]; intros fuel' st Hf Hf'.
  - destruct fuel'; simpl; case_decide; try done; lia.
  - destruct fuel' as [|fuel']; simpl; case_decide; try done; try lia.
    destruct (iteration buf st) as [[c st']|] eqn:Hit; simpl; [|done].
    destruct c; [|done].
    apply iteration_progress in Hit. apply IH; lia.
Qed.

Lemma decode_loop_S fuel buf st :
  decode_loop (S fuel) buf st =
    if decide (Loop.offset st < length buf)%nat then
      '(continue, st') ← iteration buf st;
      if continue : bool then decode_loop fuel buf st' else mret st'
    else mret st.
Proof. reflexivity. Qed.

Lemma decode_loop_unfold fuel buf st :
  (length buf - Loop.offset st <= fuel)%nat ->
  decode_loop fuel buf st =
    if decide (Loop.offset st < length buf)%nat then
      '(continue, st') ← iteration buf st;
      if continue : bool then decode_loop fuel buf st' else mret st'
    else mret st.
Proof.
  intros Hf. rewrite (decode_loop_fuel fuel (S fuel)) by lia.
  rewrite decode_loop_S. case_decide; [|done].
  destruct (iteration buf st) as [[c st']|] eqn:Hit; simpl; [|done].
  destruct c; [|done].
  apply iteration_progress in Hit. apply decode_loop_fuel; lia.
Qed.

Lemma decode_loop_throws fuel buf st e :
  (length buf - Loop.offset st <= fuel)%nat ->
  decode_loop fuel buf st = Throw e -> e = RangeError_bounds.
Proof.
  revert st. induction fuel as [|fuel IH]; intros st Hf; simpl; case_decide; try done; try lia.
  destruct (iteration buf st) as [[c st']|] eqn:Hit; simpl.
  - destruct c; [|done]. apply iteration_progress in Hit. apply IH. lia.
  - intros [= <-]. eauto using iteration_throws.
Qed.

(** The loop on a buffer with another first byte: nothing at an offset
    of 1 or more reads byte 0. *)
Lemma iteration_header h h' rest st :
  (1 <= Loop.offset st)%nat ->
  iteration (h :: rest) st = iteration (h' :: rest) st.
Proof.
  intros Ho. unfold iteration.
  destruct (Loop.offset st) as [|o] eqn:Heq; [lia|].
  rewrite (readUInt8_drop0 (h :: rest)), (readUInt8_drop0 (h' :: rest)); simpl.
  destruct (readUInt8 (drop o rest) 0) as [id|]; simpl; [|done].
  destruct (BTHOME_SPEC id) as [spec|] eqn:Hspec.
  - apply BTHOME_SPEC_shape in Hspec.
    rewrite (decode_value_drop spec (h :: rest)), (decode_value_drop spec (h' :: rest)) by done.
    done.
  - unfold slice_from. simpl. done.
Qed.

Lemma decode_loop_header fuel h h' rest st :
  (1 <= Loop.offset st)%nat ->
  decode_loop fuel (h :: rest) st = decode_loop fuel (h' :: rest) st.
Proof.
  revert st. induction fuel as [|fuel IH]; intros st Ho; simpl; [done|].
  rewrite (iteration_header h h') by done.
  case_decide; [|done].
  destruct (iteration (h' :: rest) st) as [[c st']|] eqn:Hit; simpl; [|done].
  destruct c; [|done].
  apply iteration_progress in Hit. apply IH. lia.
Qed.

(** ** The loop on complete fields *)

Lemma well_formed_spec f :
  well_formed f ->
  exists spec v, BTHOME_SPEC (u8 (fid f)) = Some spec
                 /\ complete spec (payload f)
                 /\ field_value f = Some v
                 /\ forall suf, decode_value spec (payload f ++ suf) 0
                                = Ok (v, length (payload f)).
Proof.
  unfold well_formed, field_value.
  destruct (BTHOME_SPEC (u8 (fid f))) as [spec|] eqn:Hspec; [|done].
  intros Hc. pose proof (BTHOME_SPEC_shape _ _ Hspec) as Hs.
  destruct (decode_value_complete spec (payload f) [] Hs Hc) as (v & Hv & _).
  exists spec, v. rewrite Hv. repeat split; try done.
  intros suf. destruct (decode_value_complete spec (payload f) suf Hs Hc) as (v' & Hv' & ->).
  congruence.
Qed.

Lemma step_field_offset st f :
  well_formed f ->
  Loop.offset (step_field st f) = (Loop.offset st + length (encode f))%nat.
Proof.
  intros (spec & v & Hspec & _ & Hv & _)%well_formed_spec.
  unfold step_field. by rewrite Hspec, Hv.
Qed.

Lemma step_field_unknown st f : Loop.unknown (step_field st f) = Loop.unknown st.
Proof.
  unfold step_field. destruct (BTHOME_SPEC _); [|done]. by destruct (field_value f).
Qed.

Lemma iteration_field pre f suf st :
  well_formed f -> Loop.offset st = length pre ->
  iteration (pre ++ encode f ++ suf) st = Ok (true, step_field st f).
Proof.
  intros (spec & v & Hspec & _ & Hv & Hdec)%well_formed_spec Hoff.
  unfold iteration, step_field. rewrite Hoff, Hspec, Hv.
  rewrite readUInt8_drop0, drop_app_length. simpl. rewrite Hspec.
  rewrite (decode_value_drop spec) by eauto using BTHOME_SPEC_shape.
  replace (drop (S (length pre)) (pre ++ fid f :: payload f ++ suf)) with (payload f ++ suf).
  2:{ change (S (length pre)) with (1 + length pre)%nat.
      by rewrite Nat.add_comm, <- drop_drop, drop_app_length. }
  rewrite Hdec. simpl. unfold shift; simpl.
  by rewrite Nat.add_succ_r.
Qed.

Lemma run_fields_offset st fs :
  Forall well_formed fs ->
  Loop.offset (run_fields st fs) = (Loop.offset st + length (encode_all fs))%nat.
Proof.
  intros Hfs. revert st. induction Hfs as [|f fs Hf _ IH]; intros st; simpl.
  - unfold encode_all; simpl. lia.
  - unfold run_fields in *; simpl. rewrite IH, (step_field_offset _ _ Hf).
    unfold encode_all; simpl. rewrite length_app. simpl. lia.
Qed.

Lemma run_fields_unknown st fs : Loop.unknown (run_fields st fs) = Loop.unknown st.
Proof.
  revert st. induction fs as [|f fs IH]; intros st; [done|].
  unfold run_fields in *; simpl. by rewrite IH, step_field_unknown.
Qed.

Lemma decode_loop_fields fuel pre fs suf st :
  Forall well_formed fs -> Loop.offset st = length pre ->
  (length (pre ++ encode_all fs ++ suf) - Loop.offset st <= fuel)%nat ->
  decode_loop fuel (pre ++ encode_all fs ++ suf) st
  = decode_loop fuel (pre ++ encode_all fs ++ suf) (run_fields st fs).
Proof.
  intros Hfs. revert pre st.
  induction Hfs as [|f fs Hf Hfs IH]; intros pre st Hoff Hfuel; [done|].
  rewrite decode_loop_unfold by done.
  rewrite decide_True.
  2:{ rewrite Hoff, !length_app. unfold encode_all; simpl. lia. }
  assert (encode_all (f :: fs) = encode f ++ encode_all fs) as Henc by done.
  rewrite Henc in *. rewrite <- (app_assoc (encode f)).
  rewrite (iteration_field pre f (encode_all fs ++ suf) st Hf Hoff).
  cbv beta iota delta [mbind outcome_bind].
  rewrite (app_assoc pre (encode f)).
  apply (IH (pre ++ encode f)).
  - rewrite (step_field_offset _ _ Hf), length_app. lia.
  - rewrite (step_field_offset _ _ Hf).
    rewrite <- !app_assoc in Hfuel. rewrite <- !app_assoc. lia.
Qed.

Lemma decode_loop_end fuel buf st :
  Loop.offset st = length buf -> decode_loop fuel buf st = Ok st.
Proof. intros Ho. destruct fuel; simpl; case_decide; try done; lia. Qed.

Lemma iteration_unknown pre id rest st :
  BTHOME_SPEC (u8 id) = None -> Loop.offset st = length pre ->
  iteration (pre ++ id :: rest) st
  = Ok (false, {| Loop.offset := S (Loop.offset st);
                  Loop.ids := Loop.ids st ++ [u8 id];
                  Loop.readings := Loop.readings st;
                  Loop.unknown := Loop.unknown st ++ [unknown_entry (u8 id) (id :: rest)] |}).
Proof.
  intros Hspec Hoff. unfold iteration.
  rewrite Hoff, readUInt8_drop0, drop_app_length. simpl. rewrite Hspec. simpl.
  unfold slice_from. by rewrite Nat.sub_0_r, drop_app_length.
Qed.

Lemma decodeBTHome_cons h rest :
  decodeBTHome (h :: rest)
  = st ← decode_loop (length (h :: rest)) (h :: rest) loop_init;
    mret (header_result h (Loop.readings st) (Loop.unknown st)).
Proof. reflexivity. Qed.

Lemma decodeBTHome_stream h fs suf :
  Forall well_formed fs ->
  decodeBTHome (h :: encode_all fs ++ suf)
  = st ← decode_loop (length (h :: encode_all fs ++ suf)) (h :: encode_all fs ++ suf)
           (run_fields loop_init fs);
    mret (header_result h (Loop.readings st) (Loop.unknown st)).
Proof.
  intros Hfs. rewrite decodeBTHome_cons. f_equal.
  apply (decode_loop_fields _ [h] fs suf loop_init Hfs); [done|].
  simpl. lia.
Qed.

(** A buffer of complete fields decodes to the readings of its fields. *)
Lemma decodeBTHome_fields h fs :
  Forall well_formed fs ->
  decodeBTHome (h :: encode_all fs)
  = Ok (header_result h (Loop.readings (run_fields loop_init fs)) []).
Proof.
  intros Hfs. pose proof (decodeBTHome_stream h fs [] Hfs) as H.
  rewrite app_nil_r in H. rewrite H, decode_loop_end.
  - cbn [mbind outcome_bind mret outcome_ret]. by rewrite run_fields_unknown.
  - rewrite (run_fields_offset _ _ Hfs). simpl. lia.
Qed.

(** The same followed by an id that is not in the table. *)
Lemma decodeBTHome_fields_unknown h fs id rest :
  Forall well_formed fs -> BTHOME_SPEC (u8 id) = None ->
  decodeBTHome (h :: encode_all fs ++ id :: rest)
  = Ok (header_result h (Loop.readings (run_fields loop_init fs))
          [unknown_entry (u8 id) (id :: rest)]).
Proof.
  intros Hfs Hid. rewrite (decodeBTHome_stream h fs _ Hfs).
  assert (Loop.offset (run_fields loop_init fs) = length (h :: encode_all fs)) as Hoff.
  { rewrite (run_fields_offset _ _ Hfs). simpl. lia. }
  rewrite decode_loop_unfold by lia.
  rewrite decide_True.
  2:{ rewrite Hoff. cbn [length]. rewrite length_app. cbn [length]. lia. }
  rewrite (app_comm_cons (encode_all fs)).
  rewrite (iteration_unknown (h :: encode_all fs) id rest _ Hid Hoff).
  cbn [mbind outcome_bind mret outcome_ret Loop.readings Loop.unknown].
  by rewrite run_fields_unknown.
Qed.

(** ** The header byte *)

Lemma header_result_bits h rd unk :
  header_result h rd unk
  = {| version := bits_5_7 h; encrypted := Z.testbit (u8 h) 0;
       trigger := Z.testbit (u8 h) 2; readings := rd; unknown := unk |}.
Proof. unfold header_result, bits_5_7. destruct h; reflexivity. Qed.

(** C6: on a buffer of a header byte, complete fields and then nothing
    or an unknown id, [decodeBTHome] returns a result whose [version] is
    bits 5-7 of the header byte, whose [encrypted] is its bit 0 and whose
    [trigger] is its bit 2.  Whatever follows the header byte, a result
    that is returned has those three values, and the header byte
    contributes nothing else: the result for a header [h] is the result
    for any other header [h'] on the same bytes with those three fields
    replaced (a throw stays a throw). *)
Theorem decodeBTHome_header h fs tail :
  Forall well_formed fs ->
  (tail = [] \/ exists id rest, tail = id :: rest /\ BTHOME_SPEC (u8 id) = None) ->
  (exists r,
      decodeBTHome (h :: encode_all fs ++ tail) = Ok r
      /\ version r = bits_5_7 h
      /\ encrypted r = Z.testbit (u8 h) 0
      /\ trigger r = Z.testbit (u8 h) 2)
  /\ (forall rest r,
        decodeBTHome (h :: rest) = Ok r ->
        version r = bits_5_7 h
        /\ encrypted r = Z.testbit (u8 h) 0
        /\ trigger r = Z.testbit (u8 h) 2)
  /\ (forall h' rest,
        decodeBTHome (h :: rest)
        = (fun r => {| version := bits_5_7 h;
                       encrypted := Z.testbit (u8 h) 0;
                       trigger := Z.testbit (u8 h) 2;
                       readings := readings r;
                       unknown := unknown r |}) <$> decodeBTHome (h' :: rest)).
Proof.
  intros Hfs Htail. split; [|split].
  - destruct Htail as [-> | (id & rest & -> & Hid)].
    + rewrite app_nil_r, (decodeBTHome_fields h fs Hfs), header_result_bits. eauto.
    + rewrite (decodeBTHome_fields_unknown h fs id rest Hfs Hid), header_result_bits. eauto.
  - intros rest r. rewrite decodeBTHome_cons.
    destruct (decode_loop _ _ _) as [st|]; simpl; [|done].
    rewrite header_result_bits. by intros [= <-].
  - intros h' rest. rewrite !decodeBTHome_cons.
    change (length (h :: rest)) with (length (h' :: rest)).
    rewrite (decode_loop_header _ h h') by (simpl; lia).
    destruct (decode_loop _ _ _) as [st|]; simpl; [|done].
    by rewrite header_result_bits.
Qed.

Lemma decodeBTHome_header_witness :
  Forall well_formed [{| fid := x01; payload := [x64] |}]
  /\ (@nil byte = [] \/ exists id rest, @nil byte = id :: rest /\ BTHOME_SPEC (u8 id) = None)
  /\ bits_5_7 x45 = 2 /\ Z.testbit (u8 x45) 0 = true /\ Z.testbit (u8 x45) 2 = true
  /\ exists r,
       decodeBTHome (x45 :: encode_all [{| fid := x01; payload := [x64] |}] ++ []) = Ok r
       /\ version r = bits_5_7 x45
       /\ encrypted r = Z.testbit (u8 x45) 0
       /\ trigger r = Z.testbit (u8 x45) 2.
Proof.
  assert (Forall well_formed [{| fid := x01; payload := [x64] |}]) as Hfs.
  { apply Forall_cons_2; [reflexivity | apply Forall_nil_2]. }
  assert (@nil byte = []
          \/ exists id rest, @nil byte = id :: rest /\ BTHOME_SPEC (u8 id) = None) as Htail
    by (left; reflexivity).
  split; [exact Hfs|]. split; [exact Htail|].
  split; [reflexivity|]. split; [reflexivity|]. split; [reflexivity|].
  exact (proj1 (decodeBTHome_header x45 _ [] Hfs Htail)).
Defined.

(** C10: on the empty buffer the header read throws; on a buffer of one
    byte or more the header read returns byte 0, and a buffer of the
    header byte alone decodes to a result without readings. *)
Theorem decodeBTHome_empty_buffer :
  decodeBTHome [] = Throw RangeError_bounds
  /\ (forall h rest, readUInt8 (h :: rest) 0 = Ok (u8 h))
  /\ (forall h, decodeBTHome [h] = Ok (header_result h ∅ [])).
Proof.
  split; [reflexivity|]. split; [reflexivity|].
  intros h. exact (decodeBTHome_fields h [] (Forall_nil_2 _)).
Qed.

(** ** Unknown ids and truncated fields *)

(** C4: when the loop, after any number of complete fields, meets an id
    that is not in the table, it stops there: the readings are those of
    the fields before it, and the unknown list holds the one entry made
    of the id and the hex dump of the id byte and everything after it.
    With no field before it the readings are empty. *)
Theorem decodeBTHome_unknown_id h fs id rest :
  Forall well_formed fs -> BTHOME_SPEC (u8 id) = None ->
  exists r0,
    decodeBTHome (h :: encode_all fs) = Ok r0
    /\ unknown r0 = []
    /\ decodeBTHome (h :: encode_all fs ++ id :: rest)
       = Ok {| version := version r0; encrypted := encrypted r0; trigger := trigger r0;
               readings := readings r0;
               unknown := [("0x" ++ toString_radix 16 (u8 id) ++ " → 0x"
                            ++ toString_hex (id :: rest))%string] |}
    /\ (fs = [] -> readings r0 = ∅).
Proof.
  intros Hfs Hid. eexists. split; [by apply decodeBTHome_fields|].
  split; [done|]. split; [by rewrite decodeBTHome_fields_unknown|].
  by intros ->.
Qed.

Lemma decodeBTHome_unknown_id_witness :
  Forall well_formed [{| fid := x01; payload := [x64] |}]
  /\ BTHOME_SPEC (u8 x12) = None
  /\ exists r0,
      decodeBTHome (x40 :: encode_all [{| fid := x01; payload := [x64] |}]) = Ok r0
      /\ unknown r0 = []
      /\ decodeBTHome (x40 :: encode_all [{| fid := x01; payload := [x64] |}] ++ x12 :: [xab])
         = Ok {| version := version r0; encrypted := encrypted r0; trigger := trigger r0;
                 readings := readings r0;
                 unknown := [("0x" ++ toString_radix 16 (u8 x12) ++ " → 0x"
                              ++ toString_hex (x12 :: [xab]))%string] |}
      /\ ([{| fid := x01; payload := [x64] |}] = [] -> readings r0 = ∅).
Proof.
  assert (Forall well_formed [{| fid := x01; payload := [x64] |}]) as Hfs.
  { repeat constructor. }
  assert (BTHOME_SPEC (u8 x12) = None) as Hid by reflexivity.
  split; [exact Hfs|]. split; [exact Hid|].
  exact (decodeBTHome_unknown_id x40 _ x12 [xab] Hfs Hid).
Defined.

(** C1, the claim as stated fails: a buffer of three bytes whose
    temperature field (id 0x02, two bytes) has only one payload byte
    makes [readIntLE] throw. *)
Lemma decodeBTHome_truncated_throws :
  (1 <= length [x40; x02; x01])%nat
  /\ decodeBTHome [x40; x02; x01] = Throw RangeError_bounds.
Proof. split; [simpl; lia | vm_compute; reflexivity]. Qed.

Lemma decodeBTHome_throws buf e :
  decodeBTHome buf = Throw e -> e = RangeError_bounds.
Proof.
  unfold decodeBTHome.
  destruct (readUInt8 buf 0) as [info|] eqn:Hinfo; simpl.
  - destruct (decode_loop _ _ _) as [st|e'] eqn:Hloop; simpl; [done|].
    intros [= <-]. apply decode_loop_throws in Hloop; [done | simpl; lia].
  - intros [= <-]. eauto using readUInt8_throws.
Qed.

(** C1, amended: a buffer made of a header byte, complete fields and
    then either nothing or an id that is not in the table (with whatever
    follows it) decodes to a result; and whatever the buffer, the only
    exception [decodeBTHome] throws is the RangeError of a Buffer read
    past the end, never the missing-bytes error of the generic path. *)
Theorem decodeBTHome_complete_returns h fs tail :
  Forall well_formed fs ->
  (tail = [] \/ exists id rest, tail = id :: rest /\ BTHOME_SPEC (u8 id) = None) ->
  returns (decodeBTHome (h :: encode_all fs ++ tail))
  /\ (forall buf e, decodeBTHome buf = Throw e -> e = RangeError_bounds).
Proof.
  intros Hfs Htail. split; [|apply decodeBTHome_throws].
  destruct Htail as [-> | (id & rest & -> & Hid)].
  - rewrite app_nil_r, decodeBTHome_fields by done. by eexists.
  - rewrite decodeBTHome_fields_unknown by done. by eexists.
Qed.

Lemma decodeBTHome_complete_returns_witness :
  Forall well_formed [{| fid := x02; payload := [xce; xff] |};
                      {| fid := x53; payload := [x02; x68; x69] |}]
  /\ (@nil byte = [] \/ exists id rest, @nil byte = id :: rest /\ BTHOME_SPEC (u8 id) = None)
  /\ returns (decodeBTHome (x40 :: encode_all [{| fid := x02; payload := [xce; xff] |};
                                               {| fid := x53; payload := [x02; x68; x69] |}]
                            ++ []))
  /\ (forall buf e, decodeBTHome buf = Throw e -> e = RangeError_bounds).
Proof.
  assert (Forall well_formed [{| fid := x02; payload := [xce; xff] |};
                              {| fid := x53; payload := [x02; x68; x69] |}]) as Hfs.
  { repeat constructor. }
  split; [exact Hfs|]. split; [by left|].
  exact (decodeBTHome_complete_returns x40 _ [] Hfs (or_introl eq_refl)).
Defined.

(** ** Firmware versions *)

(** C2, what the code does: the three payload bytes [b0 b1 b2] of id
    0xF2 are rendered [b2.b0.b1]; payload [1, 2, 3] gives "3.1.2", not
    "3.2.1". *)
Theorem firmwareVersionShort_order h b0 b1 b2 :
  decodeBTHome [h; xf2; b0; b1; b2]
  = Ok (header_result h
          {[ "firmwareVersionShort" :=
               VStr (show (u8 b2) ++ "." ++ show (u8 b0) ++ "." ++ show (u8 b1))%string ]} [])
  /\ decodeBTHome [x40; xf2; x01; x02; x03]
     = Ok (header_result x40 {[ "firmwareVersionShort" := VStr "3.1.2" ]} []).
Proof.
  split; [|vm_compute; reflexivity].
  assert (Forall well_formed [{| fid := xf2; payload := [b0; b1; b2] |}]) as Hfs.
  { repeat constructor. }
  exact (decodeBTHome_fields h _ Hfs).
Qed.

(** ** Keys of the readings *)

Lemma colon_free_ne_suffixed a s :
  colon_free a = true -> a <> (a ++ ":" ++ s)%string.
Proof.
  induction a as [|c a IH]; simpl; [done|].
  intros [_ Ha]%andb_prop [= H]. by apply IH.
Qed.

Lemma colon_free_ne_other a b s :
  colon_free a = true -> a <> (b ++ ":" ++ s)%string.
Proof.
  revert b. induction a as [|c a IH]; intros [|c' b]; simpl; try done.
  - intros [Hc _]%andb_prop [= -> _]. done.
  - intros [_ Ha]%andb_prop [= _ H]. by apply IH in H.
Qed.

Lemma colon_prefix_inj a b s t :
  colon_free a = true -> colon_free b = true ->
  (a ++ ":" ++ s)%string = (b ++ ":" ++ t)%string -> a = b.
Proof.
  revert b. induction a as [|c a IH]; intros [|c' b]; simpl; try done.
  - intros _ [Hc _]%andb_prop [= <- _]. done.
  - intros [Hc _]%andb_prop _ [= -> _]. done.
  - intros [_ Ha]%andb_prop [_ Hb]%andb_prop [= -> H]. f_equal. by apply IH.
Qed.

Lemma BTHOME_SPEC_colon_free id spec :
  BTHOME_SPEC id = Some spec -> colon_free (name spec) = true.
Proof.
  apply (table_lookup_Forall (fun spec => colon_free (name spec) = true)).
  repeat (apply Forall_cons; split; [reflexivity|]). constructor.
Qed.


Lemma occurrences_app id ids1 ids2 :
  occurrences id (ids1 ++ ids2) = (occurrences id ids1 + occurrences id ids2)%nat.
Proof. unfold occurrences. by rewrite filter_app, length_app. Qed.

Lemma occurrences_singleton id k :
  occurrences id [k] = if decide (k = id) then 1%nat else 0%nat.
Proof.
  unfold occurrences. rewrite filter_cons. simpl. by case_decide.
Qed.

Lemma own_key_disjoint nm nm' key :
  colon_free nm = true -> colon_free nm' = true -> nm <> nm' ->
  own_key nm key -> ~ own_key nm' key.
Proof.
  intros Hnm Hnm' Hne [-> | [s ->]] [H | [t H]].
  - done.
  - by apply colon_free_ne_other in H.
  - symmetry in H. by apply colon_free_ne_other in H.
  - by apply colon_prefix_inj in H.
Qed.

(** [store] only touches keys of the name it stores under. *)
Lemma store_other spec id ids rd v key :
  ~ own_key (name spec) key -> store spec id ids rd v !! key = rd !! key.
Proof.
  intros Hkey. unfold store.
  assert (key <> name spec) as H0 by (intros ->; apply Hkey; by left).
  assert (forall s, key <> (name spec ++ ":" ++ s)%string) as H1.
  { intros s ->. apply Hkey. right. eauto. }
  case_decide.
  - rewrite lookup_insert_ne by (apply not_eq_sym, H1).
    destruct (rd !! name spec); [|done].
    rewrite lookup_delete_ne by done.
    rewrite lookup_insert_ne; [done|]. apply not_eq_sym, (H1 "1"%string).
  - by rewrite lookup_insert_ne.
Qed.

Lemma step_field_ids st f :
  well_formed f -> Loop.ids (step_field st f) = Loop.ids st ++ [u8 (fid f)].
Proof.
  intros (spec & v & Hspec & _ & Hv & _)%well_formed_spec.
  unfold step_field. by rewrite Hspec, Hv.
Qed.

Lemma step_field_readings st f spec v :
  BTHOME_SPEC (u8 (fid f)) = Some spec -> field_value f = Some v ->
  Loop.readings (step_field st f)
  = store spec (u8 (fid f)) (Loop.ids st ++ [u8 (fid f)]) (Loop.readings st) v.
Proof. intros Hspec Hv. unfold step_field. by rewrite Hspec, Hv. Qed.

(** Fields of other names leave the keys of [nm] and the count of an id
    named [nm] alone. *)
Lemma run_fields_other nm id spec st gs :
  BTHOME_SPEC id = Some spec -> name spec = nm ->
  Forall well_formed gs -> Forall (fun g => field_name g <> Some nm) gs ->
  occurrences id (Loop.ids (run_fields st gs)) = occurrences id (Loop.ids st)
  /\ forall key, own_key nm key ->
       Loop.readings (run_fields st gs) !! key = Loop.readings st !! key.
Proof.
  intros Hspec Hname Hwf. revert st.
  induction Hwf as [|g gs Hg _ IH]; intros st Hgs; [done|].
  apply Forall_cons in Hgs as [Hne Hgs].
  unfold run_fields in *; simpl. destruct (IH (step_field st g) Hgs) as [IHo IHk].
  destruct (well_formed_spec g Hg) as (spec' & v & Hspec' & _ & Hv & _).
  assert (name spec' <> nm) as Hnm.
  { intros E. apply Hne. unfold field_name. by rewrite Hspec', <- E. }
  split.
  - rewrite IHo, (step_field_ids _ _ Hg), occurrences_app, occurrences_singleton.
    rewrite decide_False; [lia|]. intros E. rewrite E, Hspec in Hspec'. congruence.
  - intros key Hkey. rewrite (IHk key Hkey), (step_field_readings _ _ _ _ Hspec' Hv).
    apply store_other.
    eapply (own_key_disjoint nm); eauto using BTHOME_SPEC_colon_free.
    subst nm. eauto using BTHOME_SPEC_colon_free.
Qed.

Lemma field_name_spec f nm :
  field_name f = Some nm ->
  exists spec, BTHOME_SPEC (u8 (fid f)) = Some spec /\ name spec = nm.
Proof.
  unfold field_name. destruct (BTHOME_SPEC _) as [spec|]; simpl; [|done].
  intros [= <-]. eauto.
Qed.

Lemma store_first spec id ids rd v :
  occurrences id ids = 1%nat -> store spec id ids rd v = <[name spec := v]> rd.
Proof. intros H. unfold store. rewrite H. by rewrite decide_False by lia. Qed.

Lemma run_fields_app st fs gs :
  run_fields st (fs ++ gs) = run_fields (run_fields st fs) gs.
Proof. unfold run_fields. by rewrite foldl_app. Qed.

Lemma run_fields_cons st f fs :
  run_fields st (f :: fs) = run_fields (step_field st f) fs.
Proof. reflexivity. Qed.


Lemma ids_named_cons nm g gs :
  ids_named nm (g :: gs)
  = if decide (field_name g = Some nm) then fid g :: ids_named nm gs else ids_named nm gs.
Proof. unfold ids_named. rewrite filter_cons. by case_decide. Qed.

Lemma ids_named_none nm gs :
  Forall (fun g => field_name g <> Some nm) gs -> ids_named nm gs = [].
Proof.
  induction 1 as [|g gs Hg _ IH]; [done|].
  rewrite ids_named_cons. by rewrite decide_False.
Qed.




Lemma string_app_inv_head (a s t : string) : (a ++ s)%string = (a ++ t)%string -> s = t.
Proof. induction a as [|c a IH]; simpl; [done|]. intros [= H]. by apply IH. Qed.

Lemma store_second spec id ids rd v first :
  occurrences id ids = 2%nat -> rd !! name spec = Some first ->
  store spec id ids rd v
  = <[(name spec ++ ":2")%string := v]>
      (delete (name spec) (<[(name spec ++ ":1")%string := first]> rd)).
Proof.
  intros Hocc Hfirst. unfold store. rewrite Hocc, Hfirst.
  by rewrite decide_True by lia.
Qed.

(** C3, the claim as stated fails: between the two occurrences of id
    0x02 a field of id 0x45, which shares the name [temperature], has
    overwritten the key, so [temperature:1] holds the value of the 0x45
    field and not the one decoded from the first occurrence. *)
Lemma decodeBTHome_same_id_twice_interleaved :
  exists r,
    decodeBTHome (x40 :: encode_all [ {| fid := x02; payload := [x01; x00] |};
                                      {| fid := x45; payload := [x0a; x00] |};
                                      {| fid := x02; payload := [x02; x00] |} ]) = Ok r
    /\ field_value {| fid := x02; payload := [x01; x00] |} = Some (VNum (1 # 100))
    /\ field_value {| fid := x45; payload := [x0a; x00] |} = Some (VNum 1)
    /\ readings r !! "temperature:1"%string = Some (VNum 1)
    /\ readings r !! "temperature:1"%string
       <> field_value {| fid := x02; payload := [x01; x00] |}.
Proof.
  eexists. split; [vm_compute; reflexivity|].
  split; [vm_compute; reflexivity|]. split; [vm_compute; reflexivity|].
  split; [vm_compute; reflexivity|]. vm_compute. discriminate.
Qed.

(** C3, amended: when an id occurs twice among complete fields and no
    other field of the buffer has a descriptor of the same name, the key
    [name] holds the first value until the second occurrence is decoded,
    and the result has that first value under [name:1], the value of the
    second occurrence under [name:2] and no key [name]; each value is the
    one decoded from the bytes of its own field alone. *)
Theorem decodeBTHome_same_id_twice h A B C f1 f2 nm :
  Forall well_formed (A ++ f1 :: B ++ f2 :: C) ->
  fid f1 = fid f2 -> field_name f1 = Some nm ->
  Forall (fun g => field_name g <> Some nm) (A ++ B ++ C) ->
  exists r1 r v1 v2,
    field_value f1 = Some v1 /\ field_value f2 = Some v2
    /\ decodeBTHome (h :: encode_all (A ++ f1 :: B)) = Ok r1
    /\ readings r1 !! nm = Some v1
    /\ decodeBTHome (h :: encode_all (A ++ f1 :: B ++ f2 :: C)) = Ok r
    /\ readings r !! (nm ++ ":1")%string = Some v1
    /\ readings r !! (nm ++ ":2")%string = Some v2
    /\ readings r !! nm = None.
Proof.
  intros Hwf Hid Hname Hother.
  apply Forall_app in Hwf as [HA Hwf]. apply Forall_cons in Hwf as [Hf1 Hwf].
  apply Forall_app in Hwf as [HB Hwf]. apply Forall_cons in Hwf as [Hf2 HC].
  apply Forall_app in Hother as [HoA Hother]. apply Forall_app in Hother as [HoB HoC].
  destruct (well_formed_spec f1 Hf1) as (spec & v1 & Hspec & _ & Hv1 & _).
  destruct (well_formed_spec f2 Hf2) as (spec2 & v2 & Hspec2 & _ & Hv2 & _).
  rewrite <- Hid, Hspec in Hspec2. injection Hspec2 as <-.
  assert (name spec = nm) as Hnm.
  { destruct (field_name_spec _ _ Hname) as (s & Hs & <-). congruence. }
  pose proof (BTHOME_SPEC_colon_free _ _ Hspec) as Hcf. rewrite Hnm in Hcf.
  set (id := u8 (fid f1)) in *.
  set (stA := run_fields loop_init A).
  set (st1 := step_field stA f1).
  set (stB := run_fields st1 B).
  set (st2 := step_field stB f2).
  set (stC := run_fields st2 C).
  (* the occurrence counts *)
  assert (occurrences id (Loop.ids st1) = 1%nat) as Hocc1.
  { unfold st1. rewrite (step_field_ids _ _ Hf1), occurrences_app, occurrences_singleton.
    rewrite decide_True by done.
    destruct (run_fields_other nm id spec loop_init A Hspec Hnm HA HoA) as [HoccA _].
    fold stA in HoccA. by rewrite HoccA. }
  destruct (run_fields_other nm id spec st1 B Hspec Hnm HB HoB) as [HoccB HkeysB].
  fold stB in HoccB, HkeysB.
  assert (occurrences id (Loop.ids st2) = 2%nat) as Hocc2.
  { unfold st2. rewrite (step_field_ids _ _ Hf2), occurrences_app, occurrences_singleton.
    rewrite <- Hid. fold id. rewrite decide_True by done. rewrite HoccB, Hocc1. done. }
  (* the readings *)
  assert (Loop.readings st1 !! nm = Some v1) as Hrd1.
  { unfold st1. rewrite (step_field_readings _ _ _ _ Hspec Hv1).
    fold id. rewrite store_first, Hnm.
    - apply lookup_insert_eq.
    - by rewrite <- (step_field_ids _ _ Hf1). }
  assert (Loop.readings stB !! nm = Some v1) as HrdB.
  { rewrite HkeysB; [done | by left]. }
  assert (Loop.readings st2
          = <[(nm ++ ":2")%string := v2]>
              (delete nm (<[(nm ++ ":1")%string := v1]> (Loop.readings stB)))) as Hrd2.
  { unfold st2.
    assert (BTHOME_SPEC (u8 (fid f2)) = Some spec) as Hspec2 by (by rewrite <- Hid).
    rewrite (step_field_readings _ _ _ _ Hspec2 Hv2).
    rewrite (store_second spec _ _ _ v2 v1), Hnm; [done | | by rewrite Hnm].
    rewrite <- (step_field_ids _ _ Hf2). fold st2. rewrite <- Hid. exact Hocc2. }
  destruct (run_fields_other nm id spec st2 C Hspec Hnm HC HoC) as [_ HkeysC].
  fold stC in HkeysC.
  assert (nm <> (nm ++ ":1")%string) as Hne1 by (by apply colon_free_ne_suffixed).
  assert (nm <> (nm ++ ":2")%string) as Hne2 by (by apply colon_free_ne_suffixed).
  assert ((nm ++ ":1")%string <> (nm ++ ":2")%string) as Hne12.
  { intros E%string_app_inv_head. discriminate. }
  exists (header_result h (Loop.readings stB) []), (header_result h (Loop.readings stC) []),
         v1, v2.
  split; [done|]. split; [done|].
  split.
  { rewrite decodeBTHome_fields.
    - by rewrite run_fields_app, run_fields_cons.
    - apply Forall_app. split; [done|]. by apply Forall_cons. }
  split; [exact HrdB|].
  split.
  { rewrite decodeBTHome_fields.
    - by rewrite run_fields_app, run_fields_cons, run_fields_app, run_fields_cons.
    - apply Forall_app. split; [done|]. apply Forall_cons. split; [done|].
      apply Forall_app. split; [done|]. by apply Forall_cons. }
  simpl. rewrite !HkeysC, Hrd2.
  - split; [|split].
    + rewrite lookup_insert_ne by done. rewrite lookup_delete_ne by done.
      apply lookup_insert_eq.
    + apply lookup_insert_eq.
    + rewrite lookup_insert_ne by done. apply lookup_delete_eq.
  - by left.
  - right. by exists "2"%string.
  - right. by exists "1"%string.
Qed.

Lemma decodeBTHome_same_id_twice_witness :
  Forall well_formed ([] ++ {| fid := x02; payload := [xce; xff] |}
                         :: [{| fid := x01; payload := [x64] |}]
                         ++ {| fid := x02; payload := [xc4; x09] |} :: [])
  /\ x02 = x02
  /\ field_name {| fid := x02; payload := [xce; xff] |} = Some "temperature"%string
  /\ Forall (fun g => field_name g <> Some "temperature"%string)
            ([] ++ [{| fid := x01; payload := [x64] |}] ++ [])
  /\ exists r1 r v1 v2,
      field_value {| fid := x02; payload := [xce; xff] |} = Some v1
      /\ field_value {| fid := x02; payload := [xc4; x09] |} = Some v2
      /\ decodeBTHome (x40 :: encode_all ([] ++ {| fid := x02; payload := [xce; xff] |}
                                             :: [{| fid := x01; payload := [x64] |}])) = Ok r1
      /\ readings r1 !! "temperature"%string = Some v1
      /\ decodeBTHome (x40 :: encode_all ([] ++ {| fid := x02; payload := [xce; xff] |}
                                             :: [{| fid := x01; payload := [x64] |}]
                                             ++ {| fid := x02; payload := [xc4; x09] |} :: []))
         = Ok r
      /\ readings r !! ("temperature" ++ ":1")%string = Some v1
      /\ readings r !! ("temperature" ++ ":2")%string = Some v2
      /\ readings r !! "temperature"%string = None.
Proof.
  assert (Forall well_formed ([] ++ {| fid := x02; payload := [xce; xff] |}
                                 :: [{| fid := x01; payload := [x64] |}]
                                 ++ {| fid := x02; payload := [xc4; x09] |} :: [])) as Hwf.
  { repeat (apply Forall_cons_2; [reflexivity|]). apply Forall_nil_2. }
  assert (Forall (fun g => field_name g <> Some "temperature"%string)
                 ([] ++ [{| fid := x01; payload := [x64] |}] ++ [])) as Hother.
  { apply Forall_cons_2; [discriminate | apply Forall_nil_2]. }
  split; [exact Hwf|]. split; [reflexivity|]. split; [reflexivity|].
  split; [exact Hother|].
  exact (decodeBTHome_same_id_twice x40 [] [{| fid := x01; payload := [x64] |}] []
           {| fid := x02; payload := [xce; xff] |} {| fid := x02; payload := [xc4; x09] |}
           "temperature" Hwf eq_refl eq_refl Hother).
Defined.

(** ** Rounding to binary64 *)

Lemma round_half_even_near x :
  (Qabs (inject_Z (round_half_even x) - x) <= 1 # 2)%Q.
Proof.
  unfold round_half_even.
  pose proof (Qfloor_le x) as Hlo. pose proof (Qlt_floor x) as Hhi.
  rewrite inject_Z_plus in Hhi. change (inject_Z 1) with 1%Q in Hhi.
  set (n := Qfloor x) in *.
  apply Qabs_Qle_condition.
  destruct (Qcompare_spec (x - inject_Z n) (1 # 2)) as [He|Hl|Hg].
  - destruct (Z.even n); [|rewrite inject_Z_plus; change (inject_Z 1) with 1%Q]; lra.
  - lra.
  - rewrite inject_Z_plus. change (inject_Z 1) with 1%Q. lra.
Qed.

Lemma round_half_even_Z x k : (x == inject_Z k)%Q -> round_half_even x = k.
Proof.
  intros Hx. unfold round_half_even.
  rewrite (Qfloor_comp x (inject_Z k) Hx), Qfloor_Z.
  assert ((x - inject_Z k ?= 1 # 2)%Q = Lt) as ->; [|done].
  apply (proj1 (Qlt_alt _ _)). lra.
Qed.

Lemma Qpower2_Z k : 0 <= k -> ((2 ^ k)%Q == inject_Z (2 ^ k))%Q.
Proof. intros Hk. by rewrite Zpower_Qpower. Qed.

Lemma Qpower2_pos e : (0 < 2 ^ e)%Q.
Proof. by apply Qpower_0_lt. Qed.

Lemma Qpower2_cancel a : ((2 ^ a)%Q * 2 ^ (- a) == 1)%Q.
Proof.
  rewrite <- Qpower_plus by done. by rewrite Z.add_opp_diag_r.
Qed.

Lemma exponent_le x : (0 < x)%Q -> ((2 ^ exponent x)%Q <= x)%Q.
Proof.
  intros Hx. unfold exponent.
  set (a := Z.log2 (Qnum x)). set (b := Z.log2 (Z.pos (Qden x))).
  destruct (Qle_bool (2 ^ (a - b)) x) eqn:Hb; [by apply Qle_bool_iff|].
  assert (0 < Qnum x) as Hn by (destruct x as [n d]; unfold Qlt in Hx; simpl in *; lia).
  pose proof (Z.log2_spec (Qnum x) Hn) as [Ha _]. fold a in Ha.
  pose proof (Z.log2_spec (Z.pos (Qden x)) ltac:(lia)) as [_ Hd]. fold b in Hd.
  assert (0 <= a) as Ha0 by apply Z.log2_nonneg.
  assert (0 <= b) as Hb0 by apply Z.log2_nonneg.
  replace (a - b - 1) with (a + - (b + 1)) by lia.
  rewrite Qpower_plus by done. rewrite Qpower_opp.
  rewrite (Qpower2_Z a), (Qpower2_Z (b + 1)) by lia.
  replace (Z.succ b) with (b + 1) in Hd by lia.
  assert (0 < 2 ^ (b + 1)) as Hp by (apply Z.pow_pos_nonneg; lia).
  destruct (2 ^ (b + 1)) as [|p|p] eqn:Hpow; try lia.
  destruct x as [n d]. simpl in *.
  unfold Qle, Qmult, Qinv, inject_Z; simpl.
  nia.
Qed.

Lemma Qabs_pos_num x : Qnum x <> 0 -> (0 < Qabs x)%Q.
Proof. destruct x as [n d]. unfold Qabs, Qlt; simpl. lia. Qed.

Lemma Qred_sign y : (0 < y)%Q -> 0 < Qnum (Qred y).
Proof.
  intros Hy. rewrite <- (Qred_correct y) in Hy.
  destruct (Qred y) as [n d]. unfold Qlt in Hy; simpl in *. lia.
Qed.

(** The parts of [binary64 x] for a number other than 0: a positive
    magnitude [y] within a relative error of [2^-53] of [|x|], and the
    sign of [x]. *)
Lemma binary64_parts x :
  Qnum x <> 0 ->
  exists y : Q,
    (0 < y)%Q
    /\ binary64 x = (if Qnum x <? 0 then - Qred y else Qred y)%Q
    /\ (Qabs (y - Qabs x) <= Qabs x * (1 # 2 ^ 53))%Q.
Proof.
  intros Hx. unfold binary64. rewrite (proj2 (Z.eqb_neq _ _) Hx).
  pose proof (Qabs_pos_num x Hx) as Hax.
  set (ax := Qabs x) in *.
  pose proof (exponent_le ax Hax) as He.
  set (e := exponent ax) in *.
  set (t := (ax * 2 ^ (52 - e))%Q).
  pose proof (round_half_even_near t) as Hm.
  set (m := round_half_even t) in *.
  apply Qabs_Qle_condition in Hm.
  pose proof (Qpower2_pos e) as HE.
  pose proof (Qpower2_pos (e - 52)) as HP.
  pose proof (Qpower2_pos (52 - e)) as HR.
  assert (((2 ^ (52 - e))%Q * 2 ^ (e - 52) == 1)%Q) as HRP.
  { replace (e - 52) with (- (52 - e)) by lia. apply Qpower2_cancel. }
  assert (((2 ^ (e - 52))%Q == 2 ^ e * (1 # 2 ^ 52))%Q) as HPE.
  { replace (e - 52) with (e + - 52) by lia. by rewrite Qpower_plus. }
  assert (((2 ^ 52)%Q <= t)%Q) as Ht.
  { unfold t. replace 52 with (e + (52 - e)) at 1 by lia.
    rewrite Qpower_plus by done. by apply Qmult_le_compat_r; [|apply Qlt_le_weak]. }
  change ((2 ^ 52)%Q) with (inject_Z (2 ^ 52)) in Ht.
  set (P := (2 ^ (e - 52))%Q) in *. set (R := (2 ^ (52 - e))%Q) in *.
  set (E := (2 ^ e)%Q) in *.
  exists (inject_Z m * P)%Q. split; [|split; [done|]].
  - apply Qmult_lt_0_compat; [|done].
    assert ((inject_Z (2 ^ 52) - (1 # 2) <= inject_Z m)%Q) as H by lra.
    assert ((0 < inject_Z (2 ^ 52) - (1 # 2))%Q) as H0 by done. lra.
  - set (d := (inject_Z m - t)%Q) in *.
    assert ((inject_Z m * P - ax == d * P)%Q) as ->.
    { unfold d, t. transitivity (inject_Z m * P - ax * (R * P))%Q; [|ring].
      rewrite HRP. ring. }
    assert ((d * E <= (1 # 2) * E)%Q) as Hup by (apply Qmult_le_compat_r; lra).
    assert ((- (1 # 2) * E <= d * E)%Q) as Hlo by (apply Qmult_le_compat_r; lra).
    apply Qabs_Qle_condition. rewrite HPE.
    assert ((E * (1 # 2 ^ 53) <= ax * (1 # 2 ^ 53))%Q) as Hax'.
    { apply Qmult_le_compat_r; [done | done]. }
    assert (((1 # 2 ^ 52) == 2 * (1 # 2 ^ 53))%Q) as -> by (vm_compute; reflexivity).
    change (2 ^ 53)%positive with 9007199254740992%positive in *.
    split; lra.
Qed.

Lemma binary64_sign x : (Qnum (binary64 x) <? 0) = (Qnum x <? 0).
Proof.
  destruct (Z.eq_dec (Qnum x) 0) as [Hz|Hnz].
  - unfold binary64. by rewrite Hz.
  - destruct (binary64_parts x Hnz) as (y & Hy & -> & _).
    pose proof (Qred_sign y Hy) as Hs.
    destruct (Z.ltb_spec (Qnum x) 0); simpl; lia.
Qed.

Lemma binary64_abs_error x :
  (Qabs (Qabs (binary64 x) - Qabs x) <= Qabs x * (1 # 2 ^ 53))%Q.
Proof.
  destruct (Z.eq_dec (Qnum x) 0) as [Hz|Hnz].
  - unfold binary64. rewrite Hz. destruct x as [n d]; simpl in *; subst n. done.
  - destruct (binary64_parts x Hnz) as (y & Hy & -> & Herr).
    assert ((Qabs (if Qnum x <? 0 then - Qred y else Qred y) == y)%Q) as ->; [|done].
    destruct (Qnum x <? 0); [rewrite Qabs_opp|]; rewrite Qred_correct;
      apply Qabs_pos; lra.
Qed.

Lemma binary64_nonneg x : (0 <= x)%Q -> (0 <= binary64 x)%Q.
Proof.
  intros Hx. destruct (Z.eq_dec (Qnum x) 0) as [Hz|Hnz].
  - unfold binary64. by rewrite Hz.
  - destruct (binary64_parts x Hnz) as (y & Hy & -> & _).
    assert ((Qnum x <? 0) = false) as ->.
    { apply Z.ltb_ge. destruct x as [n d]; unfold Qle in Hx; simpl in *. lia. }
    rewrite Qred_correct. lra.
Qed.

(** Integers below [2^53] in magnitude are binary64 numbers. *)
Lemma binary64_integer n : Z.abs n < 2 ^ 53 -> (binary64 (inject_Z n) == inject_Z n)%Q.
Proof.
  intros Hn. destruct (Z.eq_dec n 0) as [->|Hnz]; [done|].
  unfold binary64. change (Qnum (inject_Z n)) with n.
  rewrite (proj2 (Z.eqb_neq _ _) Hnz).
  change (Qabs (inject_Z n)) with (inject_Z (Z.abs n)).
  set (a := Z.abs n) in *. assert (0 < a) as Ha by lia.
  pose proof (Z.log2_spec a Ha) as [Hlo Hhi].
  assert (0 <= Z.log2 a) as Hl0 by apply Z.log2_nonneg.
  assert (Z.log2 a < 53) as Hl by (apply Z.log2_lt_pow2; lia).
  assert (exponent (inject_Z a) = Z.log2 a) as ->.
  { unfold exponent. change (Qnum (inject_Z a)) with a.
    change (Z.log2 (Z.pos (Qden (inject_Z a)))) with 0. rewrite Z.sub_0_r.
    assert (Qle_bool (2 ^ Z.log2 a) (inject_Z a) = true) as ->; [|done].
    apply Qle_bool_iff. rewrite Qpower2_Z by done. by rewrite <- Zle_Qle. }
  set (k := 52 - Z.log2 a). assert (0 <= k) as Hk by lia.
  assert (round_half_even (inject_Z a * 2 ^ k) = a * 2 ^ k) as ->.
  { apply round_half_even_Z. rewrite Qpower2_Z by done. by rewrite inject_Z_mult. }
  assert ((Qred (inject_Z (a * 2 ^ k) * 2 ^ (Z.log2 a - 52)) == inject_Z a)%Q) as Hy.
  { rewrite Qred_correct, inject_Z_mult, <- Qpower2_Z by done.
    replace (Z.log2 a - 52) with (- k) by lia.
    rewrite <- Qmult_assoc, Qpower2_cancel. ring. }
  destruct (Z.ltb_spec n 0).
  - rewrite Hy. unfold a. rewrite Z.abs_neq by lia. rewrite inject_Z_opp. ring.
  - rewrite Hy. unfold a. by rewrite Z.abs_eq by lia.
Qed.

Lemma Qfloor_unique x k : (inject_Z k <= x < inject_Z k + 1)%Q -> Qfloor x = k.
Proof.
  intros [Hlo Hhi].
  pose proof (Qfloor_resp_le _ _ Hlo) as H1. rewrite Qfloor_Z in H1.
  pose proof (Qfloor_le x) as H2.
  assert ((inject_Z (Qfloor x) < inject_Z (k + 1))%Q) as H3.
  { rewrite inject_Z_plus. change (inject_Z 1) with 1%Q. lra. }
  rewrite <- Zlt_Qlt in H3. lia.
Qed.

(** [toFixed(d)] of a number within half a unit of the last place of
    [raw / 10^d], with the sign of [raw], prints that decimal. *)
Lemma toFixed_near z raw d s :
  0 <= d <= 100 -> (Qnum z <? 0) = (raw <? 0) ->
  (inject_Z (Z.abs raw) - (1 # 2) <= Qabs z * inject_Z (10 ^ d)
   < inject_Z (Z.abs raw) + (1 # 2))%Q ->
  toFixed z (Some d) = Ok s ->
  parseFloat s = Qred (raw # Z.to_pos (10 ^ d)).
Proof.
  intros Hd Hsign Hnear. unfold toFixed.
  assert ((d <? 0) || (100 <? d) = false) as -> by lia.
  set (t := (Qabs z * inject_Z (10 ^ d) + (1 # 2))%Q).
  intros Hs. assert (s = {| negative := Qnum z <? 0; mantissa := Qfloor t; decimals := d |})
    as -> by congruence.
  unfold parseFloat. cbn [negative mantissa decimals].
  assert (Qfloor t = Z.abs raw) as ->.
  { apply Qfloor_unique. unfold t. split; lra. }
  rewrite Hsign. f_equal. f_equal. destruct (Z.ltb_spec raw 0); lia.
Qed.

(** Multiplying an integer below [2^48] in magnitude by a binary64
    number within [2^-53] (relative) of [10^-d] and rounding the product
    to binary64 gives a number that [toFixed(d)] prints as the exact
    decimal [raw / 10^d]. *)
Lemma toFixed_scaled raw c d s :
  0 <= d <= 100 -> Z.abs raw < 2 ^ 48 ->
  (Qabs (c * inject_Z (10 ^ d) - 1) <= 1 # 2 ^ 53)%Q ->
  toFixed (binary64 (inject_Z raw * c)) (Some d) = Ok s ->
  parseFloat s = Qred (raw # Z.to_pos (10 ^ d)).
Proof.
  intros Hd Hraw Hc. apply toFixed_near; [done| |].
  - rewrite binary64_sign.
    assert ((0 < c)%Q) as Hcpos.
    { assert (0 < 10 ^ d) as HT by (apply Z.pow_pos_nonneg; lia).
      assert ((0 < inject_Z (10 ^ d))%Q) as HT' by (by rewrite <- (Zlt_Qlt 0)).
      change (2 ^ 53)%positive with 9007199254740992%positive in *.
      apply Qabs_Qle_condition in Hc.
      destruct (Qlt_le_dec 0 c) as [|Hneg]; [done|].
      assert ((c * inject_Z (10 ^ d) <= 0 * inject_Z (10 ^ d))%Q)
        by (by apply Qmult_le_compat_r; [|apply Qlt_le_weak]). lra. }
    destruct c as [cn cd]. unfold Qlt in Hcpos. simpl in *.
    destruct (Z.ltb_spec raw 0); [apply Z.ltb_lt | apply Z.ltb_ge]; nia.
  - assert (0 < 10 ^ d) as HT by (apply Z.pow_pos_nonneg; lia).
    set (T := inject_Z (10 ^ d)) in *.
    assert ((0 < T)%Q) as HT' by (unfold T; by rewrite <- (Zlt_Qlt 0)).
    change (2 ^ 53)%positive with 9007199254740992%positive in *.
    apply Qabs_Qle_condition in Hc.
    assert ((0 < c)%Q) as Hcpos.
    { destruct (Qlt_le_dec 0 c) as [|Hneg]; [done|].
      assert ((c * T <= 0 * T)%Q) by (by apply Qmult_le_compat_r; [|apply Qlt_le_weak]). lra. }
    pose proof (binary64_abs_error (inject_Z raw * c)) as Herr.
    change (2 ^ 53)%positive with 9007199254740992%positive in *.
    set (w := Qabs (binary64 (inject_Z raw * c))) in *.
    set (a := inject_Z (Z.abs raw)).
    assert ((0 <= a)%Q) as Ha0 by (unfold a; rewrite <- (Zle_Qle 0); lia).
    assert ((a < inject_Z (2 ^ 48))%Q) as Ha by (unfold a; by rewrite <- Zlt_Qlt).
    change (inject_Z (2 ^ 48)) with 281474976710656%Q in Ha.
    assert ((Qabs (inject_Z raw * c) == a * c)%Q) as HA.
    { rewrite Qabs_Qmult. rewrite (Qabs_pos c) by lra. done. }
    rewrite HA in Herr. apply Qabs_Qle_condition in Herr.
    set (g := (c * T)%Q) in *.
    assert ((a * g <= a * (1 + (1 # 9007199254740992)))%Q) as Hg1
      by (rewrite !(Qmult_comm a); apply Qmult_le_compat_r; lra).
    assert ((a * (1 - (1 # 9007199254740992)) <= a * g)%Q) as Hg2
      by (rewrite !(Qmult_comm a); apply Qmult_le_compat_r; lra).
    assert (((w - a * c) * T <= a * c * (1 # 9007199254740992) * T)%Q) as Hw1
      by (apply Qmult_le_compat_r; lra).
    assert ((- (a * c * (1 # 9007199254740992)) * T <= (w - a * c) * T)%Q) as Hw2
      by (apply Qmult_le_compat_r; lra).
    assert ((a * c * T == a * g)%Q) as Hacg by (unfold g; ring).
    assert (((w - a * c) * T == w * T - a * g)%Q) as E1 by (rewrite <- Hacg; ring).
    assert ((a * c * (1 # 9007199254740992) * T == a * g * (1 # 9007199254740992))%Q) as E2
      by (rewrite <- Hacg; ring).
    assert ((- (a * c * (1 # 9007199254740992)) * T
             == - (a * g * (1 # 9007199254740992)))%Q) as E3 by (rewrite <- Hacg; ring).
    rewrite E1, E2 in Hw1. rewrite E1, E3 in Hw2.
    split; lra.
Qed.

(** ** Generic numeric fields *)

Lemma pow256 n : 256 ^ Z.of_nat n = 2 ^ (8 * Z.of_nat n).
Proof. change 256 with (2 ^ 8). rewrite <- Z.pow_mul_r by lia. done. Qed.

Lemma readIntLE_app payload suf :
  (1 <= length payload <= 6)%nat ->
  readIntLE (payload ++ suf) 0 (length payload) = Ok (raw_integer true payload).
Proof.
  intros Hw. unfold readIntLE. rewrite (readUIntLE_app payload suf Hw). simpl.
  unfold raw_integer. simpl. do 2 f_equal.
  pose proof (le_value_range payload) as Hr. rewrite pow256 in Hr.
  set (u := le_value payload) in *. set (n := 8 * Z.of_nat (length payload)) in *.
  assert (1 <= n) as Hn by lia.
  assert (2 ^ n = 2 * 2 ^ (n - 1)) as Hpow.
  { rewrite <- Z.pow_succ_r by lia. f_equal. lia. }
  assert (0 < 2 ^ (n - 1)) as Hpos by (apply Z.pow_pos_nonneg; lia).
  destruct (Z.leb_spec (2 ^ (n - 1)) u) as [Hle|Hlt].
  - assert (Z.testbit u (n - 1) = true) as ->; [|done].
    apply Z.testbit_true; [lia|].
    replace (u / 2 ^ (n - 1)) with 1; [done|].
    apply Z.div_unique with (r := u - 2 ^ (n - 1)); lia.
  - assert (Z.testbit u (n - 1) = false) as ->; [|done].
    apply Z.testbit_false; [lia|]. by rewrite Z.div_small by lia.
Qed.

Lemma raw_integer_range sg payload :
  (length payload <= 6)%nat -> Z.abs (raw_integer sg payload) < 2 ^ 48.
Proof.
  intros Hlen. unfold raw_integer.
  pose proof (le_value_range payload) as Hr. rewrite pow256 in Hr.
  set (u := le_value payload) in *. set (n := 8 * Z.of_nat (length payload)) in *.
  assert (2 ^ n <= 2 ^ 48) as Hn by (apply Z.pow_le_mono_r; lia).
  destruct (sg && (2 ^ (n - 1) <=? u)) eqn:Hneg; [|lia].
  apply andb_prop in Hneg as [_ Hneg%Z.leb_le].
  destruct (Z.eq_dec n 0) as [Hz|Hnz].
  - rewrite Hz in *. simpl in *. lia.
  - assert (0 < 2 ^ (n - 1)) by (apply Z.pow_pos_nonneg; lia). lia.
Qed.

(** The generic entries of the table: a width of 1 to 6 bytes, and a
    scale that is either 0.35 or a power of ten [10^-d] whose binary64
    literal is within [2^-53] of it, [d] being the number of digits the
    code gives [toFixed]. *)
Lemma BTHOME_SPEC_generic id spec :
  BTHOME_SPEC id = Some spec -> parser spec = None ->
  exists w sg f d,
    spec = numeric (name spec) w sg f /\ (1 <= w <= 6)%nat
    /\ fraction_digits (binary64 f) = Some d /\ 0 <= d <= 100
    /\ (0 <= binary64 f)%Q
    /\ (f = (35 # 100)%Q
        \/ (f = (1 # Z.to_pos (10 ^ d))%Q
            /\ (Qabs (binary64 f * inject_Z (10 ^ d) - 1) <= 1 # 2 ^ 53)%Q)).
Proof.
  apply (table_lookup_Forall (fun spec => parser spec = None ->
    exists w sg f d,
      spec = numeric (name spec) w sg f /\ (1 <= w <= 6)%nat
      /\ fraction_digits (binary64 f) = Some d /\ 0 <= d <= 100
      /\ (0 <= binary64 f)%Q
      /\ (f = (35 # 100)%Q
          \/ (f = (1 # Z.to_pos (10 ^ d))%Q
              /\ (Qabs (binary64 f * inject_Z (10 ^ d) - 1) <= 1 # 2 ^ 53)%Q)))).
  repeat (apply Forall_cons; split;
          [ intros Hp;
            first [ discriminate Hp
                  | eexists _, _, _, _; split; [reflexivity|];
                    split; [simpl; lia|]; split; [vm_compute; reflexivity|];
                    split; [lia|]; split; [vm_compute; discriminate|];
                    first [ left; reflexivity
                          | right; split; [reflexivity | vm_compute; discriminate] ] ] | ]).
  constructor.
Qed.

Lemma decode_value_generic spec payload w sg f d :
  spec = numeric (name spec) w sg f -> (1 <= w <= 6)%nat ->
  fraction_digits (binary64 f) = Some d -> 0 <= d <= 100 -> length payload = w ->
  exists s,
    toFixed (binary64 (inject_Z (raw_integer sg payload) * binary64 f)) (Some d) = Ok s
    /\ decode_value spec payload 0 = Ok (VNum (parseFloat s), length payload).
Proof.
  intros Hshape Hw Hd Hr Hlen. subst w.
  destruct (toFixed_returns (binary64 (inject_Z (raw_integer sg payload) * binary64 f)) d Hr)
    as [s Hs].
  exists s. split; [done|].
  rewrite Hshape. unfold decode_value; simpl.
  pose proof (readIntLE_app payload [] Hw) as Hi.
  pose proof (readUIntLE_app payload [] Hw) as Hu.
  rewrite app_nil_r in Hi, Hu. rewrite Hd.
  destruct sg.
  - rewrite Hi. simpl. rewrite Hs. done.
  - rewrite Hu. simpl. change (le_value payload) with (raw_integer false payload).
    rewrite Hs. done.
Qed.

Lemma decodeBTHome_single h f spec v :
  well_formed f -> BTHOME_SPEC (u8 (fid f)) = Some spec -> field_value f = Some v ->
  decodeBTHome (h :: encode f) = Ok (header_result h {[ name spec := v ]} []).
Proof.
  intros Hwf Hspec Hv.
  pose proof (decodeBTHome_fields h [f] ltac:(by repeat constructor)) as H.
  unfold encode_all in H; simpl in H. rewrite app_nil_r in H.
  unfold encode. rewrite H. do 2 f_equal.
  change (Loop.readings (step_field loop_init f) = {[name spec := v]}).
  rewrite (step_field_readings _ _ _ _ Hspec Hv), store_first.
  - apply insert_empty.
  - simpl. rewrite occurrences_singleton. by rewrite decide_True.
Qed.

(** A buffer holding one complete generic field: the reading is what
    [toFixed] and [parseFloat] make of the rounded product. *)
Lemma decodeBTHome_generic h idb data spec w :
  BTHOME_SPEC (u8 idb) = Some spec -> parser spec = None ->
  bytes spec = Some w -> length data = w ->
  exists sg f d s,
    spec = numeric (name spec) w sg f
    /\ (1 <= w <= 6)%nat /\ fraction_digits (binary64 f) = Some d /\ 0 <= d <= 100
    /\ (0 <= binary64 f)%Q
    /\ (f = (35 # 100)%Q
        \/ (f = (1 # Z.to_pos (10 ^ d))%Q
            /\ (Qabs (binary64 f * inject_Z (10 ^ d) - 1) <= 1 # 2 ^ 53)%Q))
    /\ toFixed (binary64 (inject_Z (raw_integer sg data) * binary64 f)) (Some d) = Ok s
    /\ decodeBTHome (h :: idb :: data)
       = Ok (header_result h {[ name spec := VNum (parseFloat s) ]} []).
Proof.
  intros Hspec Hp Hb Hlen.
  destruct (BTHOME_SPEC_generic _ _ Hspec Hp)
    as (w' & sg & f & d & Hshape & Hw & Hd & Hr & Hf0 & Hf).
  assert (bytes spec = Some w') as Hb' by (rewrite Hshape; done).
  assert (w' = w) as -> by congruence.
  destruct (decode_value_generic spec data w sg f d Hshape Hw Hd Hr Hlen) as (s & Hs & Hv).
  exists sg, f, d, s. repeat (split; [done|]).
  apply (decodeBTHome_single h {| fid := idb; payload := data |} spec).
  - unfold well_formed, complete. cbn [fid payload]. by rewrite Hspec, Hb.
  - done.
  - unfold field_value. cbn [fid payload]. by rewrite Hspec, Hv.
Qed.

(** X24: for a generic descriptor whose scale is a power of ten
    [10^-d] (1, 0.1, 0.01, 0.001), the reading of a complete field is
    exactly the payload, read as a little-endian integer (two's
    complement when the descriptor is signed), times the scale: the
    binary64 rounding of the literal and of the product is undone by
    [toFixed(d)].  Signed -50 under id 0x02 gives -0.5. *)
Theorem decodeBTHome_decimal_scale h idb data spec w d :
  BTHOME_SPEC (u8 idb) = Some spec -> parser spec = None ->
  bytes spec = Some w -> length data = w ->
  0 <= d -> factor spec = Some (1 # Z.to_pos (10 ^ d))%Q ->
  exists q,
    decodeBTHome (h :: idb :: data) = Ok (header_result h {[ name spec := VNum q ]} [])
    /\ (q == inject_Z (raw_integer (default false (signed spec)) data)
             * (1 # Z.to_pos (10 ^ d)))%Q.
Proof.
  intros Hspec Hp Hb Hlen Hd0 Hfactor.
  destruct (decodeBTHome_generic h idb data spec w Hspec Hp Hb Hlen)
    as (sg & f & d' & s & Hshape & Hw & Hd & Hr & _ & Hf & Hs & Hdec).
  assert (signed spec = Some sg) as Hsg by (rewrite Hshape; done).
  assert (factor spec = Some f) as Hf' by (rewrite Hshape; done).
  assert (f = (1 # Z.to_pos (10 ^ d))%Q) as Hfd by congruence.
  assert (0 < 10 ^ d) as Hpow by (apply Z.pow_pos_nonneg; lia).
  destruct Hf as [H35 | [Hfd' Hc]].
  { exfalso. rewrite H35 in Hfd. injection Hfd as H1 H2.
    assert (10 ^ d = 100) as H by lia.
    assert (d < 3) as Hlt.
    { apply (Z.pow_lt_mono_r_iff 10); [lia | lia |]. rewrite H. done. }
    assert (d = 0 \/ d = 1 \/ d = 2) as [-> | [-> | ->]] by lia; discriminate. }
  assert (0 < 10 ^ d') as Hpow' by (apply Z.pow_pos_nonneg; lia).
  assert (d' = d) as ->.
  { rewrite Hfd in Hfd'. injection Hfd' as H.
    apply (Z.pow_inj_r 10); lia. }
  exists (parseFloat s). split; [by rewrite Hdec|].
  rewrite Hsg. cbn [default from_option id].
  rewrite (toFixed_scaled _ _ _ _ Hr (raw_integer_range sg data ltac:(lia)) Hc Hs).
  rewrite Qred_correct. unfold Qeq, Qmult, inject_Z; simpl. lia.
Qed.

Lemma decodeBTHome_decimal_scale_witness :
  BTHOME_SPEC (u8 x02) = Some (numeric "temperature" 2 true (1 # 100))
  /\ parser (numeric "temperature" 2 true (1 # 100)) = None
  /\ bytes (numeric "temperature" 2 true (1 # 100)) = Some 2%nat
  /\ length [xce; xff] = 2%nat
  /\ 0 <= 2
  /\ factor (numeric "temperature" 2 true (1 # 100)) = Some (1 # Z.to_pos (10 ^ 2))%Q
  /\ raw_integer true [xce; xff] = -50
  /\ exists q,
       decodeBTHome (x40 :: x02 :: [xce; xff])
       = Ok (header_result x40 {[ "temperature"%string := VNum q ]} [])
       /\ (q == inject_Z (raw_integer true [xce; xff]) * (1 # Z.to_pos (10 ^ 2)))%Q.
Proof.
  split; [reflexivity|]. split; [reflexivity|]. split; [reflexivity|].
  split; [reflexivity|]. split; [lia|]. split; [reflexivity|]. split; [reflexivity|].
  exact (decodeBTHome_decimal_scale x40 x02 [xce; xff]
           (numeric "temperature" 2 true (1 # 100)) 2 2
           eq_refl eq_refl eq_refl eq_refl ltac:(lia) eq_refl).
Defined.

(** C7: at id 0x58 the scale is 0.35, which is not a power of ten:
    [Math.log10(1 / 0.35)] is below 1 and [toFixed] truncates it to 0
    digits, so every reading of that id is a whole number and the
    decimals of the product are lost.  Payload byte 0x38 is 56, and
    56 * 0.35 = 19.6 is reported as 20. *)
Theorem decodeBTHome_scale_035 :
  BTHOME_SPEC 0x58 = Some (numeric "temperature" 1 true (35 # 100))
  /\ fraction_digits (binary64 (35 # 100)) = Some 0
  /\ (forall h b, exists n : Z,
        decodeBTHome [h; x58; b]
        = Ok (header_result h {[ "temperature"%string := VNum (inject_Z n) ]} []))
  /\ raw_integer true [x38] = 56
  /\ (inject_Z 56 * (35 # 100) == 196 # 10)%Q
  /\ decodeBTHome [x40; x58; x38]
     = Ok (header_result x40 {[ "temperature"%string := VNum 20 ]} []).
Proof.
  split; [reflexivity|]. split; [vm_compute; reflexivity|].
  split; [|repeat split; vm_compute; reflexivity].
  intros h b.
  assert (exists n : Z, field_value {| fid := x58; payload := [b] |}
                        = Some (VNum (inject_Z n))) as [n Hn].
  { destruct b; eexists; vm_compute; reflexivity. }
  exists n.
  apply (decodeBTHome_single h {| fid := x58; payload := [b] |}
           (numeric "temperature" 1 true (35 # 100))); [reflexivity | reflexivity | exact Hn].
Qed.

(** ** The manufacturer-data loop *)

Lemma parse_block_progress buf offset result offset' result' :
  (offset < length buf)%nat ->
  parse_block buf offset result = Ok (offset', result') -> (offset < offset')%nat.
Proof.
  intros Hlt. unfold parse_block.
  destruct (readUInt8 buf offset) as [t|]; simpl; [|done].
  destruct t as [|p|p]; simpl; try (intros [= <- _]; lia).
  repeat (destruct p as [p|p|]; simpl; try (intros [= <- _]; lia));
    destruct (readUInt16LE buf (S offset)); simpl; try done; intros [= <- _]; lia.
Qed.

Lemma parse_block_throws buf offset result e :
  parse_block buf offset result = Throw e -> e = RangeError_bounds.
Proof.
  unfold parse_block.
  destruct (readUInt8 buf offset) as [t|] eqn:Ht; simpl.
  - destruct t as [|p|p]; simpl; try done.
    repeat (destruct p as [p|p|]; simpl; try done);
      unfold readUInt16LE;
      destruct (readUIntLE buf (S offset) 2) eqn:Hr; simpl; try done;
      intros [= <-]; eauto using readUIntLE_throws.
  - intros [= <-]. eauto using readUInt8_throws.
Qed.

Lemma parse_blocks_fuel fuel fuel' buf offset result :
  (length buf - offset <= fuel)%nat -> (length buf - offset <= fuel')%nat ->
  parse_blocks fuel buf offset result = parse_blocks fuel' buf offset result.
Proof.
  revert fuel' offset result.
  induction fuel as [|fuel IH]; intros fuel' offset result Hf Hf'.
  - destruct fuel'; simpl; case_decide; try done; lia.
  - destruct fuel' as [|fuel']; simpl; case_decide; try done; try lia.
    destruct (parse_block buf offset result) as [[o r]|] eqn:Hb; simpl; [|done].
    apply parse_block_progress in Hb; [|done]. apply IH; lia.
Qed.

Lemma parse_blocks_S fuel buf offset result :
  parse_blocks (S fuel) buf offset result =
    if decide (offset < length buf)%nat then
      '(offset', result') ← parse_block buf offset result;
      parse_blocks fuel buf offset' result'
    else mret result.
Proof. reflexivity. Qed.

Lemma parse_blocks_unfold fuel buf offset result :
  (length buf - offset <= fuel)%nat ->
  parse_blocks fuel buf offset result =
    if decide (offset < length buf)%nat then
      '(offset', result') ← parse_block buf offset result;
      parse_blocks fuel buf offset' result'
    else mret result.
Proof.
  intros Hf. rewrite (parse_blocks_fuel fuel (S fuel)) by lia.
  rewrite parse_blocks_S. case_decide; [|done].
  destruct (parse_block buf offset result) as [[o r]|] eqn:Hb; simpl; [|done].
  apply parse_block_progress in Hb; [|done]. apply parse_blocks_fuel; lia.
Qed.

Lemma parse_blocks_throws fuel buf offset result e :
  (length buf - offset <= fuel)%nat ->
  parse_blocks fuel buf offset result = Throw e -> e = RangeError_bounds.
Proof.
  revert offset result.
  induction fuel as [|fuel IH]; intros offset result Hf; simpl; case_decide; try done; try lia.
  destruct (parse_block buf offset result) as [[o r]|] eqn:Hb; simpl.
  - apply parse_block_progress in Hb; [|done]. apply IH. lia.
  - intros [= <-]. eauto using parse_block_throws.
Qed.

Lemma parse_blocks_end fuel buf offset result :
  (length buf <= offset)%nat -> parse_blocks fuel buf offset result = Ok result.
Proof. intros Ho. destruct fuel; simpl; case_decide; try done; lia. Qed.

Lemma drop_S_app_cons {A} (pre : list A) x l :
  drop (S (length pre)) (pre ++ x :: l) = l.
Proof.
  change (S (length pre)) with (1 + length pre)%nat.
  by rewrite Nat.add_comm, <- drop_drop, drop_app_length.
Qed.

Lemma parse_block_complete pre b suf result :
  complete_block b ->
  parse_block (pre ++ encode_block b ++ suf) (length pre) result
  = Ok ((length pre + length (encode_block b))%nat, apply_block result b).
Proof.
  destruct b as [t data]. unfold complete_block, apply_block, encode_block; simpl.
  intros [[Ht Hlen] | [[Ht Hlen] | [Ht Hlen]]].
  - destruct data as [|a [|b [|]]]; try done.
    unfold parse_block. rewrite readUInt8_drop0, drop_app_length. simpl. rewrite Ht.
    unfold readUInt16LE.
    rewrite (readUIntLE_drop0 (pre ++ _)), drop_S_app_cons.
    pose proof (readUIntLE_app [a; b] suf ltac:(simpl; lia)) as H1.
    change (readUIntLE (a :: b :: suf) 0 2 = Ok (le_value [a; b])) in H1.
    rewrite H1. simpl. do 2 f_equal. lia.
  - destruct data as [|a [|b [|]]]; try done.
    unfold parse_block. rewrite readUInt8_drop0, drop_app_length. simpl. rewrite Ht.
    unfold readUInt16LE.
    rewrite (readUIntLE_drop0 (pre ++ _)), drop_S_app_cons.
    pose proof (readUIntLE_app [a; b] suf ltac:(simpl; lia)) as H1.
    change (readUIntLE (a :: b :: suf) 0 2 = Ok (le_value [a; b])) in H1.
    rewrite H1. simpl. do 2 f_equal. lia.
  - unfold parse_block. rewrite readUInt8_drop0, drop_app_length. simpl. rewrite Ht.
    assert (slice (pre ++ t :: data ++ suf) (S (length pre)) (S (length pre + 6)) = data)
      as ->.
    { unfold slice. rewrite drop_S_app_cons.
      replace (S (length pre + 6) - S (length pre))%nat with (length data) by lia.
      apply take_app_length. }
    assert (slice (t :: data) 1 7 = data) as ->.
    { unfold slice. simpl. rewrite drop_0, <- Hlen. apply firstn_all. }
    simpl. rewrite Hlen. do 2 f_equal. lia.
Qed.

Lemma parse_block_unknown pre t rest result :
  ~ known_block_type (u8 t) ->
  parse_block (pre ++ t :: rest) (length pre) result
  = Ok (length (pre ++ t :: rest), result).
Proof.
  intros Hk. unfold parse_block. rewrite readUInt8_drop0, drop_app_length. simpl.
  unfold known_block_type in Hk.
  destruct (u8 t) as [|p|p]; try done.
  repeat (destruct p as [p|p|]; try done); exfalso; apply Hk; auto.
Qed.

Lemma parse_blocks_blocks fuel pre bs suf result :
  Forall complete_block bs ->
  (length (pre ++ encode_blocks bs ++ suf) - length pre <= fuel)%nat ->
  parse_blocks fuel (pre ++ encode_blocks bs ++ suf) (length pre) result
  = parse_blocks fuel (pre ++ encode_blocks bs ++ suf)
      (length pre + length (encode_blocks bs)) (run_blocks result bs).
Proof.
  intros Hbs. revert pre result.
  induction Hbs as [|b bs Hb _ IH]; intros pre result Hfuel.
  - unfold encode_blocks; simpl. by rewrite Nat.add_0_r.
  - rewrite parse_blocks_unfold by done.
    assert (encode_blocks (b :: bs) = encode_block b ++ encode_blocks bs) as Henc by done.
    rewrite Henc in *. rewrite <- (app_assoc (encode_block b)) in *.
    rewrite decide_True.
    2:{ rewrite !length_app. unfold encode_block; simpl. lia. }
    rewrite (parse_block_complete pre b (encode_blocks bs ++ suf) result Hb).
    cbv beta iota delta [mbind outcome_bind].
    rewrite (app_assoc pre (encode_block b)), <- length_app.
    rewrite (IH (pre ++ encode_block b)).
    + rewrite !length_app. by rewrite Nat.add_assoc.
    + rewrite <- !app_assoc. rewrite !length_app in *. lia.
Qed.

Lemma readUInt16LE_company rest :
  readUInt16LE (xa9 :: x0b :: rest) 0 = Ok 0x0ba9.
Proof. exact (readUIntLE_app [xa9; x0b] rest ltac:(simpl; lia)). Qed.

(** A buffer of the company id, complete blocks and then nothing or a
    block type that is not known. *)
Lemma decodeShelly_blocks bs tail :
  Forall complete_block bs ->
  (tail = [] \/ exists t rest, tail = t :: rest /\ ~ known_block_type (u8 t)) ->
  (10 <= length (xa9 :: x0b :: encode_blocks bs ++ tail))%nat ->
  decodeShellyManufacturerData (InputBuffer (xa9 :: x0b :: encode_blocks bs ++ tail))
  = Ok (Some (run_blocks shelly_init bs)).
Proof.
  intros Hbs Htail Hlen. unfold decodeShellyManufacturerData.
  cbn [input_length]. rewrite decide_False by lia.
  rewrite readUInt16LE_company. cbn [mbind outcome_bind Z.eqb Pos.eqb negb].
  set (buf := xa9 :: x0b :: encode_blocks bs ++ tail) in *.
  fold shelly_init.
  pose proof (parse_blocks_blocks (length buf) [xa9; x0b] bs tail shelly_init Hbs) as H.
  change ([xa9; x0b] ++ encode_blocks bs ++ tail) with buf in H.
  change (length [xa9; x0b]) with 2%nat in H. rewrite H by lia. clear H.
  destruct Htail as [-> | (t & rest & -> & Hk)].
  - rewrite parse_blocks_end; [done|].
    unfold buf. rewrite app_nil_r. simpl. lia.
  - rewrite parse_blocks_unfold by lia.
    rewrite decide_True.
    2:{ unfold buf. simpl. rewrite length_app. simpl. lia. }
    unfold buf.
    change (xa9 :: x0b :: encode_blocks bs ++ t :: rest)
      with ((xa9 :: x0b :: encode_blocks bs) ++ t :: rest).
    change (2 + length (encode_blocks bs))%nat with (length (xa9 :: x0b :: encode_blocks bs)).
    rewrite (parse_block_unknown _ t rest _ Hk).
    cbv beta iota delta [mbind outcome_bind].
    rewrite parse_blocks_end; done.
Qed.

Lemma decodeShelly_throws input e :
  decodeShellyManufacturerData input = Throw e -> e = RangeError_bounds.
Proof.
  unfold decodeShellyManufacturerData. case_decide; [done|].
  set (buf := match input with InputBuffer b => b | InputString s => _ end).
  unfold readUInt16LE. destruct (readUIntLE buf 0 2) as [cid|] eqn:Hcid; simpl.
  - destruct (negb (cid =? 2985)); [done|].
    destruct (parse_blocks _ _ _ _) eqn:Hp; simpl; [done|].
    intros [= <-]. apply parse_blocks_throws in Hp; [done | lia].
  - intros [= <-]. eauto using readUIntLE_throws.
Qed.

Lemma parse_blocks_prefix bs :
  Forall complete_block bs ->
  parse_blocks (length (xa9 :: x0b :: encode_blocks bs)) (xa9 :: x0b :: encode_blocks bs) 2
    shelly_init
  = Ok (run_blocks shelly_init bs).
Proof.
  intros Hbs.
  pose proof (parse_blocks_blocks (length (xa9 :: x0b :: encode_blocks bs))
                [xa9; x0b] bs [] shelly_init Hbs) as H.
  rewrite app_nil_r in H.
  change ([xa9; x0b] ++ encode_blocks bs) with (xa9 :: x0b :: encode_blocks bs) in H.
  change (length [xa9; x0b]) with 2%nat in H.
  rewrite H by lia. apply parse_blocks_end. simpl. lia.
Qed.

(** C8: after the company id and any number of complete blocks, a block
    type other than 0x01, 0x0B and 0x0A ends the parsing: the result is
    the one accumulated from the blocks before it (what the loop returns
    on the buffer cut before that byte), whatever the bytes that follow. *)
Theorem decodeShelly_unknown_block bs t rest :
  Forall complete_block bs -> ~ known_block_type (u8 t) ->
  (10 <= length (xa9 :: x0b :: encode_blocks bs ++ t :: rest))%nat ->
  exists r,
    parse_blocks (length (xa9 :: x0b :: encode_blocks bs))
      (xa9 :: x0b :: encode_blocks bs) 2 shelly_init = Ok r
    /\ decodeShellyManufacturerData
         (InputBuffer (xa9 :: x0b :: encode_blocks bs ++ t :: rest)) = Ok (Some r).
Proof.
  intros Hbs Hk Hlen. exists (run_blocks shelly_init bs). split.
  - by apply parse_blocks_prefix.
  - apply decodeShelly_blocks; eauto.
Qed.

Lemma decodeShelly_unknown_block_witness :
  Forall complete_block [{| btype := x01; bdata := [x05; x00] |};
                         {| btype := x0b; bdata := [x01; x00] |}]
  /\ ~ known_block_type (u8 x07)
  /\ (10 <= length (xa9 :: x0b :: encode_blocks [{| btype := x01; bdata := [x05; x00] |};
                                                 {| btype := x0b; bdata := [x01; x00] |}]
                        ++ x07 :: [x0a; x01]))%nat
  /\ exists r,
       parse_blocks
         (length (xa9 :: x0b :: encode_blocks [{| btype := x01; bdata := [x05; x00] |};
                                               {| btype := x0b; bdata := [x01; x00] |}]))
         (xa9 :: x0b :: encode_blocks [{| btype := x01; bdata := [x05; x00] |};
                                       {| btype := x0b; bdata := [x01; x00] |}]) 2 shelly_init
       = Ok r
       /\ decodeShellyManufacturerData
            (InputBuffer (xa9 :: x0b :: encode_blocks [{| btype := x01; bdata := [x05; x00] |};
                                                       {| btype := x0b; bdata := [x01; x00] |}]
                            ++ x07 :: [x0a; x01])) = Ok (Some r).
Proof.
  assert (Forall complete_block [{| btype := x01; bdata := [x05; x00] |};
                                 {| btype := x0b; bdata := [x01; x00] |}]) as Hbs.
  { apply Forall_cons_2; [left; split; reflexivity|].
    apply Forall_cons_2; [right; left; split; reflexivity|]. apply Forall_nil_2. }
  assert (~ known_block_type (u8 x07)) as Hk.
  { intros [H | [H | H]]; discriminate H. }
  split; [exact Hbs|]. split; [exact Hk|]. split; [simpl; lia|].
  apply (decodeShelly_unknown_block _ x07 [x0a; x01] Hbs Hk). simpl. lia.
Defined.

(** C5, the claim as stated fails: a buffer of ten bytes with the
    company id whose last byte opens a flags block throws, because the
    two bytes of the flags are past the end. *)
Lemma decodeShelly_truncated_throws :
  (10 <= length [xa9; x0b; x0a; x11; x22; x33; x44; x55; x66; x01])%nat
  /\ le_value (take 2 [xa9; x0b; x0a; x11; x22; x33; x44; x55; x66; x01]) = 0x0ba9
  /\ decodeShellyManufacturerData
       (InputBuffer [xa9; x0b; x0a; x11; x22; x33; x44; x55; x66; x01])
     = Throw RangeError_bounds.
Proof. split; [simpl; lia|]. split; vm_compute; reflexivity. Qed.

Lemma decodeShelly_null_iff buf :
  decodeShellyManufacturerData (InputBuffer buf) = Ok None
  <-> (length buf < 10)%nat \/ le_value (take 2 buf) <> 0x0ba9.
Proof.
  unfold decodeShellyManufacturerData. cbn [input_length].
  destruct (decide (length buf < 10)%nat) as [Hlt|Hge]; [by intuition|].
  assert (readUInt16LE buf 0 = Ok (le_value (take 2 buf))) as ->.
  { unfold readUInt16LE, readUIntLE. rewrite decide_True by lia.
    rewrite decide_True by (simpl; lia). unfold slice. by rewrite drop_0. }
  cbn [mbind outcome_bind].
  destruct (Z.eqb_spec (le_value (take 2 buf)) 2985) as [Heq|Hne]; cbn [negb].
  - split; [|intros [?|?]; [lia|done]].
    destruct (parse_blocks _ _ _ _); simpl; discriminate.
  - split; [by right | done].
Qed.

(** C5, amended, for a Buffer input: the result is null exactly when the
    buffer has fewer than 10 bytes or its first two bytes, little-endian,
    are not 0x0BA9; it is a non-null result when the company id is
    followed by complete blocks and then nothing or a block of another
    type; and the only exception ever thrown, for either kind of input,
    is the RangeError of a Buffer read past the end (a flags or model-id
    block cut short). *)
Theorem decodeShelly_outcomes buf bs tail :
  Forall complete_block bs ->
  (tail = [] \/ exists t rest, tail = t :: rest /\ ~ known_block_type (u8 t)) ->
  (10 <= length (xa9 :: x0b :: encode_blocks bs ++ tail))%nat ->
  (exists r, decodeShellyManufacturerData
               (InputBuffer (xa9 :: x0b :: encode_blocks bs ++ tail)) = Ok (Some r))
  /\ (decodeShellyManufacturerData (InputBuffer buf) = Ok None
      <-> (length buf < 10)%nat \/ le_value (take 2 buf) <> 0x0ba9)
  /\ (forall input e, decodeShellyManufacturerData input = Throw e -> e = RangeError_bounds).
Proof.
  intros Hbs Htail Hlen. split; [|split].
  - eexists. by apply decodeShelly_blocks.
  - apply decodeShelly_null_iff.
  - apply decodeShelly_throws.
Qed.

Lemma decodeShelly_outcomes_witness :
  Forall complete_block [{| btype := x0a; bdata := [x11; x22; x33; x44; x55; x66] |};
                         {| btype := x01; bdata := [x05; x00] |}]
  /\ (@nil byte = [] \/ exists t rest, @nil byte = t :: rest /\ ~ known_block_type (u8 t))
  /\ (10 <= length (xa9 :: x0b
                      :: encode_blocks [{| btype := x0a;
                                           bdata := [x11; x22; x33; x44; x55; x66] |};
                                        {| btype := x01; bdata := [x05; x00] |}] ++ []))%nat
  /\ (exists r, decodeShellyManufacturerData
                  (InputBuffer (xa9 :: x0b
                                  :: encode_blocks [{| btype := x0a;
                                                       bdata := [x11; x22; x33; x44; x55; x66] |};
                                                    {| btype := x01; bdata := [x05; x00] |}]
                                  ++ [])) = Ok (Some r))
  /\ (decodeShellyManufacturerData (InputBuffer [xa9; x0b; x01]) = Ok None
      <-> (length [xa9; x0b; x01] < 10)%nat \/ le_value (take 2 [xa9; x0b; x01]) <> 0x0ba9)
  /\ (forall input e, decodeShellyManufacturerData input = Throw e -> e = RangeError_bounds).
Proof.
  assert (Forall complete_block [{| btype := x0a; bdata := [x11; x22; x33; x44; x55; x66] |};
                                 {| btype := x01; bdata := [x05; x00] |}]) as Hbs.
  { apply Forall_cons_2; [right; right; split; reflexivity|].
    apply Forall_cons_2; [left; split; reflexivity|]. apply Forall_nil_2. }
  split; [exact Hbs|]. split; [by left|]. split; [simpl; lia|].
  apply (decodeShelly_outcomes [xa9; x0b; x01] _ [] Hbs (or_introl eq_refl)). simpl. lia.
Defined.

(** ** Invariants of the decoding loop on any buffer *)

Lemma decode_value_not_bool spec buf off v off' b :
  shape spec -> decode_value spec buf off = Ok (v, off') -> v <> VBool b.
Proof.
  intros Hs. destruct Hs as [nm w sg f d Hw Hd Hr | nm w p Hp].
  - unfold decode_value; simpl.
    destruct (if sg then _ else _); simpl; [|done].
    destruct (toFixed _ _); simpl; [|done]. by intros [= <- _].
  - destruct Hp; unfold decode_value; simpl.
    + destruct (readUInt8 buf off); simpl; [|done]. by intros [= <- _].
    + destruct (readUInt8 buf off); simpl; [|done]. by intros [= <- _].
    + unfold parse_button. destruct (readUInt8 buf off); simpl; [|done]. by intros [= <- _].
    + unfold parse_dimmer. destruct (readUInt8 buf off); simpl; [|done].
      destruct (readUInt8 buf (off + 1)); simpl; [|done]. by intros [= <- _].
    + unfold parse_timestamp. destruct (readUInt32LE buf off); simpl; [|done].
      destruct (toISOString _); simpl; [|done]. by intros [= <- _].
    + by intros [= <- _].
    + by intros [= <- _].
Qed.

(** Where an entry of the readings after [store] comes from. *)
Lemma store_lookup spec id ids rd v key w :
  store spec id ids rd v !! key = Some w ->
  (w = v /\ (key = name spec
             \/ ((1 < occurrences id ids)%nat
                 /\ key = (name spec ++ ":" ++ show (Z.of_nat (occurrences id ids)))%string)))
  \/ rd !! key = Some w
  \/ (rd !! name spec = Some w /\ key = (name spec ++ ":1")%string).
Proof.
  unfold store. case_decide as Hc.
  - intros [[<- <-] | [Hne H]]%lookup_insert_Some; [left; eauto|].
    destruct (rd !! name spec) as [first|] eqn:Hfirst; [|by right; left].
    apply lookup_delete_Some in H as [Hne' H].
    apply lookup_insert_Some in H as [[<- <-] | [_ H]]; [by right; right|by right; left].
  - intros [[<- <-] | [Hne H]]%lookup_insert_Some; [left; eauto | by right; left].
Qed.

Lemma iteration_readings_from buf st c st' :
  (1 <= Loop.offset st)%nat ->
  readings_from buf (Loop.readings st) ->
  iteration buf st = Ok (c, st') ->
  readings_from buf (Loop.readings st').
Proof.
  intros Ho Hinv. unfold iteration, readUInt8.
  destruct (buf !! Loop.offset st) as [idb|] eqn:Hid; simpl; [|done].
  destruct (BTHOME_SPEC (u8 idb)) as [spec|] eqn:Hspec; [|by intros [= _ <-]].
  destruct (decode_value spec buf (S (Loop.offset st))) as [[v off']|] eqn:Hv; simpl; [|done].
  intros [= _ <-]; simpl. intros key w Hw.
  assert (forall b, v <> VBool b) as Hnb.
  { intros b. eapply decode_value_not_bool; eauto using BTHOME_SPEC_shape. }
  apply store_lookup in Hw as [[-> Hkey] | [Hw | [Hw ->]]].
  - split; [done|]. exists (Loop.offset st), idb, spec. repeat split; try done.
    destruct Hkey as [-> | [Hc ->]]; [by left|].
    right. eexists. split; [|done]. lia.
  - by apply Hinv.
  - split; [by apply (Hinv _ _ Hw)|].
    exists (Loop.offset st), idb, spec. repeat split; try done.
    right. exists 1%nat. split; [lia | done].
Qed.

Lemma decode_loop_readings_from fuel buf st st' :
  (1 <= Loop.offset st)%nat ->
  readings_from buf (Loop.readings st) ->
  decode_loop fuel buf st = Ok st' ->
  readings_from buf (Loop.readings st').
Proof.
  revert st. induction fuel as [|fuel IH]; intros st Ho Hinv; simpl;
    case_decide; try done; try by intros [= <-].
  destruct (iteration buf st) as [[c st1]|] eqn:Hit; simpl; [|done].
  pose proof (iteration_readings_from _ _ _ _ Ho Hinv Hit) as Hinv1.
  destruct c; [|by intros [= <-]].
  apply IH; [|done]. apply iteration_progress in Hit. lia.
Qed.

Lemma decodeBTHome_loop buf r :
  decodeBTHome buf = Ok r ->
  exists st, decode_loop (length buf) buf loop_init = Ok st
             /\ readings r = Loop.readings st /\ unknown r = Loop.unknown st.
Proof.
  unfold decodeBTHome. destruct (readUInt8 buf 0); simpl; [|done].
  fold loop_init. destruct (decode_loop _ _ _) as [st|]; simpl; [|done].
  intros [= <-]. eauto.
Qed.

Lemma decodeBTHome_readings_from buf r :
  decodeBTHome buf = Ok r -> readings_from buf (readings r).
Proof.
  intros (st & Hloop & -> & _)%decodeBTHome_loop.
  eapply decode_loop_readings_from; [| |exact Hloop]; [simpl; lia|].
  intros key v. simpl. by rewrite lookup_empty.
Qed.

(** X1: whatever the buffer, every key of the readings is the name of
    the descriptor of an id byte found in the buffer after the header,
    alone or followed by [:] and a count of 1 or more. *)
Theorem decodeBTHome_keys buf r key v :
  decodeBTHome buf = Ok r -> readings r !! key = Some v ->
  exists k id spec,
    (1 <= k)%nat /\ buf !! k = Some id /\ BTHOME_SPEC (u8 id) = Some spec
    /\ (key = name spec
        \/ exists n : nat, (1 <= n)%nat
                           /\ key = (name spec ++ ":" ++ show (Z.of_nat n))%string).
Proof.
  intros Hdec Hkey. by destruct (decodeBTHome_readings_from _ _ Hdec _ _ Hkey) as [_ H].
Qed.

Lemma decodeBTHome_keys_witness :
  decodeBTHome [x40; x01; x0a; x01; x14]
  = Ok (header_result x40 (<["battery:2"%string := VNum 20]>
                             {["battery:1"%string := VNum 10]}) [])
  /\ readings (header_result x40 (<["battery:2"%string := VNum 20]>
                                    {["battery:1"%string := VNum 10]}) [])
     !! "battery:2"%string = Some (VNum 20)
  /\ exists k id spec,
       (1 <= k)%nat /\ [x40; x01; x0a; x01; x14] !! k = Some id
       /\ BTHOME_SPEC (u8 id) = Some spec
       /\ ("battery:2"%string = name spec
           \/ exists n : nat, (1 <= n)%nat
                /\ "battery:2"%string = (name spec ++ ":" ++ show (Z.of_nat n))%string).
Proof.
  assert (decodeBTHome [x40; x01; x0a; x01; x14]
          = Ok (header_result x40 (<["battery:2"%string := VNum 20]>
                                     {["battery:1"%string := VNum 10]}) [])) as Hdec.
  { vm_compute. reflexivity. }
  assert (readings (header_result x40 (<["battery:2"%string := VNum 20]>
                                         {["battery:1"%string := VNum 10]}) [])
          !! "battery:2"%string = Some (VNum 20)) as Hkey.
  { vm_compute. reflexivity. }
  split; [exact Hdec|]. split; [exact Hkey|].
  exact (decodeBTHome_keys _ _ _ _ Hdec Hkey).
Defined.

(** X2: whatever the buffer, no reading is a boolean: the binary
    sensors (door, motion, ...) are reported as numbers like every
    generic field, the custom parsers give strings or an object. *)
Theorem decodeBTHome_no_boolean buf r key v :
  decodeBTHome buf = Ok r -> readings r !! key = Some v ->
  match v with
  | VBool _ => False
  | VNum _ | VStr _ | VObj _ => True
  end.
Proof.
  intros Hdec Hkey. destruct (decodeBTHome_readings_from _ _ Hdec _ _ Hkey) as [H _].
  destruct v; try done. by apply (H b).
Qed.

Lemma decodeBTHome_no_boolean_witness :
  decodeBTHome [x40; x21; x01] = Ok (header_result x40 {[ "motionState"%string := VNum 1 ]} [])
  /\ readings (header_result x40 {[ "motionState"%string := VNum 1 ]} [])
     !! "motionState"%string = Some (VNum 1)
  /\ True.
Proof.
  assert (decodeBTHome [x40; x21; x01]
          = Ok (header_result x40 {[ "motionState"%string := VNum 1 ]} [])) as Hdec.
  { vm_compute. reflexivity. }
  assert (readings (header_result x40 {[ "motionState"%string := VNum 1 ]} [])
          !! "motionState"%string = Some (VNum 1)) as Hkey.
  { vm_compute. reflexivity. }
  split; [exact Hdec|]. split; [exact Hkey|].
  exact (decodeBTHome_no_boolean _ _ _ _ Hdec Hkey).
Defined.

Lemma decode_loop_unknown fuel buf st st' :
  Loop.unknown st = [] ->
  decode_loop fuel buf st = Ok st' ->
  (Loop.unknown st' = [] /\ (length buf <= Loop.offset st')%nat)
  \/ exists k id,
       (Loop.offset st <= k)%nat /\ buf !! k = Some id /\ BTHOME_SPEC (u8 id) = None
       /\ Loop.unknown st' = [unknown_entry (u8 id) (drop k buf)].
Proof.
  revert st. induction fuel as [|fuel IH]; intros st Hu; simpl; case_decide; try done;
    try (intros [= <-]; left; split; [done | lia]).
  destruct (iteration buf st) as [[c st1]|] eqn:Hit; simpl; [|done].
  pose proof (iteration_progress _ _ _ _ Hit) as Hprog.
  revert Hit. unfold iteration, readUInt8.
  destruct (buf !! Loop.offset st) as [idb|] eqn:Hid; simpl; [|done].
  destruct (BTHOME_SPEC (u8 idb)) as [spec|] eqn:Hspec.
  - destruct (decode_value spec buf (S (Loop.offset st))) as [[v off']|]; simpl; [|done].
    intros [= <- <-] Hloop. apply IH in Hloop; [|done].
    destruct Hloop as [Hl | (k & id & Hk & Hl)]; [by left|].
    right. exists k, id. split; [simpl in *; lia | done].
  - intros [= <- <-] [= <-]. right. exists (Loop.offset st), idb.
    simpl. rewrite Hu, Nat.sub_0_r. done.
Qed.

(** X3: whatever the buffer, the unknown list of a result is empty or
    holds exactly one entry: the tag and hex dump made at an id byte,
    after the header, that is not in the table, covering that byte and
    every byte after it. *)
Theorem decodeBTHome_unknown_shape buf r :
  decodeBTHome buf = Ok r ->
  unknown r = []
  \/ exists k id,
       (1 <= k)%nat /\ buf !! k = Some id /\ BTHOME_SPEC (u8 id) = None
       /\ unknown r = [("0x" ++ toString_radix 16 (u8 id) ++ " → 0x"
                        ++ toString_hex (drop k buf))%string].
Proof.
  intros (st & Hloop & _ & ->)%decodeBTHome_loop.
  apply decode_loop_unknown in Hloop; [|done].
  destruct Hloop as [[H _] | (k & id & Hk & H)]; [by left|].
  right. exists k, id. done.
Qed.

Lemma decodeBTHome_unknown_shape_witness :
  decodeBTHome [x40; x01; x64; x12; xab]
  = Ok (header_result x40 {[ "battery"%string := VNum 100 ]} ["0x12 → 0x12ab"%string])
  /\ (unknown (header_result x40 {[ "battery"%string := VNum 100 ]} ["0x12 → 0x12ab"%string])
      = []
      \/ exists k id,
           (1 <= k)%nat /\ [x40; x01; x64; x12; xab] !! k = Some id
           /\ BTHOME_SPEC (u8 id) = None
           /\ unknown (header_result x40 {[ "battery"%string := VNum 100 ]}
                         ["0x12 → 0x12ab"%string])
              = [("0x" ++ toString_radix 16 (u8 id) ++ " → 0x"
                  ++ toString_hex (drop k [x40; x01; x64; x12; xab]))%string]).
Proof.
  assert (decodeBTHome [x40; x01; x64; x12; xab]
          = Ok (header_result x40 {[ "battery"%string := VNum 100 ]}
                  ["0x12 → 0x12ab"%string])) as Hdec.
  { vm_compute. reflexivity. }
  split; [exact Hdec|].
  exact (decodeBTHome_unknown_shape _ _ Hdec).
Defined.

(** ** Fields cut short *)

Lemma decode_value_generic_short spec short w :
  shape spec -> parser spec = None -> bytes spec = Some w -> (length short < w)%nat ->
  decode_value spec short 0 = Throw RangeError_bounds.
Proof.
  intros Hs Hp Hb Hlen. destruct Hs as [nm w' sg f d Hw Hd Hr | nm w' p' Hp']; [|done].
  simpl in Hb. injection Hb as ->.
  unfold decode_value; simpl. unfold readIntLE, readUIntLE.
  rewrite decide_True by done. rewrite decide_False by (simpl; lia).
  by destruct sg.
Qed.

Lemma iteration_short pre idb short spec st e :
  BTHOME_SPEC (u8 idb) = Some spec -> Loop.offset st = length pre ->
  decode_value spec short 0 = Throw e ->
  iteration (pre ++ idb :: short) st = Throw e.
Proof.
  intros Hspec Hoff Hv. unfold iteration.
  rewrite Hoff, readUInt8_drop0, drop_app_length. simpl. rewrite Hspec.
  rewrite (decode_value_drop spec) by eauto using BTHOME_SPEC_shape.
  by rewrite drop_S_app_cons, Hv.
Qed.

Lemma decodeBTHome_fields_throw h fs idb short spec e :
  Forall well_formed fs -> BTHOME_SPEC (u8 idb) = Some spec ->
  decode_value spec short 0 = Throw e ->
  decodeBTHome (h :: encode_all fs ++ idb :: short) = Throw e.
Proof.
  intros Hfs Hspec Hv. rewrite (decodeBTHome_stream h fs _ Hfs).
  assert (Loop.offset (run_fields loop_init fs) = length (h :: encode_all fs)) as Hoff.
  { rewrite (run_fields_offset _ _ Hfs). simpl. lia. }
  rewrite decode_loop_unfold by lia.
  rewrite decide_True.
  2:{ rewrite Hoff. cbn [length]. rewrite length_app. cbn [length]. lia. }
  rewrite (app_comm_cons (encode_all fs)).
  by rewrite (iteration_short (h :: encode_all fs) idb short spec _ e Hspec Hoff Hv).
Qed.

(** X4: a generic fixed-width field whose payload is shorter than the
    declared width makes the decoder throw the RangeError of the Buffer
    read, also when complete fields come before it: their readings are
    not returned. *)
Theorem decodeBTHome_truncated_generic h fs idb short spec w :
  Forall well_formed fs ->
  BTHOME_SPEC (u8 idb) = Some spec -> parser spec = None -> bytes spec = Some w ->
  (length short < w)%nat ->
  decodeBTHome (h :: encode_all fs ++ idb :: short) = Throw RangeError_bounds.
Proof.
  intros Hfs Hspec Hp Hb Hlen.
  apply (decodeBTHome_fields_throw h fs idb short spec); [done | done |].
  eapply decode_value_generic_short; eauto using BTHOME_SPEC_shape.
Qed.

Lemma decodeBTHome_truncated_generic_witness :
  Forall well_formed [{| fid := x01; payload := [x64] |}]
  /\ BTHOME_SPEC (u8 x04) = Some (numeric "pressure" 3 false (1 # 100))
  /\ parser (numeric "pressure" 3 false (1 # 100)) = None
  /\ bytes (numeric "pressure" 3 false (1 # 100)) = Some 3%nat
  /\ (length [x13; x8a] < 3)%nat
  /\ decodeBTHome (x40 :: encode_all [{| fid := x01; payload := [x64] |}] ++ x04 :: [x13; x8a])
     = Throw RangeError_bounds.
Proof.
  assert (Forall well_formed [{| fid := x01; payload := [x64] |}]) as Hfs.
  { apply Forall_cons_2; [reflexivity | apply Forall_nil_2]. }
  split; [exact Hfs|]. split; [reflexivity|]. split; [reflexivity|].
  split; [reflexivity|]. split; [simpl; lia|].
  apply (decodeBTHome_truncated_generic x40 _ x04 [x13; x8a]
           (numeric "pressure" 3 false (1 # 100)) 3 Hfs eq_refl eq_refl eq_refl).
  simpl. lia.
Defined.

(** ** Values of single fields *)

Lemma Qred_integer z : Qred (z # 1) = z # 1.
Proof.
  unfold Qred.
  pose proof (Z.ggcd_gcd z 1) as Hg. pose proof (Z.ggcd_correct_divisors z 1) as Hd.
  destruct (Z.ggcd z 1) as [g [aa bb]]; simpl in *.
  rewrite Z.gcd_1_r in Hg. subst g. destruct Hd as [Ha Hb].
  assert (aa = z) as -> by lia. assert (bb = 1) as -> by lia. done.
Qed.

(** X5: for a generic descriptor of scale 1 (battery, counts, every
    binary state sensor, ...) the reading of a complete field is exactly
    the integer read from the payload, two's complement when the
    descriptor is signed: a state byte of 2 to 255 is passed on as it is. *)
Theorem decodeBTHome_integer_scale h idb data spec w :
  BTHOME_SPEC (u8 idb) = Some spec -> parser spec = None ->
  bytes spec = Some w -> factor spec = Some 1%Q -> length data = w ->
  decodeBTHome (h :: idb :: data)
  = Ok (header_result h
          {[ name spec := VNum (inject_Z (raw_integer (default false (signed spec)) data)) ]}
          []).
Proof.
  intros Hspec Hp Hb Hf Hlen.
  destruct (decodeBTHome_generic h idb data spec w Hspec Hp Hb Hlen)
    as (sg & f & d & s & Hshape & Hw & Hd & Hr & _ & _ & Hs & Hdec).
  assert (signed spec = Some sg) as Hsg by (rewrite Hshape; done).
  assert (factor spec = Some f) as Hf' by (rewrite Hshape; done).
  assert (f = 1%Q) as -> by congruence.
  assert (d = 0) as -> by (vm_compute in Hd; congruence).
  rewrite Hdec, Hsg. cbn [default from_option id].
  rewrite (toFixed_scaled (raw_integer sg data) (binary64 1) 0 s); [| lia | | | done].
  - change (Z.to_pos (10 ^ 0)) with 1%positive. by rewrite Qred_integer.
  - apply raw_integer_range. lia.
  - vm_compute. discriminate.
Qed.

Lemma decodeBTHome_integer_scale_witness :
  BTHOME_SPEC (u8 x2d) = Some (numeric "windowState" 1 false 1)
  /\ parser (numeric "windowState" 1 false 1) = None
  /\ bytes (numeric "windowState" 1 false 1) = Some 1%nat
  /\ factor (numeric "windowState" 1 false 1) = Some 1%Q
  /\ length [x07] = 1%nat
  /\ decodeBTHome (x40 :: x2d :: [x07])
     = Ok (header_result x40
             {[ name (numeric "windowState" 1 false 1)
                := VNum (inject_Z (raw_integer
                                     (default false (signed (numeric "windowState" 1 false 1)))
                                     [x07])) ]} []).
Proof.
  split; [reflexivity|]. split; [reflexivity|]. split; [reflexivity|].
  split; [reflexivity|]. split; [reflexivity|].
  exact (decodeBTHome_integer_scale x40 x2d [x07] (numeric "windowState" 1 false 1) 1
           eq_refl eq_refl eq_refl eq_refl eq_refl).
Defined.

Lemma raw_integer_unsigned data : 0 <= raw_integer false data.
Proof. unfold raw_integer. simpl. apply le_value_range. Qed.

Lemma toFixed_nonneg x d s :
  (0 <= x)%Q -> toFixed x (Some d) = Ok s -> (0 <= parseFloat s)%Q.
Proof.
  intros Hx. unfold toFixed. destruct ((d <? 0) || (100 <? d)); [done|].
  intros [= <-]. unfold parseFloat. cbn [negative mantissa decimals].
  assert ((Qnum x <? 0) = false) as ->.
  { apply Z.ltb_ge. unfold Qle in Hx. simpl in Hx. lia. }
  set (t := (Qabs x * inject_Z (10 ^ d) + (1 # 2))%Q).
  assert (0 <= Qfloor t) as Hm.
  { change 0 with (Qfloor 0). apply Qfloor_resp_le.
    assert (0 <= Qabs x * inject_Z (10 ^ d))%Q as H0.
    { apply Qmult_le_0_compat; [apply Qabs_nonneg|].
      rewrite <- (Zle_Qle 0). apply Z.pow_nonneg. lia. }
    unfold t. lra. }
  rewrite Qred_correct. unfold Qle.
  change (0 * Z.pos (Z.to_pos (10 ^ d)) <= Qfloor t * 1). lia.
Qed.

(** X6: a complete field of an unsigned generic descriptor never gives a
    negative reading. *)
Theorem decodeBTHome_unsigned_nonneg h idb data spec w :
  BTHOME_SPEC (u8 idb) = Some spec -> parser spec = None ->
  bytes spec = Some w -> signed spec = Some false -> length data = w ->
  exists q,
    decodeBTHome (h :: idb :: data) = Ok (header_result h {[ name spec := VNum q ]} [])
    /\ (0 <= q)%Q.
Proof.
  intros Hspec Hp Hb Hsg Hlen.
  destruct (decodeBTHome_generic h idb data spec w Hspec Hp Hb Hlen)
    as (sg & f & d & s & Hshape & Hw & Hd & Hr & Hf0 & _ & Hs & Hdec).
  assert (signed spec = Some sg) as Hsg' by (rewrite Hshape; done).
  assert (sg = false) as -> by congruence.
  exists (parseFloat s). split; [done|].
  refine (toFixed_nonneg _ _ _ _ Hs). apply binary64_nonneg.
  apply Qmult_le_0_compat; [|done].
  rewrite <- (Zle_Qle 0). apply raw_integer_unsigned.
Qed.

Lemma decodeBTHome_unsigned_nonneg_witness :
  BTHOME_SPEC (u8 x03) = Some (numeric "humidity" 2 false (1 # 100))
  /\ parser (numeric "humidity" 2 false (1 # 100)) = None
  /\ bytes (numeric "humidity" 2 false (1 # 100)) = Some 2%nat
  /\ signed (numeric "humidity" 2 false (1 # 100)) = Some false
  /\ length [xff; xff] = 2%nat
  /\ exists q,
       decodeBTHome (x40 :: x03 :: [xff; xff])
       = Ok (header_result x40 {[ name (numeric "humidity" 2 false (1 # 100)) := VNum q ]} [])
       /\ (0 <= q)%Q.
Proof.
  split; [reflexivity|]. split; [reflexivity|]. split; [reflexivity|].
  split; [reflexivity|]. split; [reflexivity|].
  exact (decodeBTHome_unsigned_nonneg x40 x03 [xff; xff] (numeric "humidity" 2 false (1 # 100)) 2
           eq_refl eq_refl eq_refl eq_refl eq_refl).
Defined.

(** ** Length-prefixed fields *)

Lemma decode_loop_done fuel buf st :
  (length buf <= Loop.offset st)%nat -> decode_loop fuel buf st = Ok st.
Proof. intros Ho. destruct fuel; simpl; case_decide; try done; lia. Qed.

(** A buffer that holds one length-prefixed field whose declared length
    is at least the number of bytes present. *)
Lemma decodeBTHome_prefixed h idb nm p len data :
  BTHOME_SPEC (u8 idb) = Some (custom nm None p) ->
  (forall buf off, exists v, p buf off = Ok v) ->
  (length data <= Z.to_nat (u8 len))%nat ->
  exists v, p (h :: idb :: len :: data) 2%nat = Ok v
            /\ decodeBTHome (h :: idb :: len :: data) = Ok (header_result h {[ nm := v ]} []).
Proof.
  intros Hspec Hp Hlen. destruct (Hp (h :: idb :: len :: data) 2%nat) as [v Hv].
  exists v. split; [done|].
  rewrite decodeBTHome_cons. cbn [length]. rewrite decode_loop_S.
  rewrite decide_True by (simpl; lia).
  unfold iteration. cbn [loop_init Loop.offset Loop.ids Loop.readings Loop.unknown].
  change (readUInt8 (h :: idb :: len :: data) 1%nat) with (Ok (u8 idb) : outcome Z).
  cbn [mbind outcome_bind]. rewrite Hspec.
  unfold decode_value. cbn [custom parser bytes]. rewrite Hv.
  change (readUInt8 (h :: idb :: len :: data) 2%nat) with (Ok (u8 len) : outcome Z).
  cbn [mbind outcome_bind mret outcome_ret].
  rewrite decode_loop_done by (cbn [Loop.offset length]; lia).
  cbn [mbind outcome_bind mret outcome_ret Loop.readings Loop.unknown].
  do 2 f_equal.
  rewrite store_first; [apply insert_empty|].
  simpl. rewrite occurrences_singleton. by rewrite decide_True.
Qed.

Lemma prefixed_slice h idb len data :
  (length data <= Z.to_nat (u8 len))%nat ->
  slice (h :: idb :: len :: data) (2 + 1)%nat (prefixed_end (h :: idb :: len :: data) 2%nat) = data.
Proof.
  intros Hlen. unfold prefixed_end, slice. simpl.
  rewrite drop_0. apply take_ge. lia.
Qed.

Lemma decodeBTHome_raw_short h len data :
  (length data <= Z.to_nat (u8 len))%nat ->
  decodeBTHome (h :: x54 :: len :: data)
  = Ok (header_result h {[ "raw"%string := VStr (toString_hex data) ]} []).
Proof.
  intros Hlen.
  destruct (decodeBTHome_prefixed h x54 "raw" parse_raw len data eq_refl) as (v & Hv & ->);
    [unfold parse_raw; eauto | done |].
  unfold parse_raw in Hv. rewrite (prefixed_slice h x54 len data Hlen) in Hv.
  by injection Hv as <-.
Qed.

Lemma decodeBTHome_text_short h len data :
  (length data <= Z.to_nat (u8 len))%nat ->
  decodeBTHome (h :: x53 :: len :: data)
  = Ok (header_result h {[ "text"%string := VStr (toString_utf8 data) ]} []).
Proof.
  intros Hlen.
  destruct (decodeBTHome_prefixed h x53 "text" parse_text len data eq_refl) as (v & Hv & ->);
    [unfold parse_text; eauto | done |].
  unfold parse_text in Hv. rewrite (prefixed_slice h x53 len data Hlen) in Hv.
  by injection Hv as <-.
Qed.

Lemma run_fields_ids st fs :
  Forall well_formed fs ->
  Loop.ids (run_fields st fs) = Loop.ids st ++ map (fun f => u8 (fid f)) fs.
Proof.
  intros Hfs. revert st. induction Hfs as [|f fs Hf _ IH]; intros st.
  - by rewrite app_nil_r.
  - rewrite run_fields_cons, IH, (step_field_ids _ _ Hf). by rewrite <- app_assoc.
Qed.

Lemma iteration_value pre idb tail spec st v n :
  BTHOME_SPEC (u8 idb) = Some spec -> Loop.offset st = length pre ->
  decode_value spec tail 0 = Ok (v, n) ->
  iteration (pre ++ idb :: tail) st
  = Ok (true, {| Loop.offset := (S (length pre) + n)%nat;
                 Loop.ids := Loop.ids st ++ [u8 idb];
                 Loop.readings := store spec (u8 idb) (Loop.ids st ++ [u8 idb])
                                    (Loop.readings st) v;
                 Loop.unknown := Loop.unknown st |}).
Proof.
  intros Hspec Hoff Hv. unfold iteration.
  rewrite Hoff, readUInt8_drop0, drop_app_length. simpl. rewrite Hspec.
  rewrite (decode_value_drop spec) by eauto using BTHOME_SPEC_shape.
  by rewrite drop_S_app_cons, Hv.
Qed.

(** After complete fields, a last field whose value is decoded and whose
    end offset is at or past the end of the buffer: the loop stores the
    value and stops. *)
Lemma decodeBTHome_last_field h fs idb tail spec v n :
  Forall well_formed fs -> BTHOME_SPEC (u8 idb) = Some spec ->
  decode_value spec tail 0 = Ok (v, n) -> (length tail <= n)%nat ->
  exists r0,
    decodeBTHome (h :: encode_all fs) = Ok r0
    /\ decodeBTHome (h :: encode_all fs ++ idb :: tail)
       = Ok {| version := version r0; encrypted := encrypted r0; trigger := trigger r0;
               readings := store spec (u8 idb) (map (fun f => u8 (fid f)) fs ++ [u8 idb])
                             (readings r0) v;
               unknown := [] |}.
Proof.
  intros Hfs Hspec Hv Hlen. eexists. split; [by apply decodeBTHome_fields|].
  rewrite (decodeBTHome_stream h fs _ Hfs).
  assert (Loop.offset (run_fields loop_init fs) = length (h :: encode_all fs)) as Hoff.
  { rewrite (run_fields_offset _ _ Hfs). simpl. lia. }
  rewrite decode_loop_unfold by lia.
  rewrite decide_True.
  2:{ rewrite Hoff. cbn [length]. rewrite length_app. cbn [length]. lia. }
  rewrite (app_comm_cons (encode_all fs)).
  rewrite (iteration_value (h :: encode_all fs) idb tail spec _ v n Hspec Hoff Hv).
  cbn [mbind outcome_bind].
  rewrite decode_loop_done.
  2:{ cbn [Loop.offset]. rewrite length_app. cbn [length]. lia. }
  cbn [mret outcome_ret Loop.readings Loop.unknown].
  rewrite run_fields_unknown, (run_fields_ids _ _ Hfs). done.
Qed.

(** X7: for the two length-prefixed ids the declared length is only an
    upper bound: when the buffer ends before it, also after complete
    fields, nothing is thrown; the loop stores, as lines 102-114 do for
    any value, the string made of the bytes that are there (hex for
    [raw], UTF-8 text for [text]) and the decoding ends. *)
Theorem decodeBTHome_length_prefixed h fs len data :
  Forall well_formed fs -> (length data <= Z.to_nat (u8 len))%nat ->
  exists r0,
    decodeBTHome (h :: encode_all fs) = Ok r0
    /\ decodeBTHome (h :: encode_all fs ++ x54 :: len :: data)
       = Ok {| version := version r0; encrypted := encrypted r0; trigger := trigger r0;
               readings := store (custom "raw" None parse_raw) (u8 x54)
                             (map (fun f => u8 (fid f)) fs ++ [u8 x54])
                             (readings r0) (VStr (toString_hex data));
               unknown := [] |}
    /\ decodeBTHome (h :: encode_all fs ++ x53 :: len :: data)
       = Ok {| version := version r0; encrypted := encrypted r0; trigger := trigger r0;
               readings := store (custom "text" None parse_text) (u8 x53)
                             (map (fun f => u8 (fid f)) fs ++ [u8 x53])
                             (readings r0) (VStr (toString_utf8 data));
               unknown := [] |}.
Proof.
  intros Hfs Hlen.
  assert (slice (len :: data) 1 (prefixed_end (len :: data) 0) = data) as Hslice.
  { unfold prefixed_end, slice. simpl. rewrite drop_0. apply take_ge. lia. }
  destruct (decodeBTHome_last_field h fs x54 (len :: data) (custom "raw" None parse_raw)
              (VStr (toString_hex data)) (1 + Z.to_nat (u8 len)) Hfs eq_refl)
    as (r0 & Hr0 & Hraw).
  { unfold decode_value, parse_raw. cbn [custom parser bytes].
    change (0 + 1)%nat with 1%nat. by rewrite Hslice. }
  { cbn [length]. lia. }
  destruct (decodeBTHome_last_field h fs x53 (len :: data) (custom "text" None parse_text)
              (VStr (toString_utf8 data)) (1 + Z.to_nat (u8 len)) Hfs eq_refl)
    as (r0' & Hr0' & Htext).
  { unfold decode_value, parse_text. cbn [custom parser bytes].
    change (0 + 1)%nat with 1%nat. by rewrite Hslice. }
  { cbn [length]. lia. }
  assert (r0' = r0) as -> by congruence.
  exists r0. by repeat split.
Qed.

Lemma decodeBTHome_length_prefixed_witness :
  Forall well_formed [{| fid := x01; payload := [x64] |}]
  /\ (length [xde; xad] <= Z.to_nat (u8 x05))%nat
  /\ decodeBTHome (x40 :: encode_all [{| fid := x01; payload := [x64] |}]
                       ++ x54 :: x05 :: [xde; xad])
     = Ok (header_result x40 (<["raw"%string := VStr "dead"]>
                                {["battery"%string := VNum 100]}) [])
  /\ exists r0,
       decodeBTHome (x40 :: encode_all [{| fid := x01; payload := [x64] |}]) = Ok r0
       /\ decodeBTHome (x40 :: encode_all [{| fid := x01; payload := [x64] |}]
                            ++ x54 :: x05 :: [xde; xad])
          = Ok {| version := version r0; encrypted := encrypted r0; trigger := trigger r0;
                  readings := store (custom "raw" None parse_raw) (u8 x54)
                                (map (fun f => u8 (fid f))
                                     [{| fid := x01; payload := [x64] |}] ++ [u8 x54])
                                (readings r0) (VStr (toString_hex [xde; xad]));
                  unknown := [] |}
       /\ decodeBTHome (x40 :: encode_all [{| fid := x01; payload := [x64] |}]
                            ++ x53 :: x05 :: [xde; xad])
          = Ok {| version := version r0; encrypted := encrypted r0; trigger := trigger r0;
                  readings := store (custom "text" None parse_text) (u8 x53)
                                (map (fun f => u8 (fid f))
                                     [{| fid := x01; payload := [x64] |}] ++ [u8 x53])
                                (readings r0) (VStr (toString_utf8 [xde; xad]));
                  unknown := [] |}.
Proof.
  assert (Forall well_formed [{| fid := x01; payload := [x64] |}]) as Hfs.
  { apply Forall_cons_2; [reflexivity | apply Forall_nil_2]. }
  assert (length [xde; xad] <= Z.to_nat (u8 x05))%nat as Hlen by (vm_compute; lia).
  split; [exact Hfs|]. split; [exact Hlen|]. split; [vm_compute; reflexivity|].
  exact (decodeBTHome_length_prefixed x40 _ x05 [xde; xad] Hfs Hlen).
Defined.

Lemma utf8_go_ascii data :
  Forall (fun b => u8 b < 0x80) data -> utf8_go data utf8_idle = data.
Proof.
  induction 1 as [|b data Hb _ IH]; [done|].
  cbn [utf8_go needed utf8_idle]. unfold utf8_lead.
  assert ((u8 b <? 128) = true) as -> by lia.
  cbn [app]. fold utf8_idle. by rewrite IH.
Qed.

(** X8: a complete text field (id 0x53) whose bytes are all ASCII decodes
    to the string of exactly those characters. *)
Theorem decodeBTHome_text_ascii h len data :
  length data = Z.to_nat (u8 len) -> Forall (fun b => u8 b < 0x80) data ->
  decodeBTHome (h :: x53 :: len :: data)
  = Ok (header_result h {[ "text"%string := VStr (string_of_list_byte data) ]} []).
Proof.
  intros Hlen Hascii.
  rewrite decodeBTHome_text_short by lia.
  unfold toString_utf8. by rewrite utf8_go_ascii.
Qed.

Lemma decodeBTHome_text_ascii_witness :
  length [x68; x65; x6c; x6c; x6f] = Z.to_nat (u8 x05)
  /\ Forall (fun b => u8 b < 0x80) [x68; x65; x6c; x6c; x6f]
  /\ decodeBTHome (x40 :: x53 :: x05 :: [x68; x65; x6c; x6c; x6f])
     = Ok (header_result x40
             {[ "text"%string := VStr (string_of_list_byte [x68; x65; x6c; x6c; x6f]) ]} []).
Proof.
  assert (Forall (fun b => u8 b < 0x80) [x68; x65; x6c; x6c; x6f]) as Hascii.
  { repeat (apply Forall_cons_2; [vm_compute; reflexivity|]). apply Forall_nil_2. }
  split; [reflexivity|]. split; [exact Hascii|].
  exact (decodeBTHome_text_ascii x40 x05 [x68; x65; x6c; x6c; x6f] eq_refl Hascii).
Defined.

(** ** Hex rendering and hex parsing *)

Lemma hex2_unhex b :
  exists c1 c2 hi lo,
    hex2 b = String c1 (String c2 EmptyString)
    /\ unhex c1 = Some hi /\ unhex c2 = Some lo /\ byte_of_Z (16 * hi + lo) = b
    /\ is_whitespace c1 = false /\ is_whitespace c2 = false.
Proof.
  destruct b; do 4 eexists; (split; [vm_compute; reflexivity|]);
    repeat split; vm_compute; reflexivity.
Qed.

Lemma string_app_nil_r (s : string) : (s ++ "")%string = s.
Proof.
  induction s as [|c s IH]; [done|].
  change (String c (s ++ "")%string = String c s). by rewrite IH.
Qed.

Lemma toString_hex_cons b bs :
  toString_hex (b :: bs) = (hex2 b ++ toString_hex bs)%string.
Proof.
  unfold toString_hex. destruct bs as [|b' bs]; [|done].
  change (hex2 b = (hex2 b ++ "")%string). by rewrite string_app_nil_r.
Qed.

(** [Buffer.from(s, 'hex')] undoes [buf.toString('hex')]. *)
Lemma Buffer_from_hex_toString_hex buf : Buffer_from_hex (toString_hex buf) = buf.
Proof.
  induction buf as [|b buf IH]; [done|].
  rewrite toString_hex_cons.
  destruct (hex2_unhex b) as (c1 & c2 & hi & lo & -> & Hhi & Hlo & Hb & _).
  change (Buffer_from_hex (String c1 (String c2 (toString_hex buf))) = b :: buf).
  cbn [Buffer_from_hex]. by rewrite Hhi, Hlo, Hb, IH.
Qed.

Lemma toString_hex_length buf : String.length (toString_hex buf) = (2 * length buf)%nat.
Proof.
  induction buf as [|b buf IH]; [done|].
  rewrite toString_hex_cons.
  destruct (hex2_unhex b) as (c1 & c2 & hi & lo & -> & _).
  change (String.length (String c1 (String c2 (toString_hex buf))) = (2 * length (b :: buf))%nat).
  cbn [String.length length]. rewrite IH. lia.
Qed.

Lemma strip_whitespace_toString_hex buf :
  strip_whitespace (toString_hex buf) = toString_hex buf.
Proof.
  induction buf as [|b buf IH]; [done|].
  rewrite toString_hex_cons.
  destruct (hex2_unhex b) as (c1 & c2 & hi & lo & -> & _ & _ & _ & Hw1 & Hw2).
  change (strip_whitespace (String c1 (String c2 (toString_hex buf)))
          = String c1 (String c2 (toString_hex buf))).
  cbn [strip_whitespace]. by rewrite Hw1, Hw2, IH.
Qed.

(** X9: the reading of a complete raw field (id 0x54) is a string of two
    hex digits per payload byte from which [Buffer.from(.., 'hex')]
    gives the payload bytes back. *)
Theorem decodeBTHome_raw_roundtrip h len data :
  length data = Z.to_nat (u8 len) ->
  exists s,
    decodeBTHome (h :: x54 :: len :: data)
    = Ok (header_result h {[ "raw"%string := VStr s ]} [])
    /\ String.length s = (2 * length data)%nat
    /\ Buffer_from_hex s = data.
Proof.
  intros Hlen. exists (toString_hex data).
  rewrite decodeBTHome_raw_short by lia.
  split; [done|]. split; [apply toString_hex_length | apply Buffer_from_hex_toString_hex].
Qed.

Lemma decodeBTHome_raw_roundtrip_witness :
  length [xde; xad; xbe; xef] = Z.to_nat (u8 x04)
  /\ exists s,
       decodeBTHome (x40 :: x54 :: x04 :: [xde; xad; xbe; xef])
       = Ok (header_result x40 {[ "raw"%string := VStr s ]} [])
       /\ String.length s = (2 * length [xde; xad; xbe; xef])%nat
       /\ Buffer_from_hex s = [xde; xad; xbe; xef].
Proof.
  split; [reflexivity|].
  exact (decodeBTHome_raw_roundtrip x40 x04 [xde; xad; xbe; xef] eq_refl).
Defined.

(** ** Custom parsers at the end of the buffer *)

(** X10: the firmware version (id 0xf1) never throws: as the last
    field, after any complete fields and with at most four bytes after
    the id, its value is [major.minor.patch.rc] read from the bytes in
    the order rc, patch, minor, major, a byte the buffer does not have
    being written [undefined]; the loop stores it as lines 102-114 do
    for any value and the decoding ends. *)
Theorem decodeBTHome_firmwareVersion_tolerant h fs data :
  Forall well_formed fs -> (length data <= 4)%nat ->
  exists r0,
    decodeBTHome (h :: encode_all fs) = Ok r0
    /\ decodeBTHome (h :: encode_all fs ++ xf1 :: data)
       = Ok {| version := version r0; encrypted := encrypted r0; trigger := trigger r0;
               readings :=
                 store (custom "firmwareVersion" (Some 4%nat) parse_firmwareVersion) (u8 xf1)
                   (map (fun f => u8 (fid f)) fs ++ [u8 xf1]) (readings r0)
                   (VStr (show_elem (data !! 3%nat) ++ "." ++ show_elem (data !! 2%nat) ++ "."
                          ++ show_elem (data !! 1%nat) ++ "." ++ show_elem (data !! 0%nat)));
               unknown := [] |}.
Proof.
  intros Hfs Hlen.
  apply (decodeBTHome_last_field h fs xf1 data
           (custom "firmwareVersion" (Some 4%nat) parse_firmwareVersion) _ 4 Hfs eq_refl);
    [|done].
  unfold decode_value, parse_firmwareVersion, slice. cbn [custom parser bytes].
  rewrite drop_0. change (0 + 4 - 0)%nat with 4%nat.
  by rewrite take_ge by lia.
Qed.

Lemma decodeBTHome_firmwareVersion_tolerant_witness :
  Forall well_formed [{| fid := x01; payload := [x64] |}]
  /\ (length [x01; x02] <= 4)%nat
  /\ decodeBTHome (x40 :: encode_all [{| fid := x01; payload := [x64] |}]
                       ++ xf1 :: [x01; x02])
     = Ok (header_result x40
             (<["firmwareVersion"%string := VStr "undefined.undefined.2.1"]>
                {["battery"%string := VNum 100]}) [])
  /\ exists r0,
       decodeBTHome (x40 :: encode_all [{| fid := x01; payload := [x64] |}]) = Ok r0
       /\ decodeBTHome (x40 :: encode_all [{| fid := x01; payload := [x64] |}]
                            ++ xf1 :: [x01; x02])
          = Ok {| version := version r0; encrypted := encrypted r0; trigger := trigger r0;
                  readings :=
                    store (custom "firmwareVersion" (Some 4%nat) parse_firmwareVersion)
                      (u8 xf1)
                      (map (fun f => u8 (fid f)) [{| fid := x01; payload := [x64] |}]
                           ++ [u8 xf1])
                      (readings r0)
                      (VStr (show_elem ([x01; x02] !! 3%nat) ++ "."
                             ++ show_elem ([x01; x02] !! 2%nat) ++ "."
                             ++ show_elem ([x01; x02] !! 1%nat) ++ "."
                             ++ show_elem ([x01; x02] !! 0%nat)));
                  unknown := [] |}.
Proof.
  assert (Forall well_formed [{| fid := x01; payload := [x64] |}]) as Hfs.
  { apply Forall_cons_2; [reflexivity | apply Forall_nil_2]. }
  assert (length [x01; x02] <= 4)%nat as Hlen by (simpl; lia).
  split; [exact Hfs|]. split; [exact Hlen|]. split; [vm_compute; reflexivity|].
  exact (decodeBTHome_firmwareVersion_tolerant x40 _ [x01; x02] Hfs Hlen).
Defined.

(** X11: a field whose custom parser reads with [readUInt8] or
    [readUInt32LE] throws the RangeError of the read when the buffer
    ends inside it (button, dimmer, timestamp), and so does a text or
    raw field whose length byte is missing; complete fields before it
    do not change that. *)
Theorem decodeBTHome_truncated_custom h fs idb short :
  Forall well_formed fs ->
  (idb = x3a /\ short = [])
  \/ (idb = x3c /\ (length short < 2)%nat)
  \/ (idb = x50 /\ (length short < 4)%nat)
  \/ ((idb = x53 \/ idb = x54) /\ short = []) ->
  decodeBTHome (h :: encode_all fs ++ idb :: short) = Throw RangeError_bounds.
Proof.
  intros Hfs Hcase.
  destruct Hcase as [[-> ->] | [[-> Hlen] | [[-> Hlen] | [[-> | ->] ->]]]].
  - by apply (decodeBTHome_fields_throw h fs x3a [] _ _ Hfs eq_refl).
  - apply (decodeBTHome_fields_throw h fs x3c short _ _ Hfs eq_refl).
    destruct short as [|b [|b' short]]; [done | done | simpl in Hlen; lia].
  - apply (decodeBTHome_fields_throw h fs x50 short _ _ Hfs eq_refl).
    unfold decode_value. cbn [custom parser bytes].
    unfold parse_timestamp, readUInt32LE, readUIntLE.
    rewrite decide_True by lia. by rewrite decide_False by (simpl; lia).
  - by apply (decodeBTHome_fields_throw h fs x53 [] _ _ Hfs eq_refl).
  - by apply (decodeBTHome_fields_throw h fs x54 [] _ _ Hfs eq_refl).
Qed.

Lemma decodeBTHome_truncated_custom_witness :
  Forall well_formed [{| fid := x01; payload := [x64] |}]
  /\ ((x3c = x3a /\ [x01] = @nil byte)
      \/ (x3c = x3c /\ (length [x01] < 2)%nat)
      \/ (x3c = x50 /\ (length [x01] < 4)%nat)
      \/ ((x3c = x53 \/ x3c = x54) /\ [x01] = @nil byte))
  /\ decodeBTHome (x40 :: encode_all [{| fid := x01; payload := [x64] |}] ++ x3c :: [x01])
     = Throw RangeError_bounds.
Proof.
  assert (Forall well_formed [{| fid := x01; payload := [x64] |}]) as Hfs.
  { apply Forall_cons_2; [reflexivity | apply Forall_nil_2]. }
  assert ((x3c = x3a /\ [x01] = @nil byte)
          \/ (x3c = x3c /\ (length [x01] < 2)%nat)
          \/ (x3c = x50 /\ (length [x01] < 4)%nat)
          \/ ((x3c = x53 \/ x3c = x54) /\ [x01] = @nil byte)) as Hcase.
  { right; left. split; [reflexivity | simpl; lia]. }
  split; [exact Hfs|]. split; [exact Hcase|].
  exact (decodeBTHome_truncated_custom x40 _ x3c [x01] Hfs Hcase).
Defined.

(** ** Manufacturer data: hex strings, flags, model and address *)

(** X12: for a buffer of 10 bytes or more, giving the decoder the hex
    string of the buffer is the same as giving it the buffer. *)
Theorem decodeShelly_hex_string buf :
  (10 <= length buf)%nat ->
  decodeShellyManufacturerData (InputString (toString_hex buf))
  = decodeShellyManufacturerData (InputBuffer buf).
Proof.
  intros Hlen. unfold decodeShellyManufacturerData. cbn [input_length].
  rewrite toString_hex_length, strip_whitespace_toString_hex, Buffer_from_hex_toString_hex.
  rewrite !decide_False by lia. done.
Qed.

Lemma decodeShelly_hex_string_witness :
  (10 <= length [xa9; x0b; x01; x05; x00; x0b; x03; x00; xff; x00])%nat
  /\ decodeShellyManufacturerData
       (InputString (toString_hex [xa9; x0b; x01; x05; x00; x0b; x03; x00; xff; x00]))
     = decodeShellyManufacturerData
         (InputBuffer [xa9; x0b; x01; x05; x00; x0b; x03; x00; xff; x00]).
Proof.
  assert (10 <= length [xa9; x0b; x01; x05; x00; x0b; x03; x00; xff; x00])%nat as Hlen
    by (simpl; lia).
  split; [exact Hlen|]. exact (decodeShelly_hex_string _ Hlen).
Defined.

(** X13: the length test counts the characters of a string: the hex
    string of 5 to 9 bytes that start with the company id is decoded
    (the result is not null), while the same bytes as a Buffer give
    null. *)
Theorem decodeShelly_hex_string_short buf :
  (5 <= length buf < 10)%nat -> le_value (take 2 buf) = 0x0ba9 ->
  decodeShellyManufacturerData (InputBuffer buf) = Ok None
  /\ decodeShellyManufacturerData (InputString (toString_hex buf)) <> Ok None.
Proof.
  intros Hlen Hcid. split.
  - apply decodeShelly_null_iff. left. lia.
  - unfold decodeShellyManufacturerData. cbn [input_length].
    rewrite toString_hex_length, strip_whitespace_toString_hex, Buffer_from_hex_toString_hex.
    rewrite decide_False by lia.
    assert (readUInt16LE buf 0 = Ok (le_value (take 2 buf))) as ->.
    { unfold readUInt16LE, readUIntLE. rewrite decide_True by lia.
      rewrite decide_True by (simpl; lia). unfold slice. by rewrite drop_0. }
    rewrite Hcid. cbn [mbind outcome_bind Z.eqb Pos.eqb negb].
    destruct (parse_blocks _ _ _ _); simpl; discriminate.
Qed.

Lemma decodeShelly_hex_string_short_witness :
  (5 <= length [xa9; x0b; x0b; x03; x00; xff] < 10)%nat
  /\ le_value (take 2 [xa9; x0b; x0b; x03; x00; xff]) = 0x0ba9
  /\ decodeShellyManufacturerData (InputBuffer [xa9; x0b; x0b; x03; x00; xff]) = Ok None
  /\ decodeShellyManufacturerData (InputString (toString_hex [xa9; x0b; x0b; x03; x00; xff]))
     <> Ok None.
Proof.
  assert (5 <= length [xa9; x0b; x0b; x03; x00; xff] < 10)%nat as Hlen by (simpl; lia).
  split; [exact Hlen|]. split; [reflexivity|].
  exact (decodeShelly_hex_string_short _ Hlen eq_refl).
Defined.

Lemma land_pow2 x k :
  0 <= k -> Z.land x (2 ^ k) = if Z.testbit x k then 2 ^ k else 0.
Proof.
  intros Hk. apply Z.bits_inj'. intros m Hm.
  rewrite Z.land_spec, Z.pow2_bits_eqb by done.
  destruct (Z.eqb_spec k m) as [->|Hne].
  - destruct (Z.testbit x m); simpl; [by rewrite Z.pow2_bits_true | by rewrite Z.bits_0].
  - rewrite andb_false_r.
    destruct (Z.testbit x k); [by rewrite Z.pow2_bits_false | by rewrite Z.bits_0].
Qed.

Lemma Boolean_land_bit x k :
  0 <= k -> Boolean (Z.land x (Z.shiftl 1 k)) = Z.testbit x k.
Proof.
  intros Hk. rewrite Z.shiftl_1_l, land_pow2 by done. unfold Boolean.
  destruct (Z.testbit x k); [|done].
  assert (0 < 2 ^ k) by (apply Z.pow_pos_nonneg; lia).
  apply negb_true_iff, Z.eqb_neq. lia.
Qed.

Lemma testbit_low_byte lo hi k :
  0 <= k < 8 -> Z.testbit (le_value [lo; hi]) k = Z.testbit (u8 lo) k.
Proof.
  intros Hk. pose proof (u8_range lo) as Hlo.
  change (le_value [lo; hi]) with (u8 lo + 256 * (u8 hi + 256 * 0)).
  rewrite <- (Z.mod_pow2_bits_low (u8 lo + _) 8 k) by lia.
  f_equal. change (2 ^ 8) with 256.
  symmetry. apply (Z.mod_unique _ _ (u8 hi + 256 * 0)); lia.
Qed.

Lemma decode_flags_bits lo hi :
  decode_flags (le_value [lo; hi])
  = {| discoverable := Z.testbit (u8 lo) 0; authEnabled := Z.testbit (u8 lo) 1;
       rpcEnabled := Z.testbit (u8 lo) 2; buzzerEnabled := Z.testbit (u8 lo) 3;
       inPairingMode := Z.testbit (u8 lo) 4 |}.
Proof.
  unfold decode_flags. rewrite !Boolean_land_bit by lia.
  by rewrite !testbit_low_byte by lia.
Qed.

(** X14: a flags block gives the five flags as bits 0 to 4 of its first
    payload byte; the other bits of that byte and the whole second byte
    have no effect. *)
Theorem decodeShelly_flags lo hi t rest :
  ~ known_block_type (u8 t) ->
  (10 <= length (xa9 :: x0b :: x01 :: lo :: hi :: t :: rest))%nat ->
  decodeShellyManufacturerData (InputBuffer (xa9 :: x0b :: x01 :: lo :: hi :: t :: rest))
  = Ok (Some {| companyId := 0x0ba9;
                flags := Some {| discoverable := Z.testbit (u8 lo) 0;
                                 authEnabled := Z.testbit (u8 lo) 1;
                                 rpcEnabled := Z.testbit (u8 lo) 2;
                                 buzzerEnabled := Z.testbit (u8 lo) 3;
                                 inPairingMode := Z.testbit (u8 lo) 4 |};
                modelId := None; modelIdShortName := None; modelIdLongName := None;
                mac := None |}).
Proof.
  intros Hk Hlen.
  pose proof (decodeShelly_blocks [{| btype := x01; bdata := [lo; hi] |}] (t :: rest)) as H.
  change (xa9 :: x0b :: encode_blocks [{| btype := x01; bdata := [lo; hi] |}] ++ t :: rest)
    with (xa9 :: x0b :: x01 :: lo :: hi :: t :: rest) in H.
  rewrite H; [| | by eauto | done].
  - do 2 f_equal.
    change (run_blocks shelly_init [{| btype := x01; bdata := [lo; hi] |}])
      with (set_flags shelly_init (decode_flags (le_value [lo; hi]))).
    by rewrite decode_flags_bits.
  - apply Forall_cons_2; [|apply Forall_nil_2]. left. done.
Qed.

Lemma decodeShelly_flags_witness :
  ~ known_block_type (u8 xff)
  /\ (10 <= length (xa9 :: x0b :: x01 :: x15 :: xff :: xff :: [x00; x00; x00; x00]))%nat
  /\ decodeShellyManufacturerData
       (InputBuffer (xa9 :: x0b :: x01 :: x15 :: xff :: xff :: [x00; x00; x00; x00]))
     = Ok (Some {| companyId := 0x0ba9;
                   flags := Some {| discoverable := Z.testbit (u8 x15) 0;
                                    authEnabled := Z.testbit (u8 x15) 1;
                                    rpcEnabled := Z.testbit (u8 x15) 2;
                                    buzzerEnabled := Z.testbit (u8 x15) 3;
                                    inPairingMode := Z.testbit (u8 x15) 4 |};
                   modelId := None; modelIdShortName := None; modelIdLongName := None;
                   mac := None |}).
Proof.
  assert (~ known_block_type (u8 xff)) as Hk.
  { intros [H | [H | H]]; discriminate H. }
  split; [exact Hk|]. split; [simpl; lia|].
  apply (decodeShelly_flags x15 xff xff [x00; x00; x00; x00] Hk). simpl. lia.
Defined.

Lemma parse_block_consistent buf offset r offset' r' :
  consistent r -> parse_block buf offset r = Ok (offset', r') -> consistent r'.
Proof.
  intros (Hc & Hs & Hl). unfold parse_block.
  destruct (readUInt8 buf offset) as [t|]; simpl; [|done].
  destruct t as [|p|p]; simpl; try (by intros [= _ <-]).
  repeat (destruct p as [p|p|]; simpl; try (by intros [= _ <-]));
    destruct (readUInt16LE buf (S offset)); simpl; try done; by intros [= _ <-].
Qed.

Lemma parse_blocks_consistent fuel buf offset r r' :
  consistent r -> parse_blocks fuel buf offset r = Ok r' -> consistent r'.
Proof.
  revert offset r. induction fuel as [|fuel IH]; intros offset r Hr; simpl;
    case_decide; try done; try by intros [= <-].
  destruct (parse_block buf offset r) as [[o r1]|] eqn:Hb; simpl; [|done].
  apply IH. eapply parse_block_consistent; eauto.
Qed.

Lemma model_names_together id :
  is_Some (getShellyBluShortName id) <-> is_Some (getShellyBluLongName id).
Proof.
  unfold getShellyBluShortName, getShellyBluLongName,
    SHELLY_MODEL_SHORT_NAMES, SHELLY_MODEL_LONG_NAMES.
  destruct id as [|p|p]; [by split; intros [? ?] | | by split; intros [? ?]].
  do 4 (try destruct p as [p|p|]); split; intros [? ?]; (discriminate || eauto).
Qed.

(** X15: whatever the input, a non-null result has the company id
    0x0BA9, and its two model names are always the lookups of the model
    id it holds in the two name tables: no name without a model id, and
    a short name exactly when there is a long name. *)
Theorem decodeShelly_consistent input r :
  decodeShellyManufacturerData input = Ok (Some r) ->
  companyId r = 0x0ba9
  /\ modelIdShortName r = modelId r ≫= getShellyBluShortName
  /\ modelIdLongName r = modelId r ≫= getShellyBluLongName
  /\ (is_Some (modelIdShortName r) <-> is_Some (modelIdLongName r)).
Proof.
  unfold decodeShellyManufacturerData. case_decide; [done|].
  set (buf := match input with InputBuffer b => b | InputString s => _ end).
  destruct (readUInt16LE buf 0) as [cid|]; simpl; [|done].
  destruct (Z.eqb_spec cid 2985) as [->|]; simpl; [|done].
  destruct (parse_blocks _ _ _ _) as [r'|] eqn:Hp; simpl; [|done].
  intros [= <-].
  apply parse_blocks_consistent in Hp; [|done].
  destruct Hp as (Hc & Hs & Hl). repeat split; try done.
  - rewrite Hs, Hl. destruct (modelId r') as [id|]; simpl; [apply model_names_together|].
    by intros [? ?].
  - rewrite Hs, Hl. destruct (modelId r') as [id|]; simpl; [apply model_names_together|].
    by intros [? ?].
Qed.

Lemma decodeShelly_consistent_witness :
  decodeShellyManufacturerData (InputBuffer [xa9; x0b; x0b; x04; x00; xff; x00; x00; x00; x00])
  = Ok (Some (set_model shelly_init 4))
  /\ companyId (set_model shelly_init 4) = 0x0ba9
  /\ modelIdShortName (set_model shelly_init 4)
     = modelId (set_model shelly_init 4) ≫= getShellyBluShortName
  /\ modelIdLongName (set_model shelly_init 4)
     = modelId (set_model shelly_init 4) ≫= getShellyBluLongName
  /\ (is_Some (modelIdShortName (set_model shelly_init 4))
      <-> is_Some (modelIdLongName (set_model shelly_init 4))).
Proof.
  assert (decodeShellyManufacturerData
            (InputBuffer [xa9; x0b; x0b; x04; x00; xff; x00; x00; x00; x00])
          = Ok (Some (set_model shelly_init 4))) as Hdec by (vm_compute; reflexivity).
  split; [exact Hdec|].
  exact (decodeShelly_consistent _ _ Hdec).
Defined.

Lemma parse_block_short pre t short r :
  u8 t = 0x01 \/ u8 t = 0x0b -> (length short < 2)%nat ->
  parse_block (pre ++ t :: short) (length pre) r = Throw RangeError_bounds.
Proof.
  intros Ht Hlen. unfold parse_block. rewrite readUInt8_drop0, drop_app_length. simpl.
  assert (readUInt16LE (pre ++ t :: short) (S (length pre)) = Throw RangeError_bounds) as Hr.
  { unfold readUInt16LE, readUIntLE. rewrite decide_True by lia.
    rewrite decide_False; [done|]. rewrite length_app. simpl. lia. }
  destruct Ht as [-> | ->]; by rewrite Hr.
Qed.

(** X16: a flags or model-id block with fewer than two payload bytes
    left makes the decoder throw the RangeError of the Buffer read, also
    after complete blocks: what they held is not returned. *)
Theorem decodeShelly_truncated_block bs t short :
  Forall complete_block bs -> u8 t = 0x01 \/ u8 t = 0x0b -> (length short < 2)%nat ->
  (10 <= length (xa9 :: x0b :: encode_blocks bs ++ t :: short))%nat ->
  decodeShellyManufacturerData (InputBuffer (xa9 :: x0b :: encode_blocks bs ++ t :: short))
  = Throw RangeError_bounds.
Proof.
  intros Hbs Ht Hshort Hlen. unfold decodeShellyManufacturerData.
  cbn [input_length]. rewrite decide_False by lia.
  rewrite readUInt16LE_company. cbn [mbind outcome_bind Z.eqb Pos.eqb negb].
  set (buf := xa9 :: x0b :: encode_blocks bs ++ t :: short) in *.
  fold shelly_init.
  pose proof (parse_blocks_blocks (length buf) [xa9; x0b] bs (t :: short) shelly_init Hbs) as H.
  change ([xa9; x0b] ++ encode_blocks bs ++ t :: short) with buf in H.
  change (length [xa9; x0b]) with 2%nat in H. rewrite H by lia. clear H.
  rewrite parse_blocks_unfold by lia.
  rewrite decide_True.
  2:{ unfold buf. simpl. rewrite length_app. simpl. lia. }
  unfold buf.
  change (xa9 :: x0b :: encode_blocks bs ++ t :: short)
    with ((xa9 :: x0b :: encode_blocks bs) ++ t :: short).
  change (2 + length (encode_blocks bs))%nat with (length (xa9 :: x0b :: encode_blocks bs)).
  by rewrite (parse_block_short _ t short _ Ht Hshort).
Qed.

Lemma decodeShelly_truncated_block_witness :
  Forall complete_block [{| btype := x0a; bdata := [x11; x22; x33; x44; x55; x66] |}]
  /\ (u8 x0b = 0x01 \/ u8 x0b = 0x0b)
  /\ (length [x03] < 2)%nat
  /\ (10 <= length (xa9 :: x0b
                      :: encode_blocks [{| btype := x0a;
                                           bdata := [x11; x22; x33; x44; x55; x66] |}]
                      ++ x0b :: [x03]))%nat
  /\ decodeShellyManufacturerData
       (InputBuffer (xa9 :: x0b
                       :: encode_blocks [{| btype := x0a;
                                            bdata := [x11; x22; x33; x44; x55; x66] |}]
                       ++ x0b :: [x03]))
     = Throw RangeError_bounds.
Proof.
  assert (Forall complete_block
            [{| btype := x0a; bdata := [x11; x22; x33; x44; x55; x66] |}]) as Hbs.
  { apply Forall_cons_2; [right; right; split; reflexivity | apply Forall_nil_2]. }
  split; [exact Hbs|]. split; [by right|]. split; [simpl; lia|]. split; [simpl; lia|].
  apply (decodeShelly_truncated_block _ x0b [x03] Hbs); [by right | simpl; lia | simpl; lia].
Defined.

Lemma pairs_of_toString_hex data : pairs_of (toString_hex data) = map hex2 data.
Proof.
  induction data as [|b data IH]; [done|].
  rewrite toString_hex_cons.
  destruct (hex2_unhex b) as (c1 & c2 & hi & lo & Hb & _).
  rewrite Hb at 1.
  change (pairs_of (String c1 (String c2 (toString_hex data))) = map hex2 (b :: data)).
  cbn [pairs_of map]. by rewrite IH, Hb.
Qed.

Lemma parse_block_mac_last pre data r :
  (length data <= 6)%nat ->
  parse_block (pre ++ x0a :: data) (length pre) r
  = Ok ((S (length pre) + 6)%nat,
        set_mac r (match data with
                   | [] => None
                   | _ => Some (String.concat ":" (map hex2 data))
                   end)).
Proof.
  intros Hlen. unfold parse_block. rewrite readUInt8_drop0, drop_app_length.
  change (readUInt8 (x0a :: data) 0) with (Ok 10 : outcome Z).
  cbn [mbind outcome_bind mret outcome_ret].
  assert (slice (pre ++ x0a :: data) (S (length pre)) (S (length pre) + 6) = data) as ->.
  { unfold slice. rewrite drop_S_app_cons. apply take_ge. lia. }
  unfold match_pairs. rewrite pairs_of_toString_hex.
  by destruct data.
Qed.

(** X17: an address block that is the last thing in the buffer, with its
    six bytes or fewer, never throws: the address is the lower-case hex
    of the bytes that are there, in buffer order, joined by colons, and
    it stays undefined when no byte follows the block type. *)
Theorem decodeShelly_mac_last bs data :
  Forall complete_block bs -> (length data <= 6)%nat ->
  (10 <= length (xa9 :: x0b :: encode_blocks bs ++ x0a :: data))%nat ->
  exists r0,
    parse_blocks (length (xa9 :: x0b :: encode_blocks bs))
      (xa9 :: x0b :: encode_blocks bs) 2 shelly_init = Ok r0
    /\ decodeShellyManufacturerData
         (InputBuffer (xa9 :: x0b :: encode_blocks bs ++ x0a :: data))
       = Ok (Some (set_mac r0 (match data with
                               | [] => None
                               | _ => Some (String.concat ":" (map hex2 data))
                               end))).
Proof.
  intros Hbs Hdata Hlen. exists (run_blocks shelly_init bs).
  split; [by apply parse_blocks_prefix|].
  unfold decodeShellyManufacturerData.
  cbn [input_length]. rewrite decide_False by lia.
  rewrite readUInt16LE_company. cbn [mbind outcome_bind Z.eqb Pos.eqb negb].
  set (buf := xa9 :: x0b :: encode_blocks bs ++ x0a :: data) in *.
  fold shelly_init.
  pose proof (parse_blocks_blocks (length buf) [xa9; x0b] bs (x0a :: data) shelly_init Hbs) as H.
  change ([xa9; x0b] ++ encode_blocks bs ++ x0a :: data) with buf in H.
  change (length [xa9; x0b]) with 2%nat in H. rewrite H by lia. clear H.
  rewrite parse_blocks_unfold by lia.
  rewrite decide_True.
  2:{ unfold buf. simpl. rewrite length_app. simpl. lia. }
  unfold buf.
  change (xa9 :: x0b :: encode_blocks bs ++ x0a :: data)
    with ((xa9 :: x0b :: encode_blocks bs) ++ x0a :: data).
  change (2 + length (encode_blocks bs))%nat with (length (xa9 :: x0b :: encode_blocks bs)).
  rewrite (parse_block_mac_last _ data _ Hdata).
  cbv beta iota delta [mbind outcome_bind].
  rewrite parse_blocks_end; [done|].
  rewrite length_app. simpl. lia.
Qed.

Lemma decodeShelly_mac_last_witness :
  Forall complete_block [{| btype := x01; bdata := [x05; x00] |};
                         {| btype := x0b; bdata := [x03; x00] |}]
  /\ (length [xaa; xbb] <= 6)%nat
  /\ (10 <= length (xa9 :: x0b
                      :: encode_blocks [{| btype := x01; bdata := [x05; x00] |};
                                        {| btype := x0b; bdata := [x03; x00] |}]
                      ++ x0a :: [xaa; xbb]))%nat
  /\ exists r0,
       parse_blocks
         (length (xa9 :: x0b :: encode_blocks [{| btype := x01; bdata := [x05; x00] |};
                                               {| btype := x0b; bdata := [x03; x00] |}]))
         (xa9 :: x0b :: encode_blocks [{| btype := x01; bdata := [x05; x00] |};
                                       {| btype := x0b; bdata := [x03; x00] |}]) 2 shelly_init
       = Ok r0
       /\ decodeShellyManufacturerData
            (InputBuffer (xa9 :: x0b
                            :: encode_blocks [{| btype := x01; bdata := [x05; x00] |};
                                              {| btype := x0b; bdata := [x03; x00] |}]
                            ++ x0a :: [xaa; xbb]))
          = Ok (Some (set_mac r0 (Some (String.concat ":" (map hex2 [xaa; xbb]))))).
Proof.
  assert (Forall complete_block [{| btype := x01; bdata := [x05; x00] |};
                                 {| btype := x0b; bdata := [x03; x00] |}]) as Hbs.
  { apply Forall_cons_2; [left; split; reflexivity|].
    apply Forall_cons_2; [right; left; split; reflexivity | apply Forall_nil_2]. }
  split; [exact Hbs|]. split; [simpl; lia|]. split; [simpl; lia|].
  apply (decodeShelly_mac_last _ [xaa; xbb] Hbs); simpl; lia.
Defined.

(** ** Command-line parameters *)

Lemma indexOf_absent args x : x ∉ args -> indexOf args x = -1.
Proof.
  induction args as [|a args IH]; [done|].
  intros [Hne Hnot]%not_elem_of_cons. simpl.
  rewrite (proj2 (String.eqb_neq a x)) by done. by rewrite IH.
Qed.

Lemma indexOf_first before x rest :
  x ∉ before -> indexOf (before ++ x :: rest) x = Z.of_nat (length before).
Proof.
  induction before as [|a before IH]; simpl.
  - intros _. by rewrite String.eqb_refl.
  - intros [Hne Hnot]%not_elem_of_cons.
    rewrite (proj2 (String.eqb_neq a x)) by done. rewrite IH by done.
    destruct (Z.ltb_spec (Z.of_nat (length before)) 0); lia.
Qed.

Lemma values_from_run values rest :
  Forall (fun v => startsWith v "-" = false) values ->
  (rest = [] \/ exists a rest', rest = a :: rest' /\ startsWith a "-" = true) ->
  values_from (values ++ rest) = values.
Proof.
  intros Hvalues Hrest. induction Hvalues as [|v values Hv _ IH]; simpl.
  - destruct Hrest as [-> | (a & rest' & -> & Ha)]; [done|]. simpl. by rewrite Ha.
  - by rewrite Hv, IH.
Qed.

(** X18: when [--name] first occurs after at least one other argument,
    the result is the run of arguments that follow it, up to the first
    argument that starts with a dash or the end of the line. *)
Theorem getStringArrayParameter_values exe script before values rest name :
  before <> [] -> ("--" ++ name)%string ∉ before ->
  Forall (fun v => startsWith v "-" = false) values ->
  (rest = [] \/ exists a rest', rest = a :: rest' /\ startsWith a "-" = true) ->
  getStringArrayParameter
    (exe :: script :: before ++ ("--" ++ name)%string :: values ++ rest) name
  = values.
Proof.
  intros Hne Habsent Hvalues Hrest. unfold getStringArrayParameter.
  change (drop 2 (exe :: script :: ?l)) with l. rewrite indexOf_first by done.
  assert (0 < Z.of_nat (length before)) as Hpos by (destruct before; [done | simpl; lia]).
  unfold or_number. rewrite (proj2 (Z.eqb_neq _ 0)) by lia.
  rewrite (proj2 (Z.ltb_ge _ 0)) by lia.
  replace (Z.to_nat (Z.of_nat (length before) + 1)) with (S (length before)) by lia.
  rewrite drop_S_app_cons. by apply values_from_run.
Qed.

Lemma getStringArrayParameter_values_witness :
  ["--bthome"%string] <> []
  /\ (("--" ++ "address")%string ∉ ["--bthome"%string])
  /\ Forall (fun v => startsWith v "-" = false) ["aa:bb"%string; "cc:dd"%string]
  /\ (["--ble"%string] = []
      \/ exists a rest', ["--ble"%string] = a :: rest' /\ startsWith a "-" = true)
  /\ getStringArrayParameter
       ("node"%string :: "bthome"%string
          :: ["--bthome"%string] ++ ("--" ++ "address")%string
          :: ["aa:bb"%string; "cc:dd"%string] ++ ["--ble"%string]) "address"
     = ["aa:bb"%string; "cc:dd"%string].
Proof.
  assert (("--" ++ "address")%string ∉ ["--bthome"%string]) as Habsent.
  { intros [H | H]%elem_of_cons; [discriminate H | by apply elem_of_nil in H]. }
  assert (Forall (fun v => startsWith v "-" = false) ["aa:bb"%string; "cc:dd"%string])
    as Hvalues.
  { repeat (apply Forall_cons_2; [reflexivity|]). apply Forall_nil_2. }
  assert (["--ble"%string] = []
          \/ exists a rest', ["--ble"%string] = a :: rest' /\ startsWith a "-" = true) as Hrest.
  { right. by exists "--ble"%string, []. }
  split; [done|]. split; [exact Habsent|]. split; [exact Hvalues|]. split; [exact Hrest|].
  apply getStringArrayParameter_values; done.
Defined.

(** X19: when [--name] does not occur among the arguments the result is
    empty, also when [-name] with a single dash occurs: the index -1 of
    the first search is truthy, so the second search is never used. *)
Theorem getStringArrayParameter_absent argv name :
  ("--" ++ name)%string ∉ drop 2 argv -> getStringArrayParameter argv name = [].
Proof.
  intros Habsent. unfold getStringArrayParameter.
  by rewrite (indexOf_absent _ _ Habsent).
Qed.

Lemma getStringArrayParameter_absent_witness :
  (("--" ++ "address")%string
     ∉ drop 2 ["node"%string; "bthome"%string; "-address"%string; "aa:bb"%string])
  /\ getStringArrayParameter
       ["node"%string; "bthome"%string; "-address"%string; "aa:bb"%string] "address" = [].
Proof.
  assert (("--" ++ "address")%string
            ∉ drop 2 ["node"%string; "bthome"%string; "-address"%string; "aa:bb"%string])
    as Habsent.
  { simpl. intros [H | [H | H]%elem_of_cons]%elem_of_cons;
      [discriminate H | discriminate H | by apply elem_of_nil in H]. }
  split; [exact Habsent|]. exact (getStringArrayParameter_absent _ _ Habsent).
Defined.

Lemma dashes_differ name : String.eqb ("--" ++ name) ("-" ++ name) = false.
Proof.
  apply String.eqb_neq. intros H.
  apply (f_equal String.length) in H. simpl in H. lia.
Qed.

(** X20: when [--name] is the first argument its index 0 is falsy and
    the search for [-name] takes over: if [-name] does not occur, the
    values that follow [--name] are not returned. *)
Theorem getStringArrayParameter_first exe script rest name :
  ("-" ++ name)%string ∉ rest ->
  getStringArrayParameter (exe :: script :: ("--" ++ name)%string :: rest) name = [].
Proof.
  intros Habsent. unfold getStringArrayParameter. change (drop 2 (exe :: script :: ?l)) with l. cbn [indexOf].
  rewrite String.eqb_refl, dashes_differ.
  by rewrite (indexOf_absent _ _ Habsent).
Qed.

Lemma getStringArrayParameter_first_witness :
  (("-" ++ "address")%string ∉ ["aa:bb"%string; "cc:dd"%string])
  /\ getStringArrayParameter
       ("node"%string :: "bthome"%string :: ("--" ++ "address")%string
          :: ["aa:bb"%string; "cc:dd"%string]) "address" = [].
Proof.
  assert (("-" ++ "address")%string ∉ ["aa:bb"%string; "cc:dd"%string]) as Habsent.
  { intros [H | [H | H]%elem_of_cons]%elem_of_cons;
      [discriminate H | discriminate H | by apply elem_of_nil in H]. }
  split; [exact Habsent|]. exact (getStringArrayParameter_first _ _ _ _ Habsent).
Defined.

(** ** Reading keys in the platform *)

Lemma split_colon_nonempty s : split_colon s <> [].
Proof.
  destruct s as [|c s]; simpl; [done|].
  destruct (Ascii.eqb c ":"); [done|]. by destruct (split_colon s).
Qed.

Lemma split_colon_free s : colon_free s = true -> split_colon s = [s].
Proof.
  induction s as [|c s IH]; [done|]. simpl.
  intros [Hc Hs]%andb_prop. apply negb_true_iff in Hc. by rewrite Hc, IH.
Qed.

Lemma split_colon_app a rest :
  colon_free a = true -> split_colon (a ++ ":" ++ rest) = a :: split_colon rest.
Proof.
  induction a as [|c a IH]; [done|].
  change (String c a ++ ":" ++ rest)%string with (String c (a ++ ":" ++ rest)%string).
  cbn [split_colon colon_free].
  intros [Hc Hs]%andb_prop. apply negb_true_iff in Hc. by rewrite Hc, IH.
Qed.

Lemma all_digits_colon_free s : all_digits s = true -> colon_free s = true.
Proof.
  induction s as [|c s IH]; [done|]. cbn [all_digits colon_free].
  intros [[Hlo Hhi]%andb_prop Hs]%andb_prop. rewrite IH by done.
  rewrite andb_true_r. apply negb_true_iff, Ascii.eqb_neq. intros ->.
  vm_compute in Hhi. discriminate.
Qed.

Lemma digit_char_value d :
  0 <= d < 10 ->
  digit_value 10 (digit_char d) = Some d
  /\ (48 <=? Z.of_nat (nat_of_ascii (digit_char d))) = true
  /\ (Z.of_nat (nat_of_ascii (digit_char d)) <=? 57) = true.
Proof.
  intros Hd.
  assert (d = 0 \/ d = 1 \/ d = 2 \/ d = 3 \/ d = 4 \/ d = 5 \/ d = 6 \/ d = 7 \/ d = 8
          \/ d = 9) as H by lia.
  repeat (destruct H as [-> | H]; [by vm_compute|]). subst d. by vm_compute.
Qed.

(** The digits written by [to_radix_go] in radix 10, read back. *)
Lemma to_radix_go_decimal fuel n acc a :
  (1 <= fuel)%nat -> 0 <= n < 10 ^ Z.of_nat fuel -> all_digits acc = true ->
  all_digits (to_radix_go fuel 10 n acc) = true
  /\ to_radix_go fuel 10 n acc <> EmptyString
  /\ exists k, 0 <= k
       /\ parse_digits 10 (to_radix_go fuel 10 n acc) a
          = parse_digits 10 acc (Some (10 ^ k * default 0 a + n)).
Proof.
  revert n acc a. induction fuel as [|fuel IH]; intros n acc a Hf Hn Hacc; [lia|].
  cbn [to_radix_go].
  assert (0 <= n mod 10 < 10) as Hd by (apply Z.mod_pos_bound; lia).
  destruct (digit_char_value _ Hd) as (Hval & Hlo & Hhi).
  assert (all_digits (String (digit_char (n mod 10)) acc) = true) as Hacc'.
  { cbn [all_digits]. by rewrite Hlo, Hhi, Hacc. }
  assert (n = 10 * (n / 10) + n mod 10) as Hdiv by (apply Z.div_mod; lia).
  destruct (Z.eqb_spec (n / 10) 0) as [Hz|Hnz].
  - split; [done|]. split; [done|]. exists 1. split; [lia|].
    cbn [parse_digits]. rewrite Hval. do 2 f_equal. lia.
  - assert (0 < n / 10) as Hq by (pose proof (Z.div_pos n 10); lia).
    assert (1 <= fuel)%nat as Hf'.
    { destruct fuel; [|lia]. simpl in Hn. lia. }
    assert (0 <= n / 10 < 10 ^ Z.of_nat fuel) as Hn'.
    { split; [lia|]. apply Z.div_lt_upper_bound; [lia|].
      rewrite Nat2Z.inj_succ, Z.pow_succ_r in Hn by lia. lia. }
    destruct (IH (n / 10) (String (digit_char (n mod 10)) acc) a Hf' Hn' Hacc')
      as (Hdig & Hne & k & Hk & Hparse).
    split; [done|]. split; [done|]. exists (k + 1). split; [lia|].
    rewrite Hparse. cbn [parse_digits]. rewrite Hval.
    change (default 0 (Some (10 ^ k * default 0 a + n / 10)))
      with (10 ^ k * default 0 a + n / 10).
    do 2 f_equal. rewrite Z.pow_add_r, Z.pow_1_r by lia. lia.
Qed.

Lemma show_decimal n :
  0 <= n ->
  all_digits (show n) = true /\ show n <> EmptyString
  /\ parse_digits 10 (show n) None = Some n.
Proof.
  intros Hn. unfold show, toString_radix.
  rewrite (proj2 (Z.ltb_ge n 0)) by lia. rewrite Z.abs_eq by lia.
  assert (0 <= n < 10 ^ Z.of_nat (S (Z.to_nat (Z.log2 n)))) as Hfuel.
  { split; [lia|]. rewrite Nat2Z.inj_succ, Z2Nat.id by apply Z.log2_nonneg.
    destruct (Z.eq_dec n 0) as [->|Hnz]; [by vm_compute|].
    pose proof (Z.log2_spec n ltac:(lia)) as [_ Hlt].
    eapply Z.lt_le_trans; [exact Hlt|].
    apply Z.pow_le_mono_l. pose proof (Z.log2_nonneg n). lia. }
  assert (1 <= S (Z.to_nat (Z.log2 n)))%nat as Hone by lia.
  destruct (to_radix_go_decimal _ n EmptyString None Hone Hfuel eq_refl)
    as (Hdig & Hne & k & Hk & Hparse).
  split; [done|]. split; [done|].
  rewrite Hparse. cbn [parse_digits]. change (default 0 None) with 0. f_equal. lia.
Qed.

Lemma digit_cases c :
  (48 <=? Z.of_nat (nat_of_ascii c)) && (Z.of_nat (nat_of_ascii c) <=? 57) = true ->
  c = "0"%char \/ c = "1"%char \/ c = "2"%char \/ c = "3"%char \/ c = "4"%char
  \/ c = "5"%char \/ c = "6"%char \/ c = "7"%char \/ c = "8"%char \/ c = "9"%char.
Proof.
  destruct c as [[] [] [] [] [] [] [] []]; vm_compute; intros H;
    first [discriminate H | tauto].
Qed.

(** On a string of decimal digits [parseInt] neither skips anything nor
    sees a sign or a radix prefix. *)
Lemma parseInt_digits s : all_digits s = true -> parseInt s = parse_digits 10 s None.
Proof.
  destruct s as [|c rest]; [done|].
  cbn [all_digits]. intros [Hc Hrest]%andb_prop.
  apply digit_cases in Hc.
  assert (forall x : option Z, (fun v : Z => if false then - v else v) <$> x = x) as Hid
    by (by intros []).
  destruct Hc as [-> | Hc].
  - destruct rest as [|c2 rest2]; [done|].
    cbn [all_digits] in Hrest. apply andb_prop in Hrest as [Hc2 _].
    apply digit_cases in Hc2.
    repeat (destruct Hc2 as [-> | Hc2]); try subst c2; exact (Hid _).
  - repeat (destruct Hc as [-> | Hc]); try subst c; exact (Hid _).
Qed.

(** [parseInt] reads the decimal rendering of a number back. *)
Lemma parseInt_show n : 0 <= n -> parseInt (show n) = Some n.
Proof.
  intros Hn. destruct (show_decimal n Hn) as (Hdig & _ & Hparse).
  by rewrite parseInt_digits.
Qed.

Lemma name_and_index_plain nm :
  colon_free nm = true -> name_and_index nm = (nm, None).
Proof. intros Hnm. unfold name_and_index. by rewrite split_colon_free. Qed.

Lemma name_and_index_counted nm n :
  colon_free nm = true -> 0 <= n ->
  name_and_index (nm ++ ":" ++ show n) = (nm, Some (show n)).
Proof.
  intros Hnm Hn. unfold name_and_index.
  destruct (show_decimal n Hn) as (Hdig & _ & _).
  rewrite split_colon_app by done.
  by rewrite (split_colon_free (show n)) by (by apply all_digits_colon_free).
Qed.

(** X21: whatever the buffer, [split(':')] in the platform takes every
    key of the readings apart into the name of the descriptor of an id
    byte of the buffer and, when the key has a count, the decimal string
    of the count, which [parseInt] reads back as that count. *)
Theorem name_and_index_of_reading buf r key v :
  decodeBTHome buf = Ok r -> readings r !! key = Some v ->
  exists k id spec,
    (1 <= k)%nat /\ buf !! k = Some id /\ BTHOME_SPEC (u8 id) = Some spec
    /\ (name_and_index key = (name spec, None)
        \/ exists n : nat,
             (1 <= n)%nat
             /\ key = (name spec ++ ":" ++ show (Z.of_nat n))%string
             /\ name_and_index key = (name spec, Some (show (Z.of_nat n)))
             /\ parseInt (show (Z.of_nat n)) = Some (Z.of_nat n)).
Proof.
  intros Hdec Hkey.
  destruct (decodeBTHome_readings_from _ _ Hdec _ _ Hkey)
    as (_ & k & id & spec & Hk & Hid & Hspec & Hshape).
  exists k, id, spec. repeat split; try done.
  pose proof (BTHOME_SPEC_colon_free _ _ Hspec) as Hcf.
  destruct Hshape as [-> | (n & Hn & ->)].
  - left. by apply name_and_index_plain.
  - right. exists n. repeat split; try done.
    + apply name_and_index_counted; [done | lia].
    + apply parseInt_show. lia.
Qed.

Lemma name_and_index_of_reading_witness :
  decodeBTHome [x40; x01; x0a; x01; x14]
  = Ok (header_result x40 (<["battery:2"%string := VNum 20]>
                             {["battery:1"%string := VNum 10]}) [])
  /\ readings (header_result x40 (<["battery:2"%string := VNum 20]>
                                    {["battery:1"%string := VNum 10]}) [])
     !! "battery:2"%string = Some (VNum 20)
  /\ exists k id spec,
       (1 <= k)%nat /\ [x40; x01; x0a; x01; x14] !! k = Some id
       /\ BTHOME_SPEC (u8 id) = Some spec
       /\ (name_and_index "battery:2" = (name spec, None)
           \/ exists n : nat,
                (1 <= n)%nat
                /\ "battery:2"%string = (name spec ++ ":" ++ show (Z.of_nat n))%string
                /\ name_and_index "battery:2" = (name spec, Some (show (Z.of_nat n)))
                /\ parseInt (show (Z.of_nat n)) = Some (Z.of_nat n)).
Proof.
  assert (decodeBTHome [x40; x01; x0a; x01; x14]
          = Ok (header_result x40 (<["battery:2"%string := VNum 20]>
                                     {["battery:1"%string := VNum 10]}) [])) as Hdec.
  { vm_compute. reflexivity. }
  assert (readings (header_result x40 (<["battery:2"%string := VNum 20]>
                                         {["battery:1"%string := VNum 10]}) [])
          !! "battery:2"%string = Some (VNum 20)) as Hkey.
  { vm_compute. reflexivity. }
  split; [exact Hdec|]. split; [exact Hkey|].
  exact (name_and_index_of_reading _ _ _ _ Hdec Hkey).
Defined.

(** X22: when the name of a reading has a converter with a device type,
    [addDevice] creates for the key [name:n], [n] below [2^53], a child
    endpoint named by the key, labelled [name n. n] and tagged with the
    number [n], and for the key [name] a child labelled [name] without a
    tag; both have the device type of the converter, and the battery
    cluster exactly when its cluster is PowerSource. *)
Theorem addDevice_property_child nm n c dt :
  colon_free nm = true -> 0 <= n < 2 ^ 53 ->
  Platform.find_converter nm = Some c -> Platform.deviceType c = Some dt ->
  Platform.addDevice_property (nm ++ ":" ++ show n)
  = Platform.Child (nm ++ " n. " ++ show n) (nm ++ ":" ++ show n) dt (Some (Some n))
      (bool_decide (Platform.cluster c = Some "PowerSource"%string))
  /\ Platform.addDevice_property nm
     = Platform.Child nm nm dt None
         (bool_decide (Platform.cluster c = Some "PowerSource"%string)).
Proof.
  intros Hnm [Hn _] Hc Hdt. unfold Platform.addDevice_property. split.
  - rewrite name_and_index_counted by done. rewrite Hc, Hdt.
    destruct (show_decimal n Hn) as (_ & Hne & _).
    destruct (show n) as [|ch rest] eqn:Hshow; [done|].
    cbn [fmap option_fmap option_map]. rewrite <- Hshow.
    by rewrite parseInt_show.
  - rewrite name_and_index_plain by done. rewrite Hc, Hdt.
    by rewrite string_app_nil_r.
Qed.

Lemma addDevice_property_child_witness :
  colon_free "battery" = true /\ 0 <= 2 < 2 ^ 53
  /\ Platform.find_converter "battery"
     = Some {| Platform.reading := "battery"; Platform.deviceType := Some Platform.powerSource;
               Platform.cluster := Some "PowerSource"%string;
               Platform.attribute := Some "batPercentRemaining"%string;
               Platform.property := None; Platform.type := None;
               Platform.factor := Some 2 |}
  /\ Platform.addDevice_property "battery:2"
     = Platform.Child "battery n. 2" "battery:2" Platform.powerSource (Some (Some 2)) true
  /\ Platform.addDevice_property "battery"
     = Platform.Child "battery" "battery" Platform.powerSource None true.
Proof.
  split; [reflexivity|]. split; [lia|]. split; [reflexivity|].
  exact (addDevice_property_child "battery" 2 _ Platform.powerSource
           eq_refl ltac:(lia) eq_refl eq_refl).
Defined.

(** X23: every reading the platform has a converter for is the name of
    a descriptor of the decoder's table, so no converter is out of the
    decoder's reach. *)
Theorem converter_readings_in_table :
  Forall (fun c => exists id spec,
            0 <= id < 256 /\ BTHOME_SPEC id = Some spec
            /\ name spec = Platform.reading c)
         Platform.converter.
Proof.
  unfold Platform.converter.
  apply Forall_cons_2; [by exists 0x01, (numeric "battery" 1 false 1)|].
  apply Forall_cons_2; [by exists 0x02, (numeric "temperature" 2 true (1 # 100))|].
  apply Forall_cons_2; [by exists 0x03, (numeric "humidity" 2 false (1 # 100))|].
  apply Forall_cons_2; [by exists 0x04, (numeric "pressure" 3 false (1 # 100))|].
  apply Forall_cons_2; [by exists 0x21, (numeric "motionState" 1 false 1)|].
  apply Forall_cons_2; [by exists 0x22, (numeric "movingState" 1 false 1)|].
  apply Forall_cons_2; [by exists 0x23, (numeric "occupancyState" 1 false 1)|].
  apply Forall_cons_2; [by exists 0x05, (numeric "illuminance" 3 false (1 # 100))|].
  apply Forall_cons_2; [by exists 0x1a, (numeric "doorState" 1 false 1)|].
  apply Forall_cons_2; [by exists 0x1b, (numeric "garageDoorState" 1 false 1)|].
  apply Forall_cons_2; [by exists 0x2d, (numeric "windowState" 1 false 1)|].
  apply Forall_cons_2; [by exists 0x3a, (custom "button" (Some 1%nat) parse_button)|].
  apply Forall_cons_2; [by exists 0x3f, (numeric "rotation_deg" 2 true (1 # 10))|].
  apply Forall_cons_2; [by exists 0x00, (numeric "packetId" 1 false 1)|].
  apply Forall_cons_2; [by exists 0xf0, (numeric "deviceTypeId" 2 false 1)|].
  apply Forall_cons_2;
    [by exists 0xf1, (custom "firmwareVersion" (Some 4%nat) parse_firmwareVersion)|].
  apply Forall_cons_2;
    [by exists 0xf2, (custom "firmwareVersionShort" (Some 3%nat) parse_firmwareVersionShort)|].
  apply Forall_cons_2; [by exists 0x53, (custom "text" None parse_text)|].
  apply Forall_cons_2; [by exists 0x54, (custom "raw" None parse_raw)|].
  apply Forall_nil_2.
Qed.

(** * Examples *)

Example toString_utf8_hello :
  toString_utf8 (Buffer_from [0x68; 0x65; 0x6c; 0x6c; 0x6f]) = "hello".
Proof. reflexivity. Qed.

Example toString_utf8_truncated :
  toString_utf8 (Buffer_from [0x41; 0xe2; 0x82]) = string_of_list_byte (x41 :: U_FFFD).
Proof. reflexivity. Qed.

Example toISOString_epoch : toISOString 0 = Ok "1970-01-01T00:00:00.000Z".
Proof. reflexivity. Qed.

Example toISOString_2023 : toISOString 1700000000000 = Ok "2023-11-14T22:13:20.000Z".
Proof. vm_compute. reflexivity. Qed.

(** The binary64 number nearest to 0.35 is a little below it. *)
Example binary64_035 : binary64 (35 # 100) = (3152519739159347 # 9007199254740992)%Q.
Proof. vm_compute. reflexivity. Qed.

Example toFixed_temperature :
  parseFloat <$> toFixed (binary64 (inject_Z (-50) * binary64 (1 # 100)))
                         (fraction_digits (binary64 (1 # 100)))
  = Ok (-1 # 2)%Q.
Proof. vm_compute. reflexivity. Qed.

Example fraction_digits_035 : fraction_digits (binary64 (35 # 100)) = Some 0.
Proof. vm_compute. reflexivity. Qed.

Example fraction_digits_0001 : fraction_digits (binary64 (1 # 1000)) = Some 3.
Proof. vm_compute. reflexivity. Qed.

Example decode_roundtrip_scenario :
  decodeBTHome (Buffer_from [0x40; 0x02; 0xce; 0xff; 0x01; 0x64])
  = Ok {| version := 2; encrypted := false; trigger := false;
          readings := <["battery" := VNum 100]> {["temperature" := VNum (-1 # 2)]};
          unknown := [] |}.
Proof. vm_compute. reflexivity. Qed.

Example decode_button :
  decodeBTHome (Buffer_from [0x44; 0x3a; 0xfe])
  = Ok {| version := 2; encrypted := false; trigger := true;
          readings := {["button" := VStr "hold_press"]}; unknown := [] |}.
Proof. vm_compute. reflexivity. Qed.

Example decode_text :
  decodeBTHome (Buffer_from [0x40; 0x53; 5; 0x68; 0x65; 0x6c; 0x6c; 0x6f])
  = Ok {| version := 2; encrypted := false; trigger := false;
          readings := {["text" := VStr "hello"]}; unknown := [] |}.
Proof. vm_compute. reflexivity. Qed.

Example decode_unknown :
  decodeBTHome (Buffer_from [0x40; 0x12; 0x01; 0xab])
  = Ok {| version := 2; encrypted := false; trigger := false;
          readings := ∅; unknown := ["0x12 → 0x1201ab"] |}.
Proof. vm_compute. reflexivity. Qed.

Example decode_truncated :
  decodeBTHome (Buffer_from [0x40; 0x02; 0x01]) = Throw RangeError_bounds.
Proof. vm_compute. reflexivity. Qed.

Example decode_twice :
  decodeBTHome (Buffer_from [0x40; 0x01; 10; 0x01; 20])
  = Ok {| version := 2; encrypted := false; trigger := false;
          readings := <["battery:2" := VNum 20]> {["battery:1" := VNum 10]}; unknown := [] |}.
Proof. vm_compute. reflexivity. Qed.

Example shelly_full :
  decodeShellyManufacturerData
    (InputString "a90b 0105 00 0b0100 0a 665544332211")
  = Ok (Some {| companyId := 0x0ba9;
                flags := Some {| discoverable := true; authEnabled := false;
                                 rpcEnabled := true; buzzerEnabled := false;
                                 inPairingMode := false |};
                modelId := Some 1;
                modelIdShortName := Some "SBBT-002C";
                modelIdLongName := Some "Shelly BLU Button1";
                mac := Some "66:55:44:33:22:11" |}).
Proof. vm_compute. reflexivity. Qed.

Example shelly_short : decodeShellyManufacturerData (InputBuffer (Buffer_from [0xa9; 0x0b; 1; 0; 0])) = Ok None.
Proof. reflexivity. Qed.

Example decode_button_codes :
  decodeBTHome [x40; x3a; x02]
  = Ok (header_result x40 {[ "button"%string := VStr "double_press" ]} [])
  /\ decodeBTHome [x40; x3a; x99]
     = Ok (header_result x40 {[ "button"%string := VStr "unknown" ]} []).
Proof. split; vm_compute; reflexivity. Qed.

Example decode_firmwareVersion :
  decodeBTHome [x40; xf1; x04; x03; x02; x01]
  = Ok (header_result x40 {[ "firmwareVersion"%string := VStr "1.2.3.4" ]} []).
Proof. vm_compute. reflexivity. Qed.

(** A firmware version cut short does not throw: the missing components
    are printed as [undefined]. *)
Example decode_firmwareVersion_truncated :
  decodeBTHome [x40; xf1; x04; x03]
  = Ok (header_result x40
          {[ "firmwareVersion"%string := VStr "undefined.undefined.3.4" ]} []).
Proof. vm_compute. reflexivity. Qed.

(** A length-prefixed id as the last byte throws on the read of its length. *)
Example decode_text_without_length :
  decodeBTHome [x40; x53] = Throw RangeError_bounds.
Proof. vm_compute. reflexivity. Qed.

(** Ids 0x02 and 0x45 share the name [temperature]: 25.00 is overwritten
    by 27.2. *)
Example decode_two_temperatures :
  decodeBTHome [x40; x02; xc4; x09; x45; x10; x01]
  = Ok (header_result x40 {[ "temperature"%string := VNum (136 # 5) ]} []).
Proof. vm_compute. reflexivity. Qed.

(** The scale 0.35 of id 0x58 has [log10 (1 / 0.35)] below 1, hence no
    decimal place: 56 * 0.35 = 19.6 is reported as 20. *)
Example decode_temperature_035 :
  decodeBTHome [x40; x58; x38]
  = Ok (header_result x40 {[ "temperature"%string := VNum 20 ]} []).
Proof. vm_compute. reflexivity. Qed.

(** In binary64 90 * 0.35 is 31.499999999999996, below the tie 31.5. *)
Example decode_temperature_035_tie :
  decodeBTHome [x40; x58; x5a]
  = Ok (header_result x40 {[ "temperature"%string := VNum 31 ]} []).
Proof. vm_compute. reflexivity. Qed.

(** For a string the length test counts characters: twelve hex digits
    are six bytes, and are decoded. *)
Example shelly_hex_string_six_bytes :
  decodeShellyManufacturerData (InputString "a90b0b0300ff")
  = Ok (Some {| companyId := 0x0ba9; flags := None; modelId := Some 3;
                modelIdShortName := Some "SBHT-003C"%string;
                modelIdLongName := Some "Shelly BLU HT"%string;
                mac := None |}).
Proof. vm_compute. reflexivity. Qed.

(** Ten characters that hold no hex digit give an empty buffer, and the
    read of the company id throws. *)
Example shelly_blank_string_throws :
  decodeShellyManufacturerData (InputString "          ") = Throw RangeError_bounds.
Proof. vm_compute. reflexivity. Qed.
